(** * dialogue-runner: a shallow embedding of the orchestration engine

    The development follows the TypeScript sources one module at a time:

    - [JsMap], [JsString]   the built-ins the sources rely on: the
                            insertion-ordered [Map<string, V>], and the
                            string methods ([trim], [replace], [parseFloat],
                            ...) as ECMAScript defines them;
    - [Types]               [types.ts]: runtime events and the [DialogueRuntime]
                            interface;
    - [TreeRuntime]         [dialogue-tree-runtime.ts]: the graph walker;
    - [LineProviders]       [line-provider.ts]: substitution of placeholders;
    - [Commands]            [command-dispatcher.ts]: tokenizer, [parseValue] and
                            the built-in handlers;
    - [Runner]              [runner.ts]: the orchestrator and its step loop;
    - [ScriptedRuntime]     the second runtime, from the test suite;
    - [TreeRuns], [Placeholders], [SetCommand], [Scenarios]
                            the vocabulary of the properties: runs of the
                            runtime, occurrences of a placeholder, the [set]
                            command as specified, and the graphs of the tests.

    Modelling conventions.  A JavaScript string is a [string] of ASCII
    characters; [undefined] and [null] are [None]; an exception is a value
    of [Error] returned beside the state the call left.  Asynchronous calls
    are awaited where the source awaits them, so the model runs them in
    sequence.  The handlers subscribed with [on] only observe: the events
    they are called with are logged.  *)

From Stdlib Require Import String Ascii List ZArith Bool Lia.
From Stdlib Require Import DecimalNat DecimalString.
Import ListNotations.
Open Scope string_scope.
Open Scope list_scope.

(* ------------------------------------------------------------------ *)
(** ** JavaScript helpers *)

(** [a ?? b] and [a || b] on optional values. *)
Definition nullish {A} (a : option A) (b : A) : A :=
  match a with Some x => x | None => b end.

(** A string is falsy when it is empty. *)
Definition truthy (s : string) : bool :=
  match s with EmptyString => false | String _ _ => true end.

(** [s || d] where [s] is an optional string: [undefined] and [''] are
    both falsy. *)
Definition or_else (s : option string) (d : string) : string :=
  match s with
  | Some x => if truthy x then x else d
  | None => d
  end.

Module JsMap.
(** [Map<string, V>]: keys are unique and kept in insertion order;
    [set] on a key that is present overwrites in place. *)
Definition t (V : Type) : Type := list (string * V).

Definition empty {V} : t V := [].

Fixpoint get {V} (k : string) (m : t V) : option V :=
  match m with
  | [] => None
  | (k', v) :: m' => if String.eqb k k' then Some v else get k m'
  end.

Fixpoint set {V} (k : string) (v : V) (m : t V) : t V :=
  match m with
  | [] => [(k, v)]
  | (k', v') :: m' =>
      if String.eqb k k' then (k', v) :: m' else (k', v') :: set k v m'
  end.

Definition has {V} (k : string) (m : t V) : bool :=
  match get k m with Some _ => true | None => false end.

Fixpoint delete {V} (k : string) (m : t V) : t V :=
  match m with
  | [] => []
  | (k', v') :: m' =>
      if String.eqb k k' then m' else (k', v') :: delete k m'
  end.

Definition clear {V} (_ : t V) : t V := [].

Definition keys {V} (m : t V) : list string := map fst m.

Definition entries {V} (m : t V) : list (string * V) := m.
End JsMap.

(* ------------------------------------------------------------------ *)
(** ** types.ts *)

Module Types.

(** A JavaScript number that came out of [parseFloat].  The sources never
  compute with the numbers they store, so a number is kept as the decimal
  literal that was read (JavaScript rounds its value to the nearest double;
  the rounding is not part of the model). *)
Inductive JsNumber : Type :=
| NumInfinity (negative : bool)
| NumDecimal (negative : bool) (intDigits fracDigits : string) (exponent : Z).

(** [type VariableValue = string | number | boolean] *)
Inductive VariableValue : Type :=
| VString (s : string)
| VNumber (n : JsNumber)
| VBoolean (b : bool).

Record OptionInfo : Type := {
opt_id : nat;
opt_lineId : string;
opt_enabled : bool;
opt_destinationNode : option string
}.

(** [type RuntimeEvent]: one constructor per member of the union, each
  named after its interface. *)
Inductive RuntimeEvent : Type :=
| LineEvent (lineId : string) (substitutions : list string)
| OptionsEvent (options : list OptionInfo)
| CommandEvent (text : string)
| NodeStartEvent (nodeName : string)
| NodeCompleteEvent (nodeName : string)
| DialogueCompleteEvent
| PrepareForLinesEvent (lineIds : list string).

(** The exceptions the sources raise. *)
Inductive Error : Type :=
| NotWaitingForOptionError        (* 'Not currently waiting for an option' *)
| InvalidOptionIdError (optionId : Z)  (* `Invalid option id ${optionId}` *)
| CannotContinueWhileWaiting      (* 'Cannot continue while waiting for option selection' *)
| DialogueAlreadyComplete         (* 'Dialogue is already complete' *)
| NotWaitingForOptionSelection    (* 'Not waiting for option selection' *)
| OptionsNotSupported.            (* 'Options not supported' (test double) *)

(** [interface DialogueRuntime], as operations on the runtime's state.
  [setSelectedOption] returns the exception it raised, if any, and the
  state it left.  [loadProgram] is not called by the runner and is kept
  with each implementation. *)
Class DialogueRuntime (R : Type) : Type := {
setNode : string -> R -> R;
continue : R -> option RuntimeEvent * R;
setSelectedOption : Z -> R -> option Error * R;
getVariable : string -> R -> option VariableValue;
setVariable : string -> VariableValue -> R -> R;
getVariableNames : R -> list string;
isWaitingForOption : R -> bool;
isDialogueComplete : R -> bool;
reset : R -> R
}.

End Types.
Import Types.

(* ------------------------------------------------------------------ *)
(** ** dialogue-tree-runtime.ts *)

Record PlayerChoice : Type := {
  choice_id : string;
  choice_text : string;
  choice_nextNodeId : option string;
  choice_lineId : option string;
  choice_enabled : option bool
}.

(** [type DialogueNode = NpcNode | PlayerNode].  A loaded program is
    untyped JSON, so a node may carry a [type] that is neither; the runtime
    has a branch for it ("Unknown node type ends the dialogue"). *)
Inductive DialogueNode : Type :=
| NpcNode (id : string) (content : string) (lineId : option string)
          (substitutions : option (list string)) (nextNodeId : option string)
| PlayerNode (id : string) (choices : list PlayerChoice)
| UnknownNode (id : string).

Definition node_id (n : DialogueNode) : string :=
  match n with
  | NpcNode id _ _ _ _ => id
  | PlayerNode id _ => id
  | UnknownNode id => id
  end.

(** [nodes: Record<string, DialogueNode>] is a list of own properties; the
    properties an object inherits from its prototype are not modelled. *)
Record DialogueTree : Type := {
  tree_id : string;
  startNodeId : string;
  nodes : list (string * DialogueNode)
}.

Record OptionsCache : Type := {
  cache_choices : list PlayerChoice;
  cache_nodeId : string
}.

(** [array[i]] for a JavaScript number [i] that is an integer. *)
Definition array_get {A} (l : list A) (i : Z) : option A :=
  if (0 <=? i)%Z then nth_error l (Z.to_nat i) else None.

(** [Set<string>.has] *)
Definition set_has (x : string) (s : list string) : bool :=
  existsb (String.eqb x) s.

(** [Set<string>.add] *)
Definition set_add (x : string) (s : list string) : list string :=
  if set_has x s then s else s ++ [x].

(** [array.map((x, idx) => f x idx)] *)
Fixpoint mapi_from {A B} (f : A -> nat -> B) (i : nat) (l : list A) : list B :=
  match l with
  | [] => []
  | x :: l' => f x i :: mapi_from f (S i) l'
  end.

Module TreeRuntime.

(** The private fields of [class DialogueTreeRuntime]. *)
Record t : Type := mk {
  tree : DialogueTree;
  currentNodeId : option string;
  isComplete : bool;
  waitingForOption : bool;
  pendingEvents : list RuntimeEvent;
  pendingNextNodeId : option string;
  startedNodes : list string;
  variables : JsMap.t VariableValue;
  optionCache : option OptionsCache
}.

(** [constructor(tree)] *)
Definition create (tr : DialogueTree) : t :=
  mk tr (Some (startNodeId tr)) false false [] None [] JsMap.empty None.

Definition set_currentNodeId (v : option string) (s : t) : t :=
  mk (tree s) v (isComplete s) (waitingForOption s) (pendingEvents s)
     (pendingNextNodeId s) (startedNodes s) (variables s) (optionCache s).
Definition set_isComplete (v : bool) (s : t) : t :=
  mk (tree s) (currentNodeId s) v (waitingForOption s) (pendingEvents s)
     (pendingNextNodeId s) (startedNodes s) (variables s) (optionCache s).
Definition set_waitingForOption (v : bool) (s : t) : t :=
  mk (tree s) (currentNodeId s) (isComplete s) v (pendingEvents s)
     (pendingNextNodeId s) (startedNodes s) (variables s) (optionCache s).
Definition set_pendingEvents (v : list RuntimeEvent) (s : t) : t :=
  mk (tree s) (currentNodeId s) (isComplete s) (waitingForOption s) v
     (pendingNextNodeId s) (startedNodes s) (variables s) (optionCache s).
Definition set_pendingNextNodeId (v : option string) (s : t) : t :=
  mk (tree s) (currentNodeId s) (isComplete s) (waitingForOption s)
     (pendingEvents s) v (startedNodes s) (variables s) (optionCache s).
Definition set_startedNodes (v : list string) (s : t) : t :=
  mk (tree s) (currentNodeId s) (isComplete s) (waitingForOption s)
     (pendingEvents s) (pendingNextNodeId s) v (variables s) (optionCache s).
Definition set_variables (v : JsMap.t VariableValue) (s : t) : t :=
  mk (tree s) (currentNodeId s) (isComplete s) (waitingForOption s)
     (pendingEvents s) (pendingNextNodeId s) (startedNodes s) v (optionCache s).
Definition set_optionCache (v : option OptionsCache) (s : t) : t :=
  mk (tree s) (currentNodeId s) (isComplete s) (waitingForOption s)
     (pendingEvents s) (pendingNextNodeId s) (startedNodes s) (variables s) v.
Definition set_tree (v : DialogueTree) (s : t) : t :=
  mk v (currentNodeId s) (isComplete s) (waitingForOption s)
     (pendingEvents s) (pendingNextNodeId s) (startedNodes s) (variables s)
     (optionCache s).

(** [this.pendingEvents.push(e)] *)
Definition push (e : RuntimeEvent) (s : t) : t :=
  set_pendingEvents (pendingEvents s ++ [e]) s.

(** [this.tree.nodes[key]] *)
Fixpoint lookup_node (key : string) (ns : list (string * DialogueNode))
  : option DialogueNode :=
  match ns with
  | [] => None
  | (k, n) :: ns' => if String.eqb key k then Some n else lookup_node key ns'
  end.

Definition setNode (nodeName : string) (s : t) : t :=
  set_optionCache None
    (set_pendingNextNodeId None
       (set_pendingEvents []
          (set_waitingForOption false
             (set_currentNodeId (Some nodeName) s)))).

Definition reset (s : t) : t :=
  set_optionCache None
    (set_startedNodes []
       (set_pendingNextNodeId None
          (set_pendingEvents []
             (set_isComplete false
                (set_waitingForOption false
                   (set_currentNodeId (Some (startNodeId (tree s))) s)))))).

(** [loadProgram], after the bytes have been decoded and parsed. *)
Definition loadProgram (parsed : DialogueTree) (s : t) : t :=
  let s1 := reset (set_tree parsed s) in
  set_currentNodeId (Some (startNodeId (tree s1))) s1.

Definition choice_option (choice : PlayerChoice) (idx : nat) : OptionInfo :=
  {| opt_id := idx;
     opt_lineId := or_else (choice_lineId choice) (choice_id choice);
     opt_enabled := nullish (choice_enabled choice) true;
     opt_destinationNode := choice_nextNodeId choice |}.

(** The body of [populateEventsForCurrentNode] once the node is known
    to have been started. *)
Definition populateNodeBody (node : DialogueNode) (s : t) : t :=
  match node with
  | NpcNode id _ lineId substitutions nextNodeId =>
      let lineId' := or_else lineId id in
      let substitutions' := nullish substitutions [] in
      let s1 := set_pendingNextNodeId nextNodeId s in
      push (NodeCompleteEvent id)
        (push (LineEvent lineId' substitutions')
           (push (PrepareForLinesEvent [lineId']) s1))
  | PlayerNode id choices =>
      let options := mapi_from choice_option 0 choices in
      let s1 := push (PrepareForLinesEvent (map opt_lineId options)) s in
      let s2 := push (OptionsEvent options) s1 in
      set_optionCache
        (Some {| cache_choices := choices; cache_nodeId := id |}) s2
  | UnknownNode _ =>
      set_isComplete true (push DialogueCompleteEvent s)
  end.

Definition populateEventsForCurrentNode (s : t) : t :=
  if isComplete s then s
  else
    match currentNodeId s with
    | None => push DialogueCompleteEvent s
    | Some cur =>
        if negb (truthy cur) then push DialogueCompleteEvent s
        else
          match lookup_node cur (nodes (tree s)) with
          | None => set_isComplete true (push DialogueCompleteEvent s)
          | Some node =>
              if negb (set_has (node_id node) (startedNodes s)) then
                push (NodeStartEvent (node_id node))
                  (set_startedNodes
                     (set_add (node_id node) (startedNodes s)) s)
              else populateNodeBody node s
          end
    end.

(** The three [if (nextEvent.type === ...)] updates of [continue]. *)
Definition applyEvent (e : RuntimeEvent) (s : t) : t :=
  let s1 := match e with
            | OptionsEvent _ => set_waitingForOption true s
            | _ => s
            end in
  let s2 := match e with
            | NodeCompleteEvent _ =>
                set_pendingNextNodeId None
                  (set_currentNodeId (pendingNextNodeId s1) s1)
            | _ => s1
            end in
  match e with
  | DialogueCompleteEvent => set_isComplete true s2
  | _ => s2
  end.

Definition continue (s : t) : option RuntimeEvent * t :=
  if isComplete s || waitingForOption s then (None, s)
  else
    let s1 := match pendingEvents s with
              | [] => populateEventsForCurrentNode s
              | _ :: _ => s
              end in
    match pendingEvents s1 with
    | [] => (None, s1)
    | nextEvent :: rest =>
        (Some nextEvent, applyEvent nextEvent (set_pendingEvents rest s1))
    end.

Definition setSelectedOption (optionId : Z) (s : t) : option Error * t :=
  match optionCache s with
  | None => (Some NotWaitingForOptionError, s)
  | Some cache =>
      if negb (waitingForOption s) then (Some NotWaitingForOptionError, s)
      else
        match array_get (cache_choices cache) optionId with
        | None => (Some (InvalidOptionIdError optionId), s)
        | Some choice =>
            (None,
             set_optionCache None
               (push (NodeCompleteEvent (cache_nodeId cache))
                  (set_pendingNextNodeId (choice_nextNodeId choice)
                     (set_waitingForOption false s))))
        end
  end.

Definition getVariable (name : string) (s : t) : option VariableValue :=
  JsMap.get name (variables s).

Definition setVariable (name : string) (value : VariableValue) (s : t) : t :=
  set_variables (JsMap.set name value (variables s)) s.

Definition getVariableNames (s : t) : list string :=
  JsMap.keys (variables s).

Definition isWaitingForOption (s : t) : bool := waitingForOption s.

Definition isDialogueComplete (s : t) : bool := isComplete s.

End TreeRuntime.

#[export] Instance TreeRuntime_DialogueRuntime : DialogueRuntime TreeRuntime.t := {
  setNode := TreeRuntime.setNode;
  continue := TreeRuntime.continue;
  setSelectedOption := TreeRuntime.setSelectedOption;
  getVariable := TreeRuntime.getVariable;
  setVariable := TreeRuntime.setVariable;
  getVariableNames := TreeRuntime.getVariableNames;
  isWaitingForOption := TreeRuntime.isWaitingForOption;
  isDialogueComplete := TreeRuntime.isDialogueComplete;
  reset := TreeRuntime.reset
}.

(* ------------------------------------------------------------------ *)
(** ** Strings: the built-in methods the sources call *)

Module JsString.

Definition is_digit (c : ascii) : bool :=
  let n := nat_of_ascii c in (48 <=? n)%nat && (n <=? 57)%nat.

(** White space and line terminators of ASCII: tab, line feed, vertical
    tab, form feed, carriage return and space. *)
Definition is_whitespace (c : ascii) : bool :=
  let n := nat_of_ascii c in
  ((9 <=? n)%nat && (n <=? 13)%nat) || (n =? 32)%nat.

Fixpoint trimStart (s : string) : string :=
  match s with
  | EmptyString => EmptyString
  | String c s' => if is_whitespace c then trimStart s' else s
  end.

Fixpoint trimEnd (s : string) : string :=
  match s with
  | EmptyString => EmptyString
  | String c s' =>
      let r := trimEnd s' in
      if negb (truthy r) && is_whitespace c then EmptyString else String c r
  end.

Definition trim (s : string) : string := trimEnd (trimStart s).

Definition lower_char (c : ascii) : ascii :=
  let n := nat_of_ascii c in
  if (65 <=? n)%nat && (n <=? 90)%nat then ascii_of_nat (n + 32) else c.

Fixpoint toLowerCase (s : string) : string :=
  match s with
  | EmptyString => EmptyString
  | String c s' => String (lower_char c) (toLowerCase s')
  end.

(** [strip_prefix p s] is the rest of [s] after [p] when [s] starts
    with [p]. *)
Fixpoint strip_prefix (p s : string) : option string :=
  match p, s with
  | EmptyString, _ => Some s
  | String a p', String b s' =>
      if Ascii.eqb a b then strip_prefix p' s' else None
  | String _ _, EmptyString => None
  end.

Definition startsWith (p s : string) : bool :=
  match strip_prefix p s with Some _ => true | None => false end.

Fixpoint last_char (s : string) : option ascii :=
  match s with
  | EmptyString => None
  | String c EmptyString => Some c
  | String _ s' => last_char s'
  end.

(** [s.endsWith(c)] for a one-character [c]. *)
Definition endsWithChar (c : ascii) (s : string) : bool :=
  match last_char s with Some d => Ascii.eqb c d | None => false end.

Fixpoint drop_last (s : string) : string :=
  match s with
  | EmptyString => EmptyString
  | String _ EmptyString => EmptyString
  | String c s' => String c (drop_last s')
  end.

(** [s.slice(1, -1)] *)
Definition slice_1_m1 (s : string) : string :=
  match s with
  | EmptyString => EmptyString
  | String _ s' => drop_last s'
  end.

(** [s.indexOf(pat)], returned as the text before the first occurrence
    and the text after it. *)
Fixpoint split_first (pat s : string) : option (string * string) :=
  match strip_prefix pat s with
  | Some post => Some (EmptyString, post)
  | None =>
      match s with
      | EmptyString => None
      | String c s' =>
          match split_first pat s' with
          | Some (pre, post) => Some (String c pre, post)
          | None => None
          end
      end
  end.

(** GetSubstitution of ECMAScript for a search value that is a string:
    there are no captures, so [$$], [$&], [$`] and [$'] are the patterns
    that expand and every other character is copied. *)
Fixpoint getSubstitution (matched pre post replacement : string) : string :=
  match replacement with
  | EmptyString => EmptyString
  | String c rest =>
      match rest with
      | String d rest' =>
          if Ascii.eqb c "$" then
            if Ascii.eqb d "$" then
              String "$" (getSubstitution matched pre post rest')
            else if Ascii.eqb d "&" then
              matched ++ getSubstitution matched pre post rest'
            else if Ascii.eqb d "`" then
              pre ++ getSubstitution matched pre post rest'
            else if Ascii.eqb d "'" then
              post ++ getSubstitution matched pre post rest'
            else String c (getSubstitution matched pre post rest)
          else String c (getSubstitution matched pre post rest)
      | EmptyString => String c EmptyString
      end
  end.

(** [text.replace(pat, replacement)] with both arguments strings: the
    first occurrence only. *)
Definition replace (pat replacement text : string) : string :=
  match split_first pat text with
  | None => text
  | Some (pre, post) =>
      pre ++ getSubstitution pat pre post replacement ++ post
  end.

(** [`${n}`] for a non-negative integer. *)
Definition of_nat (n : nat) : string :=
  NilEmpty.string_of_uint (Nat.to_uint n).

(** The longest run of decimal digits at the start of [s], and the
    rest. *)
Fixpoint span_digits (s : string) : string * string :=
  match s with
  | EmptyString => (EmptyString, EmptyString)
  | String c s' =>
      if is_digit c then
        let (ds, rest) := span_digits s' in (String c ds, rest)
      else (EmptyString, s)
  end.

Fixpoint digits_value_from (acc : Z) (s : string) : Z :=
  match s with
  | EmptyString => acc
  | String c s' =>
      digits_value_from (10 * acc + (Z.of_nat (nat_of_ascii c) - 48))%Z s'
  end.

Definition digits_value (s : string) : Z := digits_value_from 0%Z s.

(** ExponentPart, when one is there: [e] or [E], an optional sign and
    at least one digit. *)
Definition scan_exponent (s : string) : Z * string :=
  match s with
  | String c s1 =>
      if Ascii.eqb c "e" || Ascii.eqb c "E" then
        let '(neg, s2) :=
          match s1 with
          | String d r =>
              if Ascii.eqb d "+" then (false, r)
              else if Ascii.eqb d "-" then (true, r)
              else (false, s1)
          | EmptyString => (false, s1)
          end in
        let (ds, rest) := span_digits s2 in
        if truthy ds
        then ((if neg then - digits_value ds else digits_value ds)%Z, rest)
        else (0%Z, s)
      else (0%Z, s)
  | EmptyString => (0%Z, s)
  end.

(** StrUnsignedDecimalLiteral: the longest prefix that is one. *)
Definition scan_unsigned (neg : bool) (s : string)
  : option (JsNumber * string) :=
  match strip_prefix "Infinity" s with
  | Some rest => Some (NumInfinity neg, rest)
  | None =>
      let (int, s1) := span_digits s in
      let '(frac, s2) :=
        match s1 with
        | String c r =>
            if Ascii.eqb c "." then
              let (f, r') := span_digits r in
              if truthy int || truthy f then (f, r') else (EmptyString, s1)
            else (EmptyString, s1)
        | EmptyString => (EmptyString, s1)
        end in
      if truthy int || truthy frac then
        let (e, rest) := scan_exponent s2 in
        Some (NumDecimal neg int frac e, rest)
      else None
  end.

(** [parseFloat] together with the text it did not read: leading white
    space is skipped, then the longest prefix that is a StrDecimalLiteral
    is taken; [None] is NaN. *)
Definition scanFloat (s : string) : option (JsNumber * string) :=
  match trimStart s with
  | String c r =>
      if Ascii.eqb c "+" then scan_unsigned false r
      else if Ascii.eqb c "-" then scan_unsigned true r
      else scan_unsigned false (String c r)
  | EmptyString => None
  end.

Definition parseFloat (s : string) : option JsNumber :=
  match scanFloat s with Some (n, _) => Some n | None => None end.

End JsString.

(* ------------------------------------------------------------------ *)
(** ** line-provider.ts *)

Definition Metadata : Type := list (string * string).

Record LocalizedLine : Type := {
  ll_text : string;
  ll_lineId : string;
  ll_substitutions : list string;
  ll_metadata : option Metadata
}.

Record LineEntry : Type := {
  entry_id : string;
  entry_text : string;
  entry_metadata : option Metadata
}.

(** [abstract class LineProvider]: the two abstract methods.
    [prepareLines] may change the provider (a cache being filled). *)
Class LineProvider (P : Type) : Type := {
  getLine : P -> string -> list string -> option LocalizedLine;
  prepareLines : list string -> P -> P
}.

Module LineProviders.

(** [`{${idx}}`] *)
Definition placeholder (idx : nat) : string :=
  "{" ++ JsString.of_nat idx ++ "}".

(** The body of the [forEach] of [applySubstitutions], from index [idx]
    on. *)
Fixpoint applySubstitutions_from (idx : nat) (substitutions : list string)
                                 (result : string) : string :=
  match substitutions with
  | [] => result
  | sub :: rest =>
      applySubstitutions_from (S idx) rest
        (JsString.replace (placeholder idx) sub result)
  end.

Definition applySubstitutions (text : string) (substitutions : list string)
  : string :=
  applySubstitutions_from 0 substitutions text.

(** [class MapLineProvider] *)
Record MapLineProvider : Type := {
  locale : string;
  fallbackLocale : string;
  lines : JsMap.t LineEntry
}.

(** [new MapLineProvider(lines)] with [lines] a [Record<string, string>]
    and the default options. *)
Definition of_record (entries : list (string * string)) : MapLineProvider :=
  {| locale := "en-US";
     fallbackLocale := "en-US";
     lines := fold_left
                (fun m '(id, text) =>
                   JsMap.set id {| entry_id := id; entry_text := text;
                                   entry_metadata := None |} m)
                entries JsMap.empty |}.

Definition getLine (p : MapLineProvider) (lineId : string)
                   (substitutions : list string) : option LocalizedLine :=
  match JsMap.get lineId (lines p) with
  | None => None
  | Some entry =>
      Some {| ll_text := applySubstitutions (entry_text entry) substitutions;
              ll_lineId := lineId;
              ll_substitutions := substitutions;
              ll_metadata := entry_metadata entry |}
  end.

Definition prepareLines (_ : list string) (p : MapLineProvider)
  : MapLineProvider := p.

Definition setLine (lineId text : string) (metadata : option Metadata)
                   (p : MapLineProvider) : MapLineProvider :=
  {| locale := locale p;
     fallbackLocale := fallbackLocale p;
     lines := JsMap.set lineId
                {| entry_id := lineId; entry_text := text;
                   entry_metadata := metadata |} (lines p) |}.

End LineProviders.

#[export] Instance MapLineProvider_LineProvider
  : LineProvider LineProviders.MapLineProvider := {
  getLine := LineProviders.getLine;
  prepareLines := LineProviders.prepareLines
}.

(* ------------------------------------------------------------------ *)
(** ** command-dispatcher.ts *)

Module Commands.

(** What a command handler does with its [CommandContext], as the
    sequence of context calls it makes.  [CtxSleep] is the timer that
    [wait] awaits; it touches nothing. *)
Inductive ContextProgram : Type :=
| CtxReturn
| CtxGetVariable (name : string) (k : option VariableValue -> ContextProgram)
| CtxSetVariable (name : string) (value : VariableValue) (k : ContextProgram)
| CtxStop (k : ContextProgram)
| CtxContinue (k : ContextProgram)
| CtxSleep (seconds : JsNumber) (k : ContextProgram).

(** [type CommandHandler = (args, context) => void | Promise<void>] *)
Definition CommandHandler : Type := list string -> ContextProgram.

Record CommandDispatcher : Type := {
  handlers : JsMap.t CommandHandler;
  defaultHandler : option CommandHandler
}.

Definition create : CommandDispatcher :=
  {| handlers := JsMap.empty; defaultHandler := None |}.

Definition on (command : string) (handler : CommandHandler)
              (d : CommandDispatcher) : CommandDispatcher :=
  {| handlers := JsMap.set (JsString.toLowerCase command) handler (handlers d);
     defaultHandler := defaultHandler d |}.

Definition off (command : string) (d : CommandDispatcher)
  : CommandDispatcher :=
  {| handlers := JsMap.delete (JsString.toLowerCase command) (handlers d);
     defaultHandler := defaultHandler d |}.

Definition setDefault (handler : CommandHandler) (d : CommandDispatcher)
  : CommandDispatcher :=
  {| handlers := handlers d; defaultHandler := Some handler |}.

(** The double and the single quotation mark. *)
Definition double_quote : ascii := ascii_of_nat 34.
Definition single_quote : ascii := ascii_of_nat 39.

Definition is_quote (c : ascii) : bool :=
  Ascii.eqb c double_quote || Ascii.eqb c single_quote.

Definition same_char (q : option ascii) (c : ascii) : bool :=
  match q with Some d => Ascii.eqb c d | None => false end.

(** The [for] loop of [tokenize]; [quoteChar] is [None] for [''] . *)
Fixpoint tokenize_loop (text : string) (tokens : list string)
                       (current : string) (inQuotes : bool)
                       (quoteChar : option ascii) : list string :=
  match text with
  | EmptyString => if truthy current then tokens ++ [current] else tokens
  | String char rest =>
      if is_quote char && negb inQuotes then
        tokenize_loop rest tokens current true (Some char)
      else if same_char quoteChar char && inQuotes then
        tokenize_loop rest tokens current false None
      else if Ascii.eqb char " " && negb inQuotes then
        if truthy current
        then tokenize_loop rest (tokens ++ [current]) EmptyString
                           inQuotes quoteChar
        else tokenize_loop rest tokens current inQuotes quoteChar
      else
        tokenize_loop rest tokens (current ++ String char EmptyString)
                      inQuotes quoteChar
  end.

Definition tokenize (text : string) : list string :=
  tokenize_loop text [] EmptyString false None.

Definition parseCommand (text : string) : option (string * list string) :=
  let trimmed := JsString.trim text in
  if negb (truthy trimmed) then None
  else
    match tokenize trimmed with
    | [] => None
    | command :: args => Some (command, args)
    end.

(** [dispatch]: whether the command was handled, and what the handler
    that was picked does. *)
Definition dispatch (commandText : string) (d : CommandDispatcher)
  : bool * ContextProgram :=
  match parseCommand commandText with
  | None => (false, CtxReturn)
  | Some (command, args) =>
      match JsMap.get (JsString.toLowerCase command) (handlers d) with
      | Some handler => (true, handler args)
      | None =>
          match defaultHandler d with
          | Some handler => (true, handler (command :: args))
          | None => (false, CtxReturn)
          end
      end
  end.

Definition hasHandler (command : string) (d : CommandDispatcher) : bool :=
  JsMap.has (JsString.toLowerCase command) (handlers d)
  || match defaultHandler d with Some _ => true | None => false end.

Definition getRegisteredCommands (d : CommandDispatcher) : list string :=
  JsMap.keys (handlers d).

Definition is_quoted_by (q : ascii) (valueStr : string) : bool :=
  JsString.startsWith (String q EmptyString) valueStr
  && JsString.endsWithChar q valueStr.

Definition parseValue (valueStr : string) : VariableValue :=
  if is_quoted_by double_quote valueStr || is_quoted_by single_quote valueStr then
    VString (JsString.slice_1_m1 valueStr)
  else if String.eqb valueStr "true" then VBoolean true
  else if String.eqb valueStr "false" then VBoolean false
  else
    match JsString.parseFloat valueStr with
    | Some num => VNumber num
    | None => VString valueStr
    end.

(** [name.replace(/^\$/, '')] *)
Definition strip_dollar (name : string) : string :=
  match name with
  | String c rest => if Ascii.eqb c "$" then rest else name
  | EmptyString => name
  end.

Definition wait_handler : CommandHandler := fun args =>
  match JsString.parseFloat (or_else (hd_error args) "1") with
  | Some seconds => CtxSleep seconds (CtxContinue CtxReturn)
  | None => CtxContinue CtxReturn
  end.

Definition stop_handler : CommandHandler := fun _args =>
  CtxStop CtxReturn.

Definition set_handler : CommandHandler := fun args =>
  if (2 <=? length args)%nat then
    let varName := strip_dollar (nullish (hd_error args) EmptyString) in
    let value := parseValue (String.concat " " (tl args)) in
    CtxSetVariable varName value (CtxContinue CtxReturn)
  else CtxContinue CtxReturn.

Definition createDefaultDispatcher : CommandDispatcher :=
  on "set" set_handler (on "stop" stop_handler (on "wait" wait_handler create)).

End Commands.

(* ------------------------------------------------------------------ *)
(** ** runner.ts *)

Module Runner.

Record RunnerState : Type := {
  currentNode : option string;
  isRunning : bool;
  isWaitingForOption : bool;
  isComplete : bool;
  lastEvent : option RuntimeEvent
}.

Record RunnerOption : Type := {
  ro_id : nat;
  ro_lineId : string;
  ro_text : string;
  ro_enabled : bool;
  ro_destinationNode : option string
}.

(** [type RunnerEvent]; ['error'] is declared and never emitted. *)
Inductive RunnerEvent : Type :=
| RunnerLineEvent (lineId text : string) (substitutions : list string)
                  (metadata : option Metadata)
| RunnerOptionsEvent (options : list RunnerOption)
| RunnerCommandEvent (command : string) (handled : bool)
| RunnerNodeStartEvent (nodeName : string)
| RunnerNodeCompleteEvent (nodeName : string)
| RunnerDialogueCompleteEvent
| RunnerErrorEvent (message : string).

Definition initialState : RunnerState :=
  {| currentNode := None; isRunning := false; isWaitingForOption := false;
     isComplete := false; lastEvent := None |}.

(** [`[Missing: ${lineId}]`] *)
Definition missing (lineId : string) : string :=
  "[Missing: " ++ lineId ++ "]".

(** [localizedLine?.text || `[Missing: ${lineId}]`] *)
Definition text_or_missing (localizedLine : option LocalizedLine)
                           (lineId : string) : string :=
  match localizedLine with
  | Some l => if truthy (ll_text l) then ll_text l else missing lineId
  | None => missing lineId
  end.

(** The events after which [handleRuntimeEvent] returns [true]. *)
Definition pauses (e : RuntimeEvent) : bool :=
  match e with
  | LineEvent _ _ | OptionsEvent _ | DialogueCompleteEvent => true
  | _ => false
  end.

(** [localizedLine?.metadata] *)
Definition metadata_of (localizedLine : option LocalizedLine)
  : option Metadata :=
  match localizedLine with Some l => ll_metadata l | None => None end.

Section WithCollaborators.

Context {R P : Type} {RT : DialogueRuntime R} {LP : LineProvider P}.

(** The fields of [class DialogueRunner].  The handlers registered
    with [on] are observers: [emitted] is the sequence of events [emit]
    has been called with. *)
Record DialogueRunner : Type := mk {
  runtime : R;
  lineProvider : P;
  commandDispatcher : Commands.CommandDispatcher;
  variableStorage : JsMap.t VariableValue;
  emitted : list RunnerEvent;
  state : RunnerState;
  stopped : bool
}.

(** [new DialogueRunner({runtime, lineProvider, commandDispatcher,
    variableStorage})] *)
Definition create (rt : R) (lp : P) (cd : Commands.CommandDispatcher)
                  (vs : JsMap.t VariableValue) : DialogueRunner :=
  mk rt lp cd vs [] initialState false.

Definition set_runtime (v : R) (r : DialogueRunner) : DialogueRunner :=
  mk v (lineProvider r) (commandDispatcher r) (variableStorage r)
     (emitted r) (state r) (stopped r).
Definition set_lineProvider (v : P) (r : DialogueRunner) : DialogueRunner :=
  mk (runtime r) v (commandDispatcher r) (variableStorage r)
     (emitted r) (state r) (stopped r).
Definition set_variableStorage (v : JsMap.t VariableValue)
                               (r : DialogueRunner) : DialogueRunner :=
  mk (runtime r) (lineProvider r) (commandDispatcher r) v
     (emitted r) (state r) (stopped r).
Definition set_state (v : RunnerState) (r : DialogueRunner)
  : DialogueRunner :=
  mk (runtime r) (lineProvider r) (commandDispatcher r) (variableStorage r)
     (emitted r) v (stopped r).
Definition set_stopped (v : bool) (r : DialogueRunner) : DialogueRunner :=
  mk (runtime r) (lineProvider r) (commandDispatcher r) (variableStorage r)
     (emitted r) (state r) v.

(** [emit]: every handler registered for the event's type is called
    with it. *)
Definition emit (e : RunnerEvent) (r : DialogueRunner) : DialogueRunner :=
  mk (runtime r) (lineProvider r) (commandDispatcher r) (variableStorage r)
     (emitted r ++ [e]) (state r) (stopped r).

Definition stop (r : DialogueRunner) : DialogueRunner :=
  let r1 := set_stopped true r in
  set_state {| currentNode := currentNode (state r1);
               isRunning := false;
               isWaitingForOption := isWaitingForOption (state r1);
               isComplete := true;
               lastEvent := lastEvent (state r1) |} r1.

Definition getState (r : DialogueRunner) : RunnerState := state r.

Definition getVariable (name : string) (r : DialogueRunner)
  : option VariableValue :=
  match JsMap.get name (variableStorage r) with
  | Some v => Some v
  | None => Types.getVariable name (runtime r)
  end.

(** The two statements of [setVariable], in the order of the source. *)
Definition storage_write (name : string) (value : VariableValue)
                         (r : DialogueRunner) : DialogueRunner :=
  set_variableStorage (JsMap.set name value (variableStorage r)) r.

Definition runtime_write (name : string) (value : VariableValue)
                         (r : DialogueRunner) : DialogueRunner :=
  set_runtime (Types.setVariable name value (runtime r)) r.

Definition setVariable_steps (name : string) (value : VariableValue)
  : list (DialogueRunner -> DialogueRunner) :=
  [storage_write name value; runtime_write name value].

(** Run a sequence of statements from the first to the last. *)
Definition run_steps (steps : list (DialogueRunner -> DialogueRunner))
                     (r : DialogueRunner) : DialogueRunner :=
  fold_left (fun acc step => step acc) steps r.

Definition setVariable (name : string) (value : VariableValue)
                       (r : DialogueRunner) : DialogueRunner :=
  run_steps (setVariable_steps name value) r.

Definition reset (r : DialogueRunner) : DialogueRunner :=
  let r1 := set_stopped false r in
  let r2 := set_runtime (Types.reset (runtime r1)) r1 in
  set_state initialState r2.

Definition syncVariablesToRuntime (r : DialogueRunner) : DialogueRunner :=
  set_runtime
    (fold_left (fun rt '(name, value) => Types.setVariable name value rt)
               (JsMap.entries (variableStorage r)) (runtime r)) r.

(** A handler's calls on the [CommandContext] that [handleCommand]
    builds: each is bound to the runner's own method. *)
Fixpoint run_context (p : Commands.ContextProgram) (r : DialogueRunner)
  : DialogueRunner :=
  match p with
  | Commands.CtxReturn => r
  | Commands.CtxGetVariable name k => run_context (k (getVariable name r)) r
  | Commands.CtxSetVariable name value k =>
      run_context k (setVariable name value r)
  | Commands.CtxStop k => run_context k (stop r)
  | Commands.CtxContinue k => run_context k r
  | Commands.CtxSleep _ k => run_context k r
  end.

Definition handleLine (lineId : string) (substitutions : list string)
                      (r : DialogueRunner) : bool * DialogueRunner :=
  let localizedLine := getLine (lineProvider r) lineId substitutions in
  (true,
   emit (RunnerLineEvent lineId (text_or_missing localizedLine lineId)
                         substitutions (metadata_of localizedLine)) r).

Definition set_isWaitingForOption (v : bool) (r : DialogueRunner)
  : DialogueRunner :=
  set_state {| currentNode := currentNode (state r);
               isRunning := isRunning (state r);
               isWaitingForOption := v;
               isComplete := isComplete (state r);
               lastEvent := lastEvent (state r) |} r.

Definition localize_option (p : P) (opt : OptionInfo) : RunnerOption :=
  let localizedLine := getLine p (opt_lineId opt) [] in
  {| ro_id := opt_id opt;
     ro_lineId := opt_lineId opt;
     ro_text := text_or_missing localizedLine (opt_lineId opt);
     ro_enabled := opt_enabled opt;
     ro_destinationNode := opt_destinationNode opt |}.

Definition handleOptions (options : list OptionInfo) (r : DialogueRunner)
  : bool * DialogueRunner :=
  let r1 := set_isWaitingForOption true r in
  (true,
   emit (RunnerOptionsEvent (map (localize_option (lineProvider r1)) options))
        r1).

Definition handleCommand (text : string) (r : DialogueRunner)
  : bool * DialogueRunner :=
  let (handled, program) := Commands.dispatch text (commandDispatcher r) in
  let r1 := run_context program r in
  (false, emit (RunnerCommandEvent text handled) r1).

Definition set_currentNode (v : option string) (r : DialogueRunner)
  : DialogueRunner :=
  set_state {| currentNode := v;
               isRunning := isRunning (state r);
               isWaitingForOption := isWaitingForOption (state r);
               isComplete := isComplete (state r);
               lastEvent := lastEvent (state r) |} r.

Definition set_lastEvent (v : option RuntimeEvent) (r : DialogueRunner)
  : DialogueRunner :=
  set_state {| currentNode := currentNode (state r);
               isRunning := isRunning (state r);
               isWaitingForOption := isWaitingForOption (state r);
               isComplete := isComplete (state r);
               lastEvent := v |} r.

(** The result is [shouldPause] and the runner after the event. *)
Definition handleRuntimeEvent (event : RuntimeEvent) (r : DialogueRunner)
  : bool * DialogueRunner :=
  match event with
  | LineEvent lineId substitutions => handleLine lineId substitutions r
  | OptionsEvent options => handleOptions options r
  | CommandEvent text => handleCommand text r
  | NodeStartEvent nodeName =>
      (false,
       set_currentNode (Some nodeName) (emit (RunnerNodeStartEvent nodeName) r))
  | NodeCompleteEvent nodeName =>
      (false, emit (RunnerNodeCompleteEvent nodeName) r)
  | DialogueCompleteEvent => (true, r)
  | PrepareForLinesEvent lineIds =>
      (false, set_lineProvider (prepareLines lineIds (lineProvider r)) r)
  end.

(** The [while] loop of [runUntilPause].  The runtime is any
    implementation of the interface, so the loop need not end: [fuel]
    bounds the number of iterations and [None] means that it ran out.
    The loop condition is tested before fuel is asked for. *)
Fixpoint runLoop (fuel : nat) (r : DialogueRunner) : option DialogueRunner :=
  if stopped r || isDialogueComplete (runtime r) then Some r
  else
    match fuel with
    | O => None
    | S fuel' =>
        let (event, rt') := Types.continue (runtime r) in
        let r1 := set_runtime rt' r in
        match event with
        | None => Some r1
        | Some e =>
            let r2 := set_lastEvent (Some e) r1 in
            let (shouldPause, r3) := handleRuntimeEvent e r2 in
            if shouldPause then Some r3 else runLoop fuel' r3
        end
    end.

(** The [if] that follows the loop. *)
Definition finishIfComplete (r : DialogueRunner) : DialogueRunner :=
  if isDialogueComplete (runtime r) then
    emit RunnerDialogueCompleteEvent
      (set_state {| currentNode := currentNode (state r);
                    isRunning := false;
                    isWaitingForOption := isWaitingForOption (state r);
                    isComplete := true;
                    lastEvent := lastEvent (state r) |} r)
  else r.

Definition runUntilPause (fuel : nat) (r : DialogueRunner)
  : option DialogueRunner :=
  match runLoop fuel r with
  | Some r1 => Some (finishIfComplete r1)
  | None => None
  end.

(** What a call of a public method comes to: it returns, it raises
    (leaving the runner as [r]), or its loop does not end within the
    fuel. *)
Inductive Outcome : Type :=
| Returns (r : DialogueRunner)
| Throws (e : Error) (r : DialogueRunner)
| OutOfFuel.

Definition returning (o : option DialogueRunner) : Outcome :=
  match o with Some r => Returns r | None => OutOfFuel end.

Definition start (fuel : nat) (nodeName : string) (r : DialogueRunner)
  : Outcome :=
  let r1 := set_stopped false r in
  let r2 := set_state {| currentNode := Some nodeName;
                         isRunning := true;
                         isWaitingForOption := false;
                         isComplete := false;
                         lastEvent := None |} r1 in
  let r3 := syncVariablesToRuntime r2 in
  let r4 := set_runtime (setNode nodeName (runtime r3)) r3 in
  returning (runUntilPause fuel r4).

Definition continue (fuel : nat) (r : DialogueRunner) : Outcome :=
  if isWaitingForOption (state r) then Throws CannotContinueWhileWaiting r
  else if isComplete (state r) then Throws DialogueAlreadyComplete r
  else returning (runUntilPause fuel r).

Definition selectOption (fuel : nat) (optionId : Z) (r : DialogueRunner)
  : Outcome :=
  if negb (isWaitingForOption (state r)) then
    Throws NotWaitingForOptionSelection r
  else
    let (raised, rt') := setSelectedOption optionId (runtime r) in
    let r1 := set_runtime rt' r in
    match raised with
    | Some e => Throws e r1
    | None =>
        let r2 := set_isWaitingForOption false r1 in
        returning (runUntilPause fuel r2)
    end.

(** The public operations that drive a run. *)
Inductive Operation : Type :=
| OpStart (nodeName : string)
| OpContinue
| OpSelectOption (optionId : Z)
| OpStop
| OpReset.

Definition perform (fuel : nat) (op : Operation) (r : DialogueRunner)
  : Outcome :=
  match op with
  | OpStart nodeName => start fuel nodeName r
  | OpContinue => continue fuel r
  | OpSelectOption optionId => selectOption fuel optionId r
  | OpStop => Returns (stop r)
  | OpReset => Returns (reset r)
  end.

(** The calls [ops], made one after the other on [r]: the runner
    they leave when each of them comes back, returning or raising. *)
Fixpoint performAll (fuel : nat) (ops : list Operation) (r : DialogueRunner)
  : option DialogueRunner :=
  match ops with
  | [] => Some r
  | op :: ops' =>
      match perform fuel op r with
      | Returns r' => performAll fuel ops' r'
      | Throws _ r' => performAll fuel ops' r'
      | OutOfFuel => None
      end
  end.

(** A caller's discipline.  Under the first, [stop()] is called only on
    a runner that is not waiting for a choice; under the second, moreover,
    [continue()] is called only on a runner that reports [isRunning]. *)
Inductive Discipline : Type :=
| StopWhenNotWaiting
| AndContinueWhenRunning.

Definition allowed (d : Discipline) (op : Operation) (r : DialogueRunner)
  : Prop :=
  match op with
  | OpContinue => d = AndContinueWhenRunning -> isRunning (state r) = true
  | OpStop => isWaitingForOption (state r) = false
  | _ => True
  end.

Fixpoint disciplined (d : Discipline) (fuel : nat) (ops : list Operation)
                     (r : DialogueRunner) : Prop :=
  match ops with
  | [] => True
  | op :: ops' =>
      allowed d op r
      /\ match perform fuel op r with
         | Returns r' => disciplined d fuel ops' r'
         | Throws _ r' => disciplined d fuel ops' r'
         | OutOfFuel => True
         end
  end.

(** A runtime that does not report completion in the step that
    returns an option set. *)
Definition OptionsLeaveOpen : Prop :=
  forall (s s' : R) (options : list OptionInfo),
    Types.continue s = (Some (OptionsEvent options), s') ->
    isDialogueComplete s' = false.

(** The three flags of [getState()] that the invariants are about. *)
Definition flags (r : DialogueRunner) : bool * bool * bool :=
  (isRunning (state r), isWaitingForOption (state r), isComplete (state r)).

(** The runner's flags after a handler has run: either they are as
    before, or the handler called [stop()]. *)
Definition stopped_from (r r' : DialogueRunner) : Prop :=
  stopped r' = true
  /\ isRunning (state r') = false
  /\ isComplete (state r') = true
  /\ isWaitingForOption (state r')
     = isWaitingForOption (state r).

Definition same_flags (r r' : DialogueRunner) : Prop :=
  stopped r' = stopped r
  /\ flags r' = flags r.

(** [isComplete] implies not [isRunning]. *)
Definition complete_not_running (r : DialogueRunner) : Prop :=
  isComplete (state r) = true ->
  isRunning (state r) = false.

(** A run that goes on: not complete, and running when the caller keeps
    to the second discipline. *)
Definition live (d : Discipline) (r : DialogueRunner) : Prop :=
  (d = AndContinueWhenRunning -> isRunning (state r) = true)
  /\ isComplete (state r) = false.

(** Between two events of the step loop the runner is not waiting for a
    choice, and it is either live or stopped. *)
Definition in_loop (d : Discipline) (r : DialogueRunner) : Prop :=
  isWaitingForOption (state r) = false
  /\ (if stopped r
      then isRunning (state r) = false /\ isComplete (state r) = true
      else live d r).

(** When the loop is left: a runner that waits for a choice is live and
    its runtime has not completed. *)
Definition at_pause (d : Discipline) (r : DialogueRunner) : Prop :=
  (isWaitingForOption (state r) = true ->
     stopped r = false
     /\ live d r
     /\ isDialogueComplete (runtime r) = false)
  /\ (isWaitingForOption (state r) = false -> in_loop d r).

(** The invariants of the execution state, with the link between
    [stopped] and [isComplete] that carries them from call to call. *)
Definition consistent (d : Discipline) (r : DialogueRunner) : Prop :=
  (isWaitingForOption (state r) = true -> live d r)
  /\ (isComplete (state r) = true -> isRunning (state r) = false)
  /\ (stopped r = true -> isComplete (state r) = true).

End WithCollaborators.

Arguments DialogueRunner R P : clear implicits.
Arguments Outcome R P : clear implicits.
Arguments OptionsLeaveOpen R {RT}.

End Runner.

(* ------------------------------------------------------------------ *)
(** ** dialogue-tree-runtime.test.ts: the scripted runtime of the tests *)

Module ScriptedRuntime.

Record t : Type := mk {
  events : list RuntimeEvent;
  index : nat;
  complete : bool;
  variables : JsMap.t VariableValue
}.

Definition create (evs : list RuntimeEvent) : t := mk evs 0 false JsMap.empty.

Definition setNode (_ : string) (s : t) : t :=
  mk (events s) 0 false (variables s).

Definition continue (s : t) : option RuntimeEvent * t :=
  if (length (events s) <=? index s)%nat then (None, s)
  else
    match nth_error (events s) (index s) with
    | None => (None, s)
    | Some event =>
        (Some event,
         mk (events s) (S (index s))
            (match event with
             | DialogueCompleteEvent => true
             | _ => complete s
             end)
            (variables s))
    end.

Definition setSelectedOption (_ : Z) (s : t) : option Error * t :=
  (Some OptionsNotSupported, s).

Definition getVariable (name : string) (s : t) : option VariableValue :=
  JsMap.get name (variables s).

Definition setVariable (name : string) (value : VariableValue) (s : t) : t :=
  mk (events s) (index s) (complete s) (JsMap.set name value (variables s)).

Definition getVariableNames (s : t) : list string := JsMap.keys (variables s).

Definition isWaitingForOption (_ : t) : bool := false.

Definition isDialogueComplete (s : t) : bool := complete s.

Definition reset (s : t) : t := mk (events s) 0 false (JsMap.clear (variables s)).

End ScriptedRuntime.

#[export] Instance ScriptedRuntime_DialogueRuntime
  : DialogueRuntime ScriptedRuntime.t := {
  setNode := ScriptedRuntime.setNode;
  continue := ScriptedRuntime.continue;
  setSelectedOption := ScriptedRuntime.setSelectedOption;
  getVariable := ScriptedRuntime.getVariable;
  setVariable := ScriptedRuntime.setVariable;
  getVariableNames := ScriptedRuntime.getVariableNames;
  isWaitingForOption := ScriptedRuntime.isWaitingForOption;
  isDialogueComplete := ScriptedRuntime.isDialogueComplete;
  reset := ScriptedRuntime.reset
}.

(* ------------------------------------------------------------------ *)
(** ** Runs of the reference runtime *)

Module TreeRuns.

(** A call made on the runtime within one run, that is, any method that
    changes it other than [reset] and [loadProgram]. *)
Inductive RuntimeCall : Type :=
| CallSetNode (nodeName : string)
| CallContinue
| CallSetSelectedOption (optionId : Z)
| CallSetVariable (name : string) (value : VariableValue).

Definition after_call (c : RuntimeCall) (s : TreeRuntime.t) : TreeRuntime.t :=
  match c with
  | CallSetNode nodeName => TreeRuntime.setNode nodeName s
  | CallContinue => snd (TreeRuntime.continue s)
  | CallSetSelectedOption optionId => snd (TreeRuntime.setSelectedOption optionId s)
  | CallSetVariable name value => TreeRuntime.setVariable name value s
  end.

(** What the [continue()] calls among [calls] return, in order. *)
Fixpoint returned (calls : list RuntimeCall) (s : TreeRuntime.t)
  : list (option RuntimeEvent) :=
  match calls with
  | [] => []
  | c :: calls' =>
      match c with
      | CallContinue => [fst (TreeRuntime.continue s)]
      | _ => []
      end ++ returned calls' (after_call c s)
  end.

Definition after_calls (calls : list RuntimeCall) (s : TreeRuntime.t)
  : TreeRuntime.t :=
  fold_left (fun acc c => after_call c acc) calls s.

(** How many of the returned events are [dialogue_complete]. *)
Definition is_dialogue_complete (e : option RuntimeEvent) : bool :=
  match e with Some DialogueCompleteEvent => true | _ => false end.

Definition completions (calls : list RuntimeCall) (s : TreeRuntime.t) : nat :=
  length (filter is_dialogue_complete (returned calls s)).

(** [n] calls of [continue()] in a row. *)
Definition steps (n : nat) (s : TreeRuntime.t) : list (option RuntimeEvent) :=
  returned (repeat CallContinue n) s.

(** The node the runtime is at has been entered: the events that come
    next are those of its body. *)
Definition at_started_node (s : TreeRuntime.t) (node : DialogueNode) : Prop :=
  exists cur,
    TreeRuntime.currentNodeId s = Some cur
    /\ truthy cur = true
    /\ TreeRuntime.lookup_node cur (nodes (TreeRuntime.tree s)) = Some node
    /\ set_has (node_id node) (TreeRuntime.startedNodes s) = true.

(** At most three events are buffered, and at most two while the runtime
    waits for an option. *)
Definition bounded (s : TreeRuntime.t) : Prop :=
  length (TreeRuntime.pendingEvents s)
  + (if TreeRuntime.waitingForOption s then 1 else 0) <= 3.

(** The option set that is presented and waiting for an answer. *)
Definition pendingOptionSet (s : TreeRuntime.t) : option OptionsCache :=
  if TreeRuntime.waitingForOption s then TreeRuntime.optionCache s else None.

(** The graph of the linear scenario: A says "Welcome" and leads to B,
    B says "Farewell" and leads nowhere. *)
Definition linearChain : DialogueTree :=
  {| tree_id := "chain";
     startNodeId := "A";
     nodes := [("A", NpcNode "A" "Welcome" None None (Some "B"));
               ("B", NpcNode "B" "Farewell" None None None)] |}.

End TreeRuns.

(* ------------------------------------------------------------------ *)
(** ** Placeholders and their occurrences *)

Module Placeholders.

(** [pat] occurs in [s]. *)
Definition occurs (pat s : string) : Prop :=
  exists pre post, s = (pre ++ pat ++ post)%string.

(** [pat] occurs in [s] more than once. *)
Definition occurs_twice (pat s : string) : Prop :=
  exists pre rest, s = (pre ++ pat ++ rest)%string /\ occurs pat rest.

(** [text] is [pre], then [pat], then [post], and [pat] does not occur
    any earlier. *)
Definition first_split (pat text pre post : string) : Prop :=
  text = (pre ++ pat ++ post)%string
  /\ forall pre' post', text = (pre' ++ pat ++ post')%string ->
                        String.length pre <= String.length pre'.

(** A replacement pattern is at the head of [s]: a dollar sign followed by
    a dollar sign, an ampersand, a backquote or a single quote. *)
Definition begins_pattern (s : string) : Prop :=
  exists d rest,
    s = String "$" (String d rest)
    /\ (d = "$" \/ d = "&" \/ d = "`" \/ d = "'")%char.

(** The replacement patterns of JavaScript in a replacement text, for a
    search value that is a string: [$$] stands for a dollar sign, [$&] for
    the text that was matched, [$`] for the text before the match and
    [$'] for the text after it; every other character stands for itself.
    [expansion matched before after replacement inserted]: [inserted] is
    [replacement] with its patterns expanded, from left to right. *)
Inductive expansion (matched before after : string)
  : string -> string -> Prop :=
| expansion_end : expansion matched before after EmptyString EmptyString
| expansion_dollar (r r' : string) :
    expansion matched before after r r' ->
    expansion matched before after ("$$" ++ r) ("$" ++ r')
| expansion_matched (r r' : string) :
    expansion matched before after r r' ->
    expansion matched before after ("$&" ++ r) (matched ++ r')
| expansion_before (r r' : string) :
    expansion matched before after r r' ->
    expansion matched before after ("$`" ++ r) (before ++ r')
| expansion_after (r r' : string) :
    expansion matched before after r r' ->
    expansion matched before after ("$'" ++ r) (after ++ r')
| expansion_copy (c : ascii) (r r' : string) :
    ~ begins_pattern (String c r) ->
    expansion matched before after r r' ->
    expansion matched before after (String c r) (String c r').

(** [result] is [text] with the first occurrence of [pat], if there is
    one, replaced by [sub] in which the replacement patterns have been
    expanded; what precedes and what follows that occurrence is kept. *)
Definition replaces_first (pat sub text result : string) : Prop :=
  (~ occurs pat text /\ result = text)
  \/ (exists pre post inserted,
        first_split pat text pre post
        /\ expansion pat pre post sub inserted
        /\ result = (pre ++ inserted ++ post)%string).

Fixpoint has_dollar (s : string) : bool :=
  match s with
  | EmptyString => false
  | String c s' => Ascii.eqb c "$" || has_dollar s'
  end.

(** Neither brace occurs in [s]. *)
Fixpoint brace_free (s : string) : bool :=
  match s with
  | EmptyString => true
  | String c s' =>
      negb (Ascii.eqb c "{") && negb (Ascii.eqb c "}") && brace_free s'
  end.

(** A placeholder is its index between braces. *)
Definition token (digits : string) : string :=
  String "{" (digits ++ String "}" EmptyString).

(** The positional placeholder of an index: the index in decimal between
    braces. *)
Definition positional (idx : nat) : string :=
  token (NilEmpty.string_of_uint (Nat.to_uint idx)).

(** [result] is [text] after the substitutions of index [idx], [idx + 1],
    ... have been applied in that order, each to the text as the earlier
    ones left it. *)
Inductive substituted : nat -> list string -> string -> string -> Prop :=
| substituted_none (idx : nat) (text : string) :
    substituted idx [] text text
| substituted_next (idx : nat) (sub : string) (rest : list string)
                   (text text' result : string) :
    replaces_first (positional idx) sub text text' ->
    substituted (S idx) rest text' result ->
    substituted idx (sub :: rest) text result.

(** The substitution as the claim words it: the first occurrence of the
    placeholder is replaced by the substitution itself. *)
Definition replace_verbatim (pat sub text : string) : string :=
  match JsString.split_first pat text with
  | None => text
  | Some (pre, post) => (pre ++ sub ++ post)%string
  end.

Fixpoint applySubstitutions_verbatim_from (idx : nat) (substitutions : list string)
                                          (result : string) : string :=
  match substitutions with
  | [] => result
  | sub :: rest =>
      applySubstitutions_verbatim_from (S idx) rest
        (replace_verbatim (LineProviders.placeholder idx) sub result)
  end.

Definition applySubstitutions_verbatim (text : string)
                                       (substitutions : list string) : string :=
  applySubstitutions_verbatim_from 0 substitutions text.

End Placeholders.

(* ------------------------------------------------------------------ *)
(** ** Scenarios of the test suite *)

Module Scenarios.

(** [dialogue-tree-runtime.test.ts], 'player choices': a choice node with
    "Buy" and "Chat", each leading to an NPC node. *)
Definition buyChoice : PlayerChoice :=
  {| choice_id := "buy"; choice_text := "Buy";
     choice_nextNodeId := Some "npc_buy"; choice_lineId := None;
     choice_enabled := None |}.

Definition chatChoice : PlayerChoice :=
  {| choice_id := "chat"; choice_text := "Chat";
     choice_nextNodeId := Some "npc_chat"; choice_lineId := None;
     choice_enabled := None |}.

Definition shop : DialogueTree :=
  {| tree_id := "shop";
     startNodeId := "player";
     nodes := [("player", PlayerNode "player" [buyChoice; chatChoice]);
               ("npc_buy", NpcNode "npc_buy" "Here are the wares." None None None);
               ("npc_chat", NpcNode "npc_chat" "Gossip time." None None None)] |}.

(** [new DialogueRunner({ runtime })] on that tree, with the default
    collaborators. *)
Definition shopRunner
  : Runner.DialogueRunner TreeRuntime.t LineProviders.MapLineProvider :=
  Runner.create (TreeRuntime.create shop) (LineProviders.of_record [])
                Commands.createDefaultDispatcher JsMap.empty.

(** 'variable synchronization and commands': two [set] commands, then the
    end of the dialogue, on a store seeded with two flags. *)
Definition flagEvents : list RuntimeEvent :=
  [CommandEvent "set $stat_gold 150";
   CommandEvent "set $quest_dragon 'complete'";
   DialogueCompleteEvent].

Definition initialFlags : JsMap.t VariableValue :=
  JsMap.set "quest_dragon" (VString "started")
    (JsMap.set "stat_gold" (VNumber (NumDecimal false "100" "" 0)) JsMap.empty).

Definition flagRunner
  : Runner.DialogueRunner ScriptedRuntime.t LineProviders.MapLineProvider :=
  Runner.create (ScriptedRuntime.create flagEvents) (LineProviders.of_record [])
                Commands.createDefaultDispatcher initialFlags.

(** A provider in which the line [greet] is the empty string. *)
Definition silentRunner
  : Runner.DialogueRunner TreeRuntime.t LineProviders.MapLineProvider :=
  Runner.create (TreeRuntime.create shop)
                (LineProviders.of_record [("greet", EmptyString)])
                Commands.createDefaultDispatcher JsMap.empty.

(** A runner whose runtime has walked the linear chain to its end and
    has not been reset. *)
Definition finishedRunner
  : Runner.DialogueRunner TreeRuntime.t LineProviders.MapLineProvider :=
  Runner.create
    (TreeRuns.after_calls (repeat TreeRuns.CallContinue 9)
                          (TreeRuntime.create TreeRuns.linearChain))
    (LineProviders.of_record [])
    Commands.createDefaultDispatcher JsMap.empty.

End Scenarios.

(* ------------------------------------------------------------------ *)
(** ** The history of a run of the reference runtime *)

Module TreeHistory.

(** The node names of the [node_start] events among [events]. *)
Definition node_starts (events : list (option RuntimeEvent)) : list string :=
  flat_map (fun e => match e with
                     | Some (NodeStartEvent nodeName) => [nodeName]
                     | _ => []
                     end) events.

Definition is_command (e : RuntimeEvent) : bool :=
  match e with CommandEvent _ => true | _ => false end.

Definition is_node_start (e : RuntimeEvent) : bool :=
  match e with NodeStartEvent _ => true | _ => false end.

(** A [node_complete] event names a node of [started]. *)
Definition completes_started (started : list string) (e : RuntimeEvent) : Prop :=
  match e with
  | NodeCompleteEvent nodeName => In nodeName started
  | _ => True
  end.

(** What holds of the runtime between two calls of a run that began with
    the constructor, [reset] or [loadProgram]: the visited markers are
    distinct; the buffer holds no [node_start] and no [command], and its
    [node_complete] events are for visited nodes; so is the cached option
    set. *)
Definition coherent (s : TreeRuntime.t) : Prop :=
  NoDup (TreeRuntime.startedNodes s)
  /\ Forall (fun e => is_node_start e = false
                      /\ is_command e = false
                      /\ completes_started (TreeRuntime.startedNodes s) e)
            (TreeRuntime.pendingEvents s)
  /\ (forall cache, TreeRuntime.optionCache s = Some cache ->
                    In (cache_nodeId cache) (TreeRuntime.startedNodes s)).

(** The runtime at the beginning of a run: as the constructor, [reset]
    and [loadProgram] leave it. *)
Definition begins (s : TreeRuntime.t) : Prop :=
  TreeRuntime.startedNodes s = []
  /\ TreeRuntime.pendingEvents s = []
  /\ TreeRuntime.optionCache s = None.

(** The calls that neither select an option nor move the runtime. *)
Definition is_idle_call (c : TreeRuns.RuntimeCall) : bool :=
  match c with
  | TreeRuns.CallContinue | TreeRuns.CallSetVariable _ _ => true
  | _ => false
  end.

End TreeHistory.
(* ------------------------------------------------------------------ *)
(** ** Further graphs *)

Module Graphs.

(** A node that leads back to itself. *)
Definition circle : DialogueTree :=
  {| tree_id := "circle";
     startNodeId := "A";
     nodes := [("A", NpcNode "A" "Again" None None (Some "A"))] |}.

(** A choice node that offers nothing. *)
Definition deadEnd : DialogueTree :=
  {| tree_id := "dead-end";
     startNodeId := "ask";
     nodes := [("ask", PlayerNode "ask" [])] |}.

(** The property names that every object inherits from
    [Object.prototype]: [nodes[name]] finds them although the table does
    not list them. *)
Definition inherited_keys : list string :=
  ["constructor"; "__proto__"; "hasOwnProperty"; "isPrototypeOf";
   "propertyIsEnumerable"; "toLocaleString"; "toString"; "valueOf";
   "__defineGetter__"; "__defineSetter__"; "__lookupGetter__";
   "__lookupSetter__"].

(** [nodes[nodeName]] is [undefined]: the table does not list the name and
    the name is not an inherited one. *)
Definition absent (nodeName : string) (tr : DialogueTree) : Prop :=
  TreeRuntime.lookup_node nodeName (nodes tr) = None
  /\ ~ In nodeName inherited_keys.

End Graphs.

(* ------------------------------------------------------------------ *)
(** ** Command lines and registrations *)

Module CommandLines.

(** A character that [trim] keeps, that does not separate tokens and
    that opens no quotation. *)
Definition is_plain (c : ascii) : bool :=
  negb (JsString.is_whitespace c) && negb (Commands.is_quote c).

Fixpoint plain (s : string) : bool :=
  match s with
  | EmptyString => true
  | String c s' => is_plain c && plain s'
  end.

(** A word: one plain character or more. *)
Definition word (s : string) : bool := truthy s && plain s.

Fixpoint quote_free (s : string) : bool :=
  match s with
  | EmptyString => true
  | String c s' => negb (Commands.is_quote c) && quote_free s'
  end.

(** [w] between two quotation marks [q]. *)
Definition quoted (q : ascii) (w : string) : string :=
  String q (w ++ String q EmptyString).

(** The quotation mark that is open, if any, is a quotation mark. *)
Definition quote_state (quoteChar : option ascii) : Prop :=
  match quoteChar with
  | Some q => Commands.is_quote q = true
  | None => True
  end.

(** The calls that configure a dispatcher. *)
Inductive Registration : Type :=
| RegOn (command : string) (handler : Commands.CommandHandler)
| RegOff (command : string)
| RegSetDefault (handler : Commands.CommandHandler).

Definition register (c : Registration) (d : Commands.CommandDispatcher)
  : Commands.CommandDispatcher :=
  match c with
  | RegOn command handler => Commands.on command handler d
  | RegOff command => Commands.off command d
  | RegSetDefault handler => Commands.setDefault handler d
  end.

(** [new CommandDispatcher()] after the calls, first to last. *)
Definition registered (calls : list Registration)
  : Commands.CommandDispatcher :=
  fold_left (fun d c => register c d) calls Commands.create.

(** What [dispatch] does with a command that has no handler of its own. *)
Definition unregistered (command : string) (args : list string)
                        (d : Commands.CommandDispatcher)
  : bool * Commands.ContextProgram :=
  match Commands.defaultHandler d with
  | Some handler => (true, handler (command :: args))
  | None => (false, Commands.CtxReturn)
  end.

End CommandLines.

(* ------------------------------------------------------------------ *)
(** ** Runs of the runner *)

Module RunnerRuns.

(** The calls that go on with a run: all but [start] and [reset]. *)
Definition goes_on (op : Runner.Operation) : bool :=
  match op with
  | Runner.OpContinue | Runner.OpSelectOption _ | Runner.OpStop => true
  | Runner.OpStart _ | Runner.OpReset => false
  end.

(** The reference runtime has no [command] event in its buffer. *)
Definition command_free (s : TreeRuntime.t) : Prop :=
  Forall (fun e => TreeHistory.is_command e = false)
         (TreeRuntime.pendingEvents s).

(** What is emitted when the loop has been left: [dialogueComplete] if
    the runtime has completed, nothing otherwise. *)
Definition closing (complete : bool) : list Runner.RunnerEvent :=
  if complete then [Runner.RunnerDialogueCompleteEvent] else [].

(** A script in which a [stop] command precedes a line. *)
Definition stopScript : list RuntimeEvent :=
  [CommandEvent "Stop now"; LineEvent "after" []; DialogueCompleteEvent].

Definition stopRunner
  : Runner.DialogueRunner ScriptedRuntime.t LineProviders.MapLineProvider :=
  Runner.create (ScriptedRuntime.create stopScript) (LineProviders.of_record [])
                Commands.createDefaultDispatcher JsMap.empty.

(** The shop of the test suite on a store seeded with two flags. *)
Definition flaggedShopRunner
  : Runner.DialogueRunner TreeRuntime.t LineProviders.MapLineProvider :=
  Runner.create (TreeRuntime.create Scenarios.shop) (LineProviders.of_record [])
                Commands.createDefaultDispatcher Scenarios.initialFlags.

End RunnerRuns.

(* ------------------------------------------------------------------ *)
(** ** line-provider.ts: loading lines *)

Module CsvLines.

(** [{ id: string; text: string }] *)
Record CsvEntry : Type := {
  csv_id : string;
  csv_text : string
}.

(** [loadFromCsv] *)
Definition loadFromCsv (entries : list CsvEntry)
                       (p : LineProviders.MapLineProvider)
  : LineProviders.MapLineProvider :=
  {| LineProviders.locale := LineProviders.locale p;
     LineProviders.fallbackLocale := LineProviders.fallbackLocale p;
     LineProviders.lines :=
       fold_left
         (fun m entry =>
            JsMap.set (csv_id entry)
                      {| entry_id := csv_id entry;
                         entry_text := csv_text entry;
                         entry_metadata := None |} m)
         entries (LineProviders.lines p) |}.

(** The text of the last of [entries] that has the id [lineId]. *)
Definition last_text (lineId : string) (entries : list CsvEntry)
  : option string :=
  fold_left (fun found entry =>
               if String.eqb lineId (csv_id entry)
               then Some (csv_text entry) else found)
            entries None.

(** The line that [getLine] makes of a text. *)
Definition localized (lineId text : string) (substitutions : list string)
                     (metadata : option Metadata) : LocalizedLine :=
  {| ll_text := LineProviders.applySubstitutions text substitutions;
     ll_lineId := lineId;
     ll_substitutions := substitutions;
     ll_metadata := metadata |}.

End CsvLines.

(* ------------------------------------------------------------------ *)
(** ** variable-storage.ts *)

Module InMemoryVariableStorage.

(** The private field [variables]. *)
Definition t : Type := JsMap.t VariableValue.

(** [new InMemoryVariableStorage(initial)]; [initial], when given, is the
    list that [Object.entries] makes of it. *)
Definition create (initial : option (list (string * VariableValue))) : t :=
  match initial with
  | Some entries =>
      fold_left (fun m '(key, value) => JsMap.set key value m)
                entries JsMap.empty
  | None => JsMap.empty
  end.

Definition get (name : string) (s : t) : option VariableValue :=
  JsMap.get name s.

Definition set (name : string) (value : VariableValue) (s : t) : t :=
  JsMap.set name value s.

Definition has (name : string) (s : t) : bool := JsMap.has name s.

(** [delete] returns whether the name was there. *)
Definition delete (name : string) (s : t) : bool * t :=
  (JsMap.has name s, JsMap.delete name s).

Definition clear (s : t) : t := JsMap.clear s.

(** [getAll] returns a copy. *)
Definition getAll (s : t) : JsMap.t VariableValue := s.

Definition getAllNames (s : t) : list string := JsMap.keys s.

(** The calls that change a store. *)
Inductive Update : Type :=
| CallSet (name : string) (value : VariableValue)
| CallDelete (name : string)
| CallClear.

Definition update (c : Update) (s : t) : t :=
  match c with
  | CallSet name value => set name value s
  | CallDelete name => snd (delete name s)
  | CallClear => clear s
  end.

(** A new store after the calls, first to last. *)
Definition after (initial : option (list (string * VariableValue)))
                 (calls : list Update) : t :=
  fold_left (fun s c => update c s) calls (create initial).

End InMemoryVariableStorage.

(* ------------------------------------------------------------------ *)
(** ** Runs of the runner on the reference runtime *)

Module Replays.

(** [new DialogueRunner] on a new runtime for the same tree, with the
    collaborators of [r]. *)
Definition renewed {P : Type} {LP : LineProvider P}
                   (r : Runner.DialogueRunner TreeRuntime.t P)
  : Runner.DialogueRunner TreeRuntime.t P :=
  Runner.create (TreeRuntime.create (TreeRuntime.tree (Runner.runtime r)))
                (Runner.lineProvider r) (Runner.commandDispatcher r)
                (Runner.variableStorage r).

(** The runner [b] with the runtime's variables set to [v] and with the
    events [pre] emitted before its own. *)
Definition shift {P : Type} {LP : LineProvider P}
                 (v : JsMap.t VariableValue) (pre : list Runner.RunnerEvent)
                 (b : Runner.DialogueRunner TreeRuntime.t P)
  : Runner.DialogueRunner TreeRuntime.t P :=
  Runner.mk (TreeRuntime.set_variables v (Runner.runtime b))
            (Runner.lineProvider b) (Runner.commandDispatcher b)
            (Runner.variableStorage b) (pre ++ Runner.emitted b)
            (Runner.state b) (Runner.stopped b).

(** The shop of the test suite, started: the runner waits at the choice
    between "Buy" and "Chat". *)
Definition shopAtChoice
  : Runner.DialogueRunner TreeRuntime.t LineProviders.MapLineProvider :=
  match Runner.start 7 "player" Scenarios.shopRunner with
  | Runner.Returns r => r
  | _ => Scenarios.shopRunner
  end.

End Replays.

(* ------------------------------------------------------------------ *)
(** ** runner.ts: the event handlers *)

Module Subscriptions.

(** [type RunnerEventType] *)
Inductive RunnerEventType : Type :=
| LineType
| OptionsType
| CommandType
| NodeStartType
| NodeCompleteType
| DialogueCompleteType
| ErrorType.

Definition type_eqb (a b : RunnerEventType) : bool :=
  match a, b with
  | LineType, LineType
  | OptionsType, OptionsType
  | CommandType, CommandType
  | NodeStartType, NodeStartType
  | NodeCompleteType, NodeCompleteType
  | DialogueCompleteType, DialogueCompleteType
  | ErrorType, ErrorType => true
  | _, _ => false
  end.

(** [event.type] *)
Definition type_of (e : Runner.RunnerEvent) : RunnerEventType :=
  match e with
  | Runner.RunnerLineEvent _ _ _ _ => LineType
  | Runner.RunnerOptionsEvent _ => OptionsType
  | Runner.RunnerCommandEvent _ _ => CommandType
  | Runner.RunnerNodeStartEvent _ => NodeStartType
  | Runner.RunnerNodeCompleteEvent _ => NodeCompleteType
  | Runner.RunnerDialogueCompleteEvent => DialogueCompleteType
  | Runner.RunnerErrorEvent _ => ErrorType
  end.

(** A handler is a function object: it is known by its identity. *)
Definition Handler : Type := nat.

(** [Set<RunnerEventHandler>], in insertion order. *)
Definition add (h : Handler) (hs : list Handler) : list Handler :=
  if existsb (Nat.eqb h) hs then hs else hs ++ [h].

Definition remove (h : Handler) (hs : list Handler) : list Handler :=
  filter (fun h' => negb (Nat.eqb h h')) hs.

(** The private field [eventHandlers]:
    [Map<RunnerEventType, Set<RunnerEventHandler>>]. *)
Definition t : Type := RunnerEventType -> option (list Handler).

Definition empty : t := fun _ => None.

Definition set (ty : RunnerEventType) (hs : list Handler) (s : t) : t :=
  fun ty' => if type_eqb ty' ty then Some hs else s ty'.

(** The function that [on] returns:
    [this.eventHandlers.get(eventType)?.delete(handler)]. *)
Definition unsubscribe (ty : RunnerEventType) (h : Handler) (s : t) : t :=
  match s ty with
  | Some hs => set ty (remove h hs) s
  | None => s
  end.

(** [on]: the registry after the call; the function returned is
    [unsubscribe eventType handler]. *)
Definition on (ty : RunnerEventType) (h : Handler) (s : t) : t :=
  let s1 := match s ty with
            | Some _ => s
            | None => set ty [] s
            end in
  match s1 ty with
  | Some hs => set ty (add h hs) s1
  | None => s1
  end.

Definition all_types : list RunnerEventType :=
  [LineType; OptionsType; CommandType; NodeStartType; NodeCompleteType;
   DialogueCompleteType; ErrorType].

(** [onAny]: seven calls of [on]; the function returned calls the seven
    functions that they returned. *)
Definition onAny (h : Handler) (s : t) : t :=
  fold_left (fun s ty => on ty h s) all_types s.

Definition unsubscribeAny (h : Handler) (s : t) : t :=
  fold_left (fun s ty => unsubscribe ty h s) all_types s.

(** [emit]: the handlers that are called with the event, in the order of
    the calls.  The handlers are taken not to subscribe or unsubscribe
    while they are being called. *)
Definition emit (e : Runner.RunnerEvent) (s : t) : list Handler :=
  match s (type_of e) with
  | Some hs => hs
  | None => []
  end.

(** The calls on the registry. *)
Inductive Call : Type :=
| CallOn (ty : RunnerEventType) (h : Handler)
| CallOnAny (h : Handler)
| CallUnsubscribe (ty : RunnerEventType) (h : Handler)
| CallUnsubscribeAny (h : Handler).

Definition call (c : Call) (s : t) : t :=
  match c with
  | CallOn ty h => on ty h s
  | CallOnAny h => onAny h s
  | CallUnsubscribe ty h => unsubscribe ty h s
  | CallUnsubscribeAny h => unsubscribeAny h s
  end.

(** The registry of a new runner after the calls, first to last. *)
Definition after (calls : list Call) : t :=
  fold_left (fun s c => call c s) calls empty.

Definition is_error (e : Runner.RunnerEvent) : bool :=
  match e with Runner.RunnerErrorEvent _ => true | _ => false end.

End Subscriptions.

(* ------------------------------------------------------------------ *)
(** ** The [set] command as the specification words it *)

Module SetCommand.

(** White space: tab, line feed, vertical tab, form feed, carriage return
    and space. *)
Definition white_char (c : ascii) : Prop :=
  In (nat_of_ascii c) [9; 10; 11; 12; 13; 32].

Fixpoint white (s : string) : Prop :=
  match s with
  | EmptyString => True
  | String c s' => white_char c /\ white s'
  end.

(** [s] is a run of decimal digits, possibly empty. *)
Definition digits (s : string) : Prop :=
  exists u, NilEmpty.uint_of_string s = Some u.

(** [s] is a decimal numeral of [k]; leading zeros are allowed. *)
Definition numeral (s : string) (k : nat) : Prop :=
  exists u, NilEmpty.uint_of_string s = Some u /\ k = Nat.of_uint u.

(** The exponent part of a numeric literal, which may be missing: [e] or
    [E], an optional sign and at least one digit. *)
Definition exponent_part (text : string) (e : Z) : Prop :=
  (text = EmptyString /\ e = 0%Z)
  \/ exists mark sgn ed k,
       text = (mark ++ sgn ++ ed)%string
       /\ (mark = "e" \/ mark = "E")%string
       /\ ed <> EmptyString
       /\ numeral ed k
       /\ (((sgn = "" \/ sgn = "+")%string /\ e = Z.of_nat k)
           \/ (sgn = "-"%string /\ e = (- Z.of_nat k)%Z)).

(** A numeric literal without its sign, and the number it denotes:
    [Infinity], or digits with an optional fraction and an optional
    exponent, where the digits before or after the point may be missing
    but not both. *)
Definition unsigned_literal (lit : string) (negative : bool) (n : JsNumber)
  : Prop :=
  (lit = "Infinity"%string /\ n = NumInfinity negative)
  \/ exists int point frac exp e,
       lit = (int ++ point ++ exp)%string
       /\ digits int /\ digits frac
       /\ ((point = EmptyString /\ frac = EmptyString)
           \/ point = ("." ++ frac)%string)
       /\ (int <> EmptyString \/ frac <> EmptyString)
       /\ exponent_part exp e
       /\ n = NumDecimal negative int frac e.

Definition sign (sgn : string) (negative : bool) : Prop :=
  ((sgn = "" \/ sgn = "+")%string /\ negative = false)
  \/ (sgn = "-"%string /\ negative = true).

(** [value] begins, after white space, with a numeric literal that
    denotes [n], and [rest] is what follows the literal: the literal is the
    longest one there. *)
Definition reads_number (value : string) (n : JsNumber) (rest : string)
  : Prop :=
  exists ws sgn negative lit,
    value = (ws ++ sgn ++ lit ++ rest)%string
    /\ white ws
    /\ sign sgn negative
    /\ unsigned_literal lit negative n
    /\ forall lit' n' rest',
         (lit ++ rest = lit' ++ rest')%string ->
         unsigned_literal lit' negative n' ->
         String.length lit' <= String.length lit.

(** "Begins with a numeric literal": whatever follows the literal is
    ignored. *)
Definition begins_with_number (value : string) (n : JsNumber) : Prop :=
  exists rest, reads_number value n rest.

(** "Is numeric": nothing follows the literal. *)
Definition is_number (value : string) (n : JsNumber) : Prop :=
  reads_number value n EmptyString.

Definition quotation_mark (q : ascii) : Prop :=
  q = ascii_of_nat 34 \/ q = ascii_of_nat 39.

(** [value] begins and ends with the same quotation mark and [body] is
    what is between the two ends; a quotation mark alone is both ends. *)
Definition quoted (value body : string) : Prop :=
  exists q,
    quotation_mark q
    /\ (value = String q (body ++ String q EmptyString)
        \/ (value = String q EmptyString /\ body = EmptyString)).

(** The value that is stored for the text [value]: a boolean for [true]
    and [false], a number for what [numeric] takes for one, and otherwise a
    string, without its quotation marks if it has them. *)
Definition parses_to (numeric : string -> JsNumber -> Prop)
                     (value : string) (parsed : VariableValue) : Prop :=
  (value = "true"%string /\ parsed = VBoolean true)
  \/ (value = "false"%string /\ parsed = VBoolean false)
  \/ (exists n, numeric value n /\ parsed = VNumber n)
  \/ (value <> "true"%string /\ value <> "false"%string
      /\ (forall n, ~ numeric value n)
      /\ ((exists body, quoted value body /\ parsed = VString body)
          \/ ((forall body, ~ quoted value body) /\ parsed = VString value))).

(** The variable that is written: the name without a leading dollar
    sign. *)
Definition names (name varName : string) : Prop :=
  (exists rest, name = String "$" rest /\ varName = rest)
  \/ ((forall rest, name <> String "$" rest) /\ varName = name).

(** The [set] command as specified: the arguments are a name and at least
    one more word; the words after the name, joined by single spaces, are
    the value; the parsed value is written to the variable through the
    context, and the dialogue goes on. *)
Definition sets_as_specified (numeric : string -> JsNumber -> Prop)
                             (args : list string)
                             (program : Commands.ContextProgram) : Prop :=
  exists name word words varName parsed,
    args = name :: word :: words
    /\ names name varName
    /\ parses_to numeric (String.concat " " (word :: words)) parsed
    /\ program
       = Commands.CtxSetVariable varName parsed
           (Commands.CtxContinue Commands.CtxReturn).

End SetCommand.

(* ================================================================== *)
(** * Properties *)

(** ** The JavaScript map *)

Lemma JsMap_get_set_same {V} (k : string) (v : V) (m : JsMap.t V) :
  JsMap.get k (JsMap.set k v m) = Some v.
Proof.
  induction m as [|[k' v'] m IH]; simpl.
  - now rewrite String.eqb_refl.
  - destruct (String.eqb k k') eqn:E; simpl; rewrite E; auto.
Qed.

Lemma JsMap_get_set_other {V} (k k' : string) (v : V) (m : JsMap.t V) :
  k <> k' -> JsMap.get k' (JsMap.set k v m) = JsMap.get k' m.
Proof.
  intros Hne. induction m as [|[k0 v0] m IH]; simpl.
  - destruct (String.eqb k' k) eqn:E; auto.
    apply String.eqb_eq in E. congruence.
  - destruct (String.eqb k k0) eqn:E; simpl.
    + apply String.eqb_eq in E. subst k0.
      destruct (String.eqb k' k) eqn:E'; auto.
      apply String.eqb_eq in E'. congruence.
    + now rewrite IH.
Qed.

Lemma JsMap_keys_set_in {V} (k : string) (v : V) (m : JsMap.t V) :
  In k (JsMap.keys (JsMap.set k v m)).
Proof.
  induction m as [|[k' v'] m IH]; simpl.
  - now left.
  - destruct (String.eqb k k') eqn:E; simpl.
    + left. apply String.eqb_eq in E. congruence.
    + right. exact IH.
Qed.

(** ** The reference runtime: reset *)

(** What [reset] does clear. *)
Lemma reset_clears_position_and_buffers (s : TreeRuntime.t) :
  let s' := TreeRuntime.reset s in
  TreeRuntime.currentNodeId s' = Some (startNodeId (TreeRuntime.tree s))
  /\ TreeRuntime.waitingForOption s' = false
  /\ TreeRuntime.isComplete s' = false
  /\ TreeRuntime.pendingEvents s' = []
  /\ TreeRuntime.pendingNextNodeId s' = None
  /\ TreeRuntime.startedNodes s' = []
  /\ TreeRuntime.optionCache s' = None
  /\ TreeRuntime.tree s' = TreeRuntime.tree s.
Proof. cbv zeta. repeat split. Qed.

(** C2.  [reset()] returns the runtime to the tree's start node and clears
    the buffered events, the cached option set and the visited markers, and
    it leaves the variable working set alone: a variable written before
    [reset()] is still read after it, and is still listed by
    [getVariableNames()]. *)
Theorem reset_keeps_variables (s : TreeRuntime.t) (name : string) (v : VariableValue) :
  let s' := TreeRuntime.reset (TreeRuntime.setVariable name v s) in
  TreeRuntime.getVariable name s' = Some v
  /\ In name (TreeRuntime.getVariableNames s')
  /\ TreeRuntime.variables s' = TreeRuntime.variables (TreeRuntime.setVariable name v s)
  /\ TreeRuntime.currentNodeId s' = Some (startNodeId (TreeRuntime.tree s))
  /\ TreeRuntime.pendingEvents s' = []
  /\ TreeRuntime.optionCache s' = None
  /\ TreeRuntime.startedNodes s' = [].
Proof.
  cbv zeta. unfold TreeRuntime.getVariable, TreeRuntime.getVariableNames. simpl.
  repeat split.
  - apply JsMap_get_set_same.
  - apply JsMap_keys_set_in.
Qed.

(** ** The reference runtime: completion is final within a run *)

Lemma continue_when_complete (s : TreeRuntime.t) :
  TreeRuntime.isComplete s = true -> TreeRuntime.continue s = (None, s).
Proof. intros H. unfold TreeRuntime.continue. now rewrite H. Qed.

Lemma applyEvent_isComplete (e : RuntimeEvent) (s : TreeRuntime.t) :
  TreeRuntime.isComplete (TreeRuntime.applyEvent e s)
  = match e with
    | DialogueCompleteEvent => true
    | _ => TreeRuntime.isComplete s
    end.
Proof. destruct e; reflexivity. Qed.

(** The event [continue] returns is the only way it reports completion to
    its caller, and it sets the flag when it does. *)
Lemma continue_complete_sets_flag (s s' : TreeRuntime.t) :
  TreeRuntime.continue s = (Some DialogueCompleteEvent, s') ->
  TreeRuntime.isComplete s' = true.
Proof.
  unfold TreeRuntime.continue.
  destruct (TreeRuntime.isComplete s || TreeRuntime.waitingForOption s);
    [discriminate|].
  match goal with
  | |- context [TreeRuntime.pendingEvents ?x] =>
      destruct (TreeRuntime.pendingEvents x) as [|e rest] eqn:E
  end; [discriminate|].
  intros H. injection H as He Hs. subst e s'.
  now rewrite applyEvent_isComplete.
Qed.

(** No call of a run clears the completion flag. *)
Lemma after_call_keeps_complete (c : TreeRuns.RuntimeCall) (s : TreeRuntime.t) :
  TreeRuntime.isComplete s = true ->
  TreeRuntime.isComplete (TreeRuns.after_call c s) = true.
Proof.
  intros H. destruct c; simpl; auto.
  - now rewrite continue_when_complete.
  - unfold TreeRuntime.setSelectedOption.
    destruct (TreeRuntime.optionCache s) as [cache|]; auto.
    destruct (negb (TreeRuntime.waitingForOption s)); auto.
    destruct (array_get (cache_choices cache) optionId); auto.
Qed.

Lemma returned_when_complete (calls : list TreeRuns.RuntimeCall) (s : TreeRuntime.t) :
  TreeRuntime.isComplete s = true ->
  Forall (fun e => e = None) (TreeRuns.returned calls s).
Proof.
  revert s. induction calls as [|c calls IH]; intros s H; simpl.
  - constructor.
  - apply Forall_app. split.
    + destruct c; try constructor.
      * now rewrite continue_when_complete.
      * constructor.
    + apply IH. now apply after_call_keeps_complete.
Qed.

(** C3.  Once a [continue()] call has returned [dialogue_complete], every
    later [continue()] of the run returns null, whatever calls of
    [setNode], [setSelectedOption] and [setVariable] come in between; so the
    event is returned at most once between two calls of [reset] or
    [loadProgram]. *)
Theorem dialogue_complete_is_final
  (s s' : TreeRuntime.t) (calls : list TreeRuns.RuntimeCall) :
  TreeRuntime.continue s = (Some DialogueCompleteEvent, s') ->
  Forall (fun e => e = None) (TreeRuns.returned calls s').
Proof.
  intros H. apply returned_when_complete.
  now apply continue_complete_sets_flag with (s := s).
Qed.

Lemma dialogue_complete_is_final_witness :
  let s := TreeRuntime.create {| tree_id := "empty"; startNodeId := "gone"; nodes := [] |} in
  let s' := snd (TreeRuntime.continue s) in
  let calls := [TreeRuns.CallContinue; TreeRuns.CallSetNode "gone";
                TreeRuns.CallContinue; TreeRuns.CallSetSelectedOption 0;
                TreeRuns.CallContinue] in
  TreeRuntime.continue s = (Some DialogueCompleteEvent, s')
  /\ Forall (fun e => e = None) (TreeRuns.returned calls s').
Proof.
  cbv zeta. split.
  - reflexivity.
  - apply (dialogue_complete_is_final
             (TreeRuntime.create {| tree_id := "empty"; startNodeId := "gone"; nodes := [] |})).
    reflexivity.
Defined.

(** Hence a run returns the event at most once, from whatever state it
    starts. *)
Lemma dialogue_complete_at_most_once
  (calls : list TreeRuns.RuntimeCall) (s : TreeRuntime.t) :
  TreeRuns.completions calls s <= 1.
Proof.
  unfold TreeRuns.completions. revert s.
  induction calls as [|c calls IH]; intros s; simpl; [lia|].
  rewrite filter_app, length_app.
  destruct c; simpl; try apply IH.
  destruct (TreeRuntime.continue s) as [[e|] s'] eqn:E; simpl; try apply IH.
  destruct e; simpl; try apply IH.
  assert (Hnone : Forall (fun e => e = None) (TreeRuns.returned calls s')).
  { apply returned_when_complete.
    now apply continue_complete_sets_flag with (s := s). }
  assert (Hzero : forall l : list (option RuntimeEvent),
             Forall (fun e => e = None) l ->
             length (filter TreeRuns.is_dialogue_complete l) = 0).
  { induction 1 as [|x l Hx Hl IHl]; simpl; [reflexivity|].
    subst x. simpl. exact IHl. }
  rewrite (Hzero _ Hnone). lia.
Qed.

(** [reset] opens a new run: the event can be returned again after it. *)
Example dialogue_complete_again_after_reset :
  let s := TreeRuntime.create {| tree_id := "empty"; startNodeId := "gone"; nodes := [] |} in
  let s' := snd (TreeRuntime.continue s) in
  fst (TreeRuntime.continue s') = None
  /\ fst (TreeRuntime.continue (TreeRuntime.reset s')) = Some DialogueCompleteEvent.
Proof. split; reflexivity. Qed.

(** ** The reference runtime: the linear scenario *)

Lemma returned_app (a b : list TreeRuns.RuntimeCall) (s : TreeRuntime.t) :
  TreeRuns.returned (a ++ b) s
  = TreeRuns.returned a s ++ TreeRuns.returned b (TreeRuns.after_calls a s).
Proof.
  revert s. induction a as [|c a IH]; intros s; simpl.
  - reflexivity.
  - rewrite IH. now rewrite app_assoc.
Qed.

Lemma steps_when_complete (n : nat) (s : TreeRuntime.t) :
  TreeRuntime.isComplete s = true -> TreeRuns.steps n s = repeat None n.
Proof.
  intros H. unfold TreeRuns.steps.
  induction n as [|n IH]; simpl.
  - reflexivity.
  - rewrite continue_when_complete by assumption. simpl. now rewrite IH.
Qed.

(** C5.  On the two-node graph (A: "Welcome", next B; B: "Farewell", no
    next), stepping from A returns node_start(A), prepare_for_lines([A]),
    line(A), node_complete(A), node_start(B), prepare_for_lines([B]),
    line(B), node_complete(B), dialogue_complete, and null ever after. *)
Theorem linear_chain_events (n : nat) :
  TreeRuns.steps (9 + n) (TreeRuntime.create TreeRuns.linearChain)
  = map Some [NodeStartEvent "A"; PrepareForLinesEvent ["A"];
              LineEvent "A" []; NodeCompleteEvent "A";
              NodeStartEvent "B"; PrepareForLinesEvent ["B"];
              LineEvent "B" []; NodeCompleteEvent "B";
              DialogueCompleteEvent]
    ++ repeat None n.
Proof.
  unfold TreeRuns.steps. rewrite repeat_app, returned_app.
  f_equal.
  apply (steps_when_complete n). reflexivity.
Qed.

(** ** The reference runtime: selecting an option *)

Lemma array_get_None_iff {A} (l : list A) (i : Z) :
  array_get l i = None <-> ~ (0 <= i < Z.of_nat (length l))%Z.
Proof.
  unfold array_get. destruct (0 <=? i)%Z eqn:E.
  - apply Z.leb_le in E. rewrite nth_error_None. lia.
  - apply Z.leb_gt in E. split; [lia | reflexivity].
Qed.

(** C6.  [setSelectedOption(i)] raises exactly when no option set is
    pending or [i] is not the index of one of its choices; when it raises
    the runtime is left as it was; when it returns, the waiting flag is
    cleared, the destination of choice [i] is recorded as the next position
    and a node_complete event for the choice node is queued. *)
Theorem setSelectedOption_spec (s : TreeRuntime.t) (i : Z) :
  let raised := fst (TreeRuntime.setSelectedOption i s) in
  let s' := snd (TreeRuntime.setSelectedOption i s) in
  (raised <> None <->
     TreeRuns.pendingOptionSet s = None
     \/ exists cache, TreeRuns.pendingOptionSet s = Some cache
          /\ ~ (0 <= i < Z.of_nat (length (cache_choices cache)))%Z)
  /\ (raised <> None -> s' = s)
  /\ (raised = None ->
        exists cache choice,
          TreeRuns.pendingOptionSet s = Some cache
          /\ nth_error (cache_choices cache) (Z.to_nat i) = Some choice
          /\ TreeRuntime.waitingForOption s' = false
          /\ TreeRuntime.pendingNextNodeId s' = choice_nextNodeId choice
          /\ TreeRuntime.pendingEvents s'
             = TreeRuntime.pendingEvents s ++ [NodeCompleteEvent (cache_nodeId cache)]
          /\ TreeRuntime.optionCache s' = None
          /\ TreeRuntime.currentNodeId s' = TreeRuntime.currentNodeId s
          /\ TreeRuntime.isComplete s' = TreeRuntime.isComplete s).
Proof.
  cbv zeta. unfold TreeRuntime.setSelectedOption, TreeRuns.pendingOptionSet.
  destruct (TreeRuntime.optionCache s) as [cache|] eqn:Ecache.
  2:{ simpl. split; [|split].
      - split; [|discriminate].
        intros _. left. now destruct (TreeRuntime.waitingForOption s).
      - reflexivity.
      - discriminate. }
  destruct (TreeRuntime.waitingForOption s) eqn:Ew; simpl.
  2:{ split; [|split].
      - split; [|discriminate]. intros _. now left.
      - reflexivity.
      - discriminate. }
  destruct (array_get (cache_choices cache) i) as [choice|] eqn:Eget; simpl.
  - split; [|split].
    + split; [congruence|].
      intros [H | (c & Hc & Hi)]; [discriminate|].
      injection Hc as <-. apply array_get_None_iff in Hi. congruence.
    + congruence.
    + intros _. exists cache, choice. repeat split.
      unfold array_get in Eget. now destruct (0 <=? i)%Z.
  - split; [|split].
    + split; [|discriminate].
      intros _. right. exists cache. split; [reflexivity|].
      now apply array_get_None_iff.
    + reflexivity.
    + discriminate.
Qed.

(** After a selection made while the option set is the last thing the
    runtime produced, the next step leaves the choice node and moves to the
    destination of the selected choice. *)
Lemma continue_after_selection (s : TreeRuntime.t) (i : Z) :
  TreeRuntime.pendingEvents s = [] ->
  TreeRuntime.isComplete s = false ->
  fst (TreeRuntime.setSelectedOption i s) = None ->
  exists cache choice,
    TreeRuns.pendingOptionSet s = Some cache
    /\ nth_error (cache_choices cache) (Z.to_nat i) = Some choice
    /\ fst (TreeRuntime.continue (snd (TreeRuntime.setSelectedOption i s)))
       = Some (NodeCompleteEvent (cache_nodeId cache))
    /\ TreeRuntime.currentNodeId
         (snd (TreeRuntime.continue (snd (TreeRuntime.setSelectedOption i s))))
       = choice_nextNodeId choice.
Proof.
  intros Hp Hc. unfold TreeRuntime.setSelectedOption, TreeRuns.pendingOptionSet.
  destruct (TreeRuntime.optionCache s) as [cache|]; [|discriminate].
  destruct (TreeRuntime.waitingForOption s); [|discriminate].
  simpl negb. cbv iota.
  unfold array_get.
  destruct (0 <=? i)%Z; [|discriminate].
  destruct (nth_error (cache_choices cache) (Z.to_nat i)) as [choice|] eqn:En;
    [|discriminate].
  intros _. exists cache, choice.
  unfold TreeRuntime.continue. simpl. rewrite Hc. simpl. rewrite Hp. simpl.
  repeat split; try assumption; rewrite Hp; reflexivity.
Qed.

(* ------------------------------------------------------------------ *)
(** ** The orchestrator *)

Section RunnerProperties.

Context {R P : Type} {RT : DialogueRuntime R} {LP : LineProvider P}.

(** *** What each step of the loop leaves alone *)

Lemma setVariable_state (name : string) (v : VariableValue) (r : Runner.DialogueRunner R P) :
  Runner.state (Runner.setVariable name v r) = Runner.state r
  /\ Runner.stopped (Runner.setVariable name v r) = Runner.stopped r.
Proof. split; reflexivity. Qed.

Lemma run_context_flags (p : Commands.ContextProgram) (r : Runner.DialogueRunner R P) :
  Runner.same_flags r (Runner.run_context p r) \/ Runner.stopped_from r (Runner.run_context p r).
Proof.
  assert (G : forall r0 : Runner.DialogueRunner R P,
             Runner.same_flags r r0 \/ Runner.stopped_from r r0 ->
             Runner.same_flags r (Runner.run_context p r0)
             \/ Runner.stopped_from r (Runner.run_context p r0)).
  { induction p as [|name k IH|name value k IH|k IH|k IH|sec k IH];
      intros r0 H0; simpl.
    - exact H0.
    - apply IH. exact H0.
    - apply IH. exact H0.
    - apply IH. right. unfold Runner.stopped_from. simpl.
      repeat split.
      destruct H0 as [[_ Hf] | (_ & _ & _ & Hw)].
      + unfold Runner.flags in Hf. congruence.
      + exact Hw.
    - apply IH. exact H0.
    - apply IH. exact H0. }
  apply G. left. split; reflexivity.
Qed.

(** *** complete implies not running *)

Lemma handleRuntimeEvent_complete_not_running (e : RuntimeEvent) (r : Runner.DialogueRunner R P) :
  Runner.complete_not_running r ->
  Runner.complete_not_running (snd (Runner.handleRuntimeEvent e r)).
Proof.
  unfold Runner.complete_not_running. intros H.
  destruct e; simpl; try exact H.
  unfold Runner.handleCommand.
  destruct (Commands.dispatch text (Runner.commandDispatcher r)) as [handled p].
  simpl.
  destruct (run_context_flags p r) as [[_ Hf] | (_ & Hr & _ & _)].
  - unfold Runner.flags in Hf. injection Hf as Hr Hw Hc.
    rewrite Hr, Hc. exact H.
  - intros _. exact Hr.
Qed.

Lemma runLoop_complete_not_running (fuel : nat) (r r' : Runner.DialogueRunner R P) :
  Runner.complete_not_running r ->
  Runner.runLoop fuel r = Some r' ->
  Runner.complete_not_running r'.
Proof.
  revert r. induction fuel as [|fuel IH]; intros r H; simpl.
  - destruct (Runner.stopped r || isDialogueComplete (Runner.runtime r));
      [|discriminate].
    intros E. injection E as <-. exact H.
  - destruct (Runner.stopped r || isDialogueComplete (Runner.runtime r)).
    { intros E. injection E as <-. exact H. }
    destruct (continue (Runner.runtime r)) as [[e|] rt'].
    2:{ intros E. injection E as <-. exact H. }
    pose proof (handleRuntimeEvent_complete_not_running e
                  (Runner.set_lastEvent (Some e) (Runner.set_runtime rt' r)) H)
      as Hh.
    destruct (Runner.handleRuntimeEvent e
                (Runner.set_lastEvent (Some e) (Runner.set_runtime rt' r)))
      as [pause r3].
    simpl in Hh. destruct pause.
    + intros E. injection E as <-. exact Hh.
    + apply IH. exact Hh.
Qed.

Lemma finishIfComplete_complete_not_running (r : Runner.DialogueRunner R P) :
  Runner.complete_not_running r -> Runner.complete_not_running (Runner.finishIfComplete r).
Proof.
  unfold Runner.finishIfComplete, Runner.complete_not_running.
  destruct (isDialogueComplete (Runner.runtime r)); simpl; auto.
Qed.

Lemma runUntilPause_complete_not_running (fuel : nat) (r r' : Runner.DialogueRunner R P) :
  Runner.complete_not_running r ->
  Runner.runUntilPause fuel r = Some r' ->
  Runner.complete_not_running r'.
Proof.
  unfold Runner.runUntilPause. intros H.
  destruct (Runner.runLoop fuel r) as [r1|] eqn:E; [|discriminate].
  intros E'. injection E' as <-.
  apply finishIfComplete_complete_not_running.
  now apply runLoop_complete_not_running with (fuel := fuel) (r := r).
Qed.

Lemma perform_complete_not_running (fuel : nat) (op : Runner.Operation)
                                   (r : Runner.DialogueRunner R P) :
  Runner.complete_not_running r ->
  match Runner.perform fuel op r with
  | Runner.Returns r' => Runner.complete_not_running r'
  | Runner.Throws _ r' => Runner.complete_not_running r'
  | Runner.OutOfFuel => True
  end.
Proof.
  intros H. destruct op; simpl.
  - unfold Runner.start.
    match goal with
    | |- context [Runner.runUntilPause fuel ?x] =>
        destruct (Runner.runUntilPause fuel x) as [r'|] eqn:E; simpl; auto;
        apply (runUntilPause_complete_not_running fuel x); auto
    end.
    unfold Runner.complete_not_running. simpl. discriminate.
  - unfold Runner.continue.
    destruct (Runner.isWaitingForOption (Runner.state r)); [exact H|].
    destruct (Runner.isComplete (Runner.state r)); [exact H|].
    destruct (Runner.runUntilPause fuel r) as [r'|] eqn:E; simpl; auto.
    now apply (runUntilPause_complete_not_running fuel r).
  - unfold Runner.selectOption.
    destruct (negb (Runner.isWaitingForOption (Runner.state r))); [exact H|].
    destruct (setSelectedOption optionId (Runner.runtime r)) as [[e|] rt'].
    + exact H.
    + match goal with
      | |- context [Runner.runUntilPause fuel ?x] =>
          destruct (Runner.runUntilPause fuel x) as [r'|] eqn:E; simpl; auto;
          apply (runUntilPause_complete_not_running fuel x); auto
      end.
  - unfold Runner.complete_not_running. simpl. reflexivity.
  - unfold Runner.complete_not_running. simpl. discriminate.
Qed.

Lemma performAll_complete_not_running (fuel : nat) (ops : list Runner.Operation)
                                      (r r' : Runner.DialogueRunner R P) :
  Runner.complete_not_running r ->
  Runner.performAll fuel ops r = Some r' ->
  Runner.complete_not_running r'.
Proof.
  revert r. induction ops as [|op ops IH]; intros r H; simpl.
  - intros E. injection E as <-. exact H.
  - pose proof (perform_complete_not_running fuel op r H) as Hp.
    destruct (Runner.perform fuel op r) as [r1|e r1|]; try discriminate;
      apply IH; exact Hp.
Qed.

(** *** waiting implies not complete, and running, for disciplined callers *)

Lemma run_context_in_loop (d : Runner.Discipline) (p : Commands.ContextProgram)
                          (r : Runner.DialogueRunner R P) :
  Runner.in_loop d r -> Runner.in_loop d (Runner.run_context p r).
Proof.
  intros [Hw Hs]. unfold Runner.in_loop, Runner.live in *.
  destruct (run_context_flags p r) as [[Hst Hf] | (Hst & Hr & Hc & Hw')].
  - unfold Runner.flags in Hf. injection Hf as Hr' Hw' Hc'.
    rewrite Hst, Hr', Hw', Hc'. now split.
  - rewrite Hst, Hw', Hr, Hc. now split.
Qed.

Lemma runLoop_at_pause (d : Runner.Discipline) (fuel : nat)
                       (r r' : Runner.DialogueRunner R P) :
  Runner.OptionsLeaveOpen R ->
  Runner.in_loop d r ->
  Runner.runLoop fuel r = Some r' ->
  Runner.at_pause d r'.
Proof.
  intros Law. revert r.
  assert (Stay : forall r0 : Runner.DialogueRunner R P,
             Runner.in_loop d r0 -> Runner.at_pause d r0).
  { intros r0 H. split; [|auto]. destruct H as [Hw _]. congruence. }
  induction fuel as [|fuel IH]; intros r H; simpl.
  - destruct (Runner.stopped r || isDialogueComplete (Runner.runtime r));
      [|discriminate].
    intros E. injection E as <-. now apply Stay.
  - destruct (Runner.stopped r || isDialogueComplete (Runner.runtime r)) eqn:Ec.
    { intros E. injection E as <-. now apply Stay. }
    apply orb_false_iff in Ec. destruct Ec as [Hst Hrc].
    destruct (continue (Runner.runtime r)) as [[e|] rt'] eqn:Estep.
    2:{ intros E. injection E as <-. apply Stay. exact H. }
    destruct H as [Hw Hlive]. rewrite Hst in Hlive.
    assert (Hin : Runner.in_loop d
                    (Runner.set_lastEvent (Some e) (Runner.set_runtime rt' r))).
    { unfold Runner.in_loop. simpl. rewrite Hst. auto. }
    destruct e as [lineId subs|options|text|nodeName|nodeName| |lineIds]; simpl.
    + intros E. injection E as <-. apply Stay. exact Hin.
    + intros E. injection E as <-. split; simpl; [|discriminate].
      intros _. repeat split; try apply Hlive; auto.
      now apply (Law (Runner.runtime r) rt' options).
    + unfold Runner.handleCommand. simpl.
      destruct (Commands.dispatch text (Runner.commandDispatcher r))
        as [handled p].
      apply IH.
      pose proof (run_context_in_loop d p _ Hin) as Hp.
      exact Hp.
    + apply IH. exact Hin.
    + apply IH. exact Hin.
    + intros E. injection E as <-. apply Stay. exact Hin.
    + apply IH. exact Hin.
Qed.

Lemma finishIfComplete_consistent (d : Runner.Discipline)
                                  (r : Runner.DialogueRunner R P) :
  Runner.at_pause d r -> Runner.consistent d (Runner.finishIfComplete r).
Proof.
  intros [Hwait Hidle].
  unfold Runner.finishIfComplete, Runner.consistent, Runner.live in *.
  destruct (Runner.isWaitingForOption (Runner.state r)) eqn:Ew.
  - destruct (Hwait eq_refl) as (Hst & [Hrun Hcomp] & Hrc).
    rewrite Hrc. repeat split; auto; congruence.
  - destruct (Hidle eq_refl) as [_ Hs].
    destruct (isDialogueComplete (Runner.runtime r)); simpl.
    + repeat split; congruence.
    + destruct (Runner.stopped r); destruct Hs as [Hrun Hcomp];
        repeat split; congruence.
Qed.

Lemma runUntilPause_consistent (d : Runner.Discipline) (fuel : nat)
                               (r r' : Runner.DialogueRunner R P) :
  Runner.OptionsLeaveOpen R ->
  Runner.in_loop d r ->
  Runner.runUntilPause fuel r = Some r' ->
  Runner.consistent d r'.
Proof.
  intros Law H. unfold Runner.runUntilPause.
  destruct (Runner.runLoop fuel r) as [r1|] eqn:E; [|discriminate].
  intros E'. injection E' as <-.
  apply finishIfComplete_consistent.
  now apply runLoop_at_pause with (fuel := fuel) (r := r).
Qed.

Lemma perform_consistent (d : Runner.Discipline) (fuel : nat)
                         (op : Runner.Operation)
                         (r : Runner.DialogueRunner R P) :
  Runner.OptionsLeaveOpen R ->
  Runner.consistent d r ->
  Runner.allowed d op r ->
  match Runner.perform fuel op r with
  | Runner.Returns r' => Runner.consistent d r'
  | Runner.Throws _ r' => Runner.consistent d r'
  | Runner.OutOfFuel => True
  end.
Proof.
  intros Law Hcons Hallowed. destruct op; simpl in Hallowed |- *.
  - unfold Runner.start.
    match goal with
    | |- context [Runner.runUntilPause fuel ?x] =>
        destruct (Runner.runUntilPause fuel x) as [r'|] eqn:E; simpl; auto;
        apply (runUntilPause_consistent d fuel x); auto
    end.
    unfold Runner.in_loop, Runner.live. simpl. auto.
  - unfold Runner.continue.
    destruct (Runner.isWaitingForOption (Runner.state r)) eqn:Ew;
      [exact Hcons|].
    destruct (Runner.isComplete (Runner.state r)) eqn:Ecomp;
      [exact Hcons|].
    destruct (Runner.runUntilPause fuel r) as [r'|] eqn:E; simpl; auto.
    apply (runUntilPause_consistent d fuel r); auto.
    destruct Hcons as (Hw & Hc & Hs).
    unfold Runner.in_loop, Runner.live. rewrite Ew.
    destruct (Runner.stopped r); [specialize (Hs eq_refl); congruence|].
    auto.
  - unfold Runner.selectOption.
    destruct (Runner.isWaitingForOption (Runner.state r)) eqn:Ew; simpl;
      [|exact Hcons].
    pose proof Hcons as (Hw & Hc & Hs).
    destruct (Hw Ew) as [Hrun Hcomp].
    destruct (setSelectedOption optionId (Runner.runtime r)) as [[e|] rt'].
    + exact Hcons.
    + match goal with
      | |- context [Runner.runUntilPause fuel ?x] =>
          destruct (Runner.runUntilPause fuel x) as [r'|] eqn:E; simpl; auto;
          apply (runUntilPause_consistent d fuel x); auto
      end.
      unfold Runner.in_loop, Runner.live. simpl.
      destruct (Runner.stopped r); [specialize (Hs eq_refl); congruence|].
      auto.
  - destruct Hcons as (Hw & Hc & Hs).
    unfold Runner.consistent, Runner.live. simpl. rewrite Hallowed.
    repeat split; auto; discriminate.
  - unfold Runner.consistent, Runner.live. simpl. repeat split; discriminate.
Qed.

Lemma performAll_consistent (d : Runner.Discipline) (fuel : nat)
                            (ops : list Runner.Operation)
                            (r r' : Runner.DialogueRunner R P) :
  Runner.OptionsLeaveOpen R ->
  Runner.consistent d r ->
  Runner.disciplined d fuel ops r ->
  Runner.performAll fuel ops r = Some r' ->
  Runner.consistent d r'.
Proof.
  intros Law. revert r. induction ops as [|op ops IH]; intros r H D; simpl.
  - intros E. injection E as <-. exact H.
  - destruct D as [Ha D].
    pose proof (perform_consistent d fuel op r Law H Ha) as Hp.
    destruct (Runner.perform fuel op r) as [r1|e r1|]; try discriminate;
      apply IH; auto.
Qed.

Lemma create_consistent (d : Runner.Discipline) (rt : R) (lp : P)
                        (cd : Commands.CommandDispatcher)
                        (vs : JsMap.t VariableValue) :
  Runner.consistent d (Runner.create rt lp cd vs).
Proof. unfold Runner.consistent. simpl. repeat split; discriminate. Qed.

(** C1, as the code has it.  After any sequence of [start], [continue],
    [selectOption], [stop] and [reset] on a new runner, [isComplete] implies
    not [isRunning].  On a runtime that never completes in the step that
    returns an option set: when [stop] was called only while not waiting
    for a choice, [isWaitingForOption] implies not [isComplete], so the two
    are never both true; when moreover [continue] was called only while
    [isRunning], [isWaitingForOption] implies [isRunning]. *)
Theorem execution_state_invariants
  (fuel : nat) (ops : list Runner.Operation)
  (rt : R) (lp : P) (cd : Commands.CommandDispatcher)
  (vs : JsMap.t VariableValue) (r' : Runner.DialogueRunner R P) :
  Runner.performAll fuel ops (Runner.create rt lp cd vs) = Some r' ->
  (Runner.isComplete (Runner.state r') = true ->
   Runner.isRunning (Runner.state r') = false)
  /\ (Runner.OptionsLeaveOpen R ->
      Runner.disciplined Runner.StopWhenNotWaiting fuel ops
                         (Runner.create rt lp cd vs) ->
      (Runner.isWaitingForOption (Runner.state r') = true ->
       Runner.isComplete (Runner.state r') = false)
      /\ ~ (Runner.isWaitingForOption (Runner.state r') = true
            /\ Runner.isComplete (Runner.state r') = true))
  /\ (Runner.OptionsLeaveOpen R ->
      Runner.disciplined Runner.AndContinueWhenRunning fuel ops
                         (Runner.create rt lp cd vs) ->
      Runner.isWaitingForOption (Runner.state r') = true ->
      Runner.isRunning (Runner.state r') = true
      /\ Runner.isComplete (Runner.state r') = false).
Proof.
  intros Hrun. split; [|split].
  - apply (performAll_complete_not_running fuel ops
             (Runner.create rt lp cd vs) r'); auto.
    unfold Runner.complete_not_running. simpl. discriminate.
  - intros Law D.
    destruct (performAll_consistent _ fuel ops _ r' Law
                (create_consistent _ rt lp cd vs) D Hrun) as (Hw & _ & _).
    split.
    + intros W. now destruct (Hw W).
    + intros [W C]. destruct (Hw W) as [_ C']. congruence.
  - intros Law D W.
    destruct (performAll_consistent _ fuel ops _ r' Law
                (create_consistent _ rt lp cd vs) D Hrun) as (Hw & _ & _).
    destruct (Hw W) as [Hr Hc]. split; [now apply Hr | exact Hc].
Qed.

(** *** The loop on a runtime that has completed *)

Lemma runLoop_on_complete (fuel : nat) (r : Runner.DialogueRunner R P) :
  isDialogueComplete (Runner.runtime r) = true ->
  Runner.runLoop fuel r = Some r.
Proof.
  intros H. destruct fuel; simpl; rewrite H, orb_true_r; reflexivity.
Qed.

Lemma runUntilPause_on_complete (fuel : nat) (r : Runner.DialogueRunner R P) :
  isDialogueComplete (Runner.runtime r) = true ->
  Runner.runUntilPause fuel r
  = Some (Runner.emit Runner.RunnerDialogueCompleteEvent
            (Runner.set_state
               {| Runner.currentNode := Runner.currentNode (Runner.state r);
                  Runner.isRunning := false;
                  Runner.isWaitingForOption :=
                    Runner.isWaitingForOption (Runner.state r);
                  Runner.isComplete := true;
                  Runner.lastEvent := Runner.lastEvent (Runner.state r) |} r)).
Proof.
  intros H. unfold Runner.runUntilPause.
  rewrite (runLoop_on_complete fuel r H).
  unfold Runner.finishIfComplete. now rewrite H.
Qed.

(** *** Lines that resolve to nothing *)

(** C10.  The line event that the orchestrator emits for a line event of
    the runtime is added to what has been emitted, and it carries the text
    [[Missing: <lineId>]] when the line provider returns no line for the
    lineId, and also when it resolves the line to the empty string; the
    orchestrator pauses after it. *)
Theorem empty_text_reported_missing
  (r : Runner.DialogueRunner R P) (lineId : string) (substitutions : list string) :
  (getLine (Runner.lineProvider r) lineId substitutions = None
   \/ exists l, getLine (Runner.lineProvider r) lineId substitutions = Some l
                /\ ll_text l = EmptyString) ->
  exists r',
    Runner.handleRuntimeEvent (LineEvent lineId substitutions) r = (true, r')
    /\ Runner.emitted r'
       = Runner.emitted r
         ++ [Runner.RunnerLineEvent
               lineId ("[Missing: " ++ lineId ++ "]")%string substitutions
               (match getLine (Runner.lineProvider r) lineId substitutions with
                | Some l => ll_metadata l
                | None => None
                end)].
Proof.
  intros H. simpl. unfold Runner.handleLine.
  eexists. split; [reflexivity|].
  destruct H as [H | (l & H & Hl)]; rewrite H; simpl.
  - reflexivity.
  - now rewrite Hl.
Qed.

(** A text that is not empty is emitted as the provider resolved it. *)
Lemma resolved_text_emitted
  (r : Runner.DialogueRunner R P) (lineId : string) (substitutions : list string)
  (l : LocalizedLine) :
  getLine (Runner.lineProvider r) lineId substitutions = Some l ->
  ll_text l <> EmptyString ->
  exists r',
    Runner.handleRuntimeEvent (LineEvent lineId substitutions) r = (true, r')
    /\ Runner.emitted r'
       = Runner.emitted r
         ++ [Runner.RunnerLineEvent lineId (ll_text l) substitutions
                                    (ll_metadata l)].
Proof.
  intros H Hne. simpl. unfold Runner.handleLine. rewrite H. simpl.
  eexists. split; [reflexivity|]. simpl.
  destruct (ll_text l); [congruence | reflexivity].
Qed.

(** The same holds for the text of each option of an options event. *)
Lemma empty_option_text_reported_missing
  (r : Runner.DialogueRunner R P) (options : list OptionInfo) :
  exists r' texts,
    Runner.handleRuntimeEvent (OptionsEvent options) r = (true, r')
    /\ Runner.emitted r' = Runner.emitted r ++ [Runner.RunnerOptionsEvent texts]
    /\ length texts = length options
    /\ forall k opt,
         nth_error options k = Some opt ->
         (getLine (Runner.lineProvider r) (opt_lineId opt) [] = None
          \/ exists l, getLine (Runner.lineProvider r) (opt_lineId opt) []
                       = Some l
                       /\ ll_text l = EmptyString) ->
         exists ro,
           nth_error texts k = Some ro
           /\ Runner.ro_lineId ro = opt_lineId opt
           /\ Runner.ro_text ro
              = ("[Missing: " ++ opt_lineId opt ++ "]")%string.
Proof.
  simpl. unfold Runner.handleOptions. cbv zeta.
  eexists. eexists. split; [reflexivity|]. split; [reflexivity|].
  split; [apply length_map|].
  intros k opt Hk H. rewrite nth_error_map, Hk. simpl.
  eexists. split; [reflexivity|]. split; [reflexivity|].
  simpl. destruct H as [H | (l & H & Hl)]; rewrite H; simpl.
  - reflexivity.
  - now rewrite Hl.
Qed.

End RunnerProperties.

(* ------------------------------------------------------------------ *)
(** ** The orchestrator on the reference runtime *)

Lemma tree_continue_options (s s' : TreeRuntime.t) (options : list OptionInfo) :
  TreeRuntime.continue s = (Some (OptionsEvent options), s') ->
  TreeRuntime.isComplete s' = false.
Proof.
  unfold TreeRuntime.continue.
  destruct (TreeRuntime.isComplete s) eqn:Ec; [discriminate|]. simpl.
  destruct (TreeRuntime.waitingForOption s); [discriminate|].
  destruct (TreeRuntime.pendingEvents s) as [|e0 rest0] eqn:Ep.
  - (* the buffer was empty: what [populate] queues first is never an
       option set *)
    unfold TreeRuntime.populateEventsForCurrentNode. rewrite Ec.
    destruct (TreeRuntime.currentNodeId s) as [cur|];
      [|simpl; rewrite Ep; discriminate].
    destruct (negb (truthy cur)); [simpl; rewrite Ep; discriminate|].
    destruct (TreeRuntime.lookup_node cur (nodes (TreeRuntime.tree s)))
      as [node|]; [|simpl; rewrite Ep; discriminate].
    destruct (negb (set_has (node_id node) (TreeRuntime.startedNodes s)));
      [simpl; rewrite Ep; discriminate|].
    destruct node; simpl; rewrite Ep; discriminate.
  - cbv beta iota zeta. rewrite Ep.
    intros H. injection H as He Hs. subst e0 s'.
    rewrite applyEvent_isComplete. exact Ec.
Qed.

Lemma tree_runtime_options_leave_open : Runner.OptionsLeaveOpen TreeRuntime.t.
Proof. intros s s' options H. exact (tree_continue_options s s' options H). Qed.

Lemma shop_flags_after_continue :
  option_map Runner.flags
    (Runner.performAll 8 [Runner.OpContinue] Scenarios.shopRunner)
  = Some (false, true, false).
Proof. vm_compute. reflexivity. Qed.

Lemma shop_flags_after_start :
  option_map Runner.flags
    (Runner.performAll 8 [Runner.OpStart "player"] Scenarios.shopRunner)
  = Some (true, true, false).
Proof. vm_compute. reflexivity. Qed.

(** C1, as the claim states it, fails: [continue()] is not gated on
    [isRunning], so on a new runner whose tree starts with a choice node a
    first call of [continue()] reaches the choice and leaves the runner
    waiting for an option while [isRunning] is false. *)
Lemma waiting_without_running :
  exists r',
    Runner.performAll 8 [Runner.OpContinue] Scenarios.shopRunner = Some r'
    /\ Runner.isWaitingForOption (Runner.state r') = true
    /\ Runner.isRunning (Runner.state r') = false.
Proof.
  pose proof shop_flags_after_continue as H.
  destruct (Runner.performAll 8 [Runner.OpContinue] Scenarios.shopRunner)
    as [r'|]; [|discriminate].
  exists r'. split; [reflexivity|].
  unfold Runner.flags in H. simpl in H. injection H as Hr Hw _. auto.
Qed.

(** What [stop()] does to a runner that waits for a choice. *)
Example stop_while_waiting :
  option_map Runner.flags
    (Runner.performAll 8 [Runner.OpStart "player"; Runner.OpStop]
                       Scenarios.shopRunner)
  = Some (false, true, true).
Proof. vm_compute. reflexivity. Qed.

Lemma execution_state_invariants_witness :
  let ops := [Runner.OpStart "player"] in
  exists r',
    Runner.performAll 8 ops Scenarios.shopRunner = Some r'
    /\ Runner.OptionsLeaveOpen TreeRuntime.t
    /\ Runner.disciplined Runner.AndContinueWhenRunning 8 ops Scenarios.shopRunner
    /\ Runner.flags r' = (true, true, false)
    /\ (Runner.isComplete (Runner.state r') = true ->
        Runner.isRunning (Runner.state r') = false)
    /\ (Runner.isWaitingForOption (Runner.state r') = true ->
        Runner.isRunning (Runner.state r') = true
        /\ Runner.isComplete (Runner.state r') = false).
Proof.
  cbv zeta.
  assert (D : Runner.disciplined Runner.AndContinueWhenRunning 8
                [Runner.OpStart "player"] Scenarios.shopRunner).
  { split; [exact I|].
    destruct (Runner.perform 8 (Runner.OpStart "player") Scenarios.shopRunner);
      exact I. }
  pose proof shop_flags_after_start as F.
  destruct (Runner.performAll 8 [Runner.OpStart "player"] Scenarios.shopRunner)
    as [r'|] eqn:E; [|discriminate].
  assert (F' : Runner.flags r' = (true, true, false))
    by (simpl in F; congruence).
  exists r'.
  destruct (execution_state_invariants 8 [Runner.OpStart "player"]
              (TreeRuntime.create Scenarios.shop)
              (LineProviders.of_record [])
              Commands.createDefaultDispatcher JsMap.empty r' E)
    as (H1 & _ & H3).
  split; [reflexivity|].
  split; [exact tree_runtime_options_leave_open|].
  split; [exact D|].
  split; [exact F'|].
  split; [exact H1|].
  exact (H3 tree_runtime_options_leave_open D).
Defined.

(** The test of the repository: after [start('intro')] both the runner
    and the runtime hold the values the two [set] commands wrote. *)
Example flags_persist_from_commands :
  match Runner.start 8 "intro" Scenarios.flagRunner with
  | Runner.Returns r =>
      Runner.getVariable "stat_gold" r = Some (VNumber (NumDecimal false "150" "" 0))
      /\ Runner.getVariable "quest_dragon" r = Some (VString "complete")
      /\ ScriptedRuntime.getVariable "stat_gold" (Runner.runtime r)
         = Some (VNumber (NumDecimal false "150" "" 0))
      /\ ScriptedRuntime.getVariable "quest_dragon" (Runner.runtime r)
         = Some (VString "complete")
      /\ Runner.flags r = (false, false, true)
  | _ => False
  end.
Proof. vm_compute. repeat split. Qed.

Lemma empty_text_reported_missing_witness :
  (exists l, getLine (Runner.lineProvider Scenarios.silentRunner) "greet" [] = Some l
             /\ ll_text l = EmptyString)
  /\ exists r',
       Runner.handleRuntimeEvent (LineEvent "greet" []) Scenarios.silentRunner
       = (true, r')
       /\ Runner.emitted r'
          = [Runner.RunnerLineEvent "greet" "[Missing: greet]" [] None].
Proof.
  assert (H : exists l,
             getLine (Runner.lineProvider Scenarios.silentRunner) "greet" []
             = Some l
             /\ ll_text l = EmptyString).
  { eexists. split; reflexivity. }
  split; [exact H|].
  destruct (empty_text_reported_missing Scenarios.silentRunner "greet" []
              (or_intror H)) as (r' & E & He).
  exists r'. split; [exact E | exact He].
Defined.

(** *** Starting on a runtime that has completed *)

Section OnTheReferenceRuntime.

Context {P : Type} {LP : LineProvider P}.

Lemma setVariable_fold_keeps_complete
  (entries : list (string * VariableValue)) (s : TreeRuntime.t) :
  TreeRuntime.isComplete
    (fold_left (fun rt '(name, value) => setVariable name value rt) entries s)
  = TreeRuntime.isComplete s.
Proof.
  revert s. induction entries as [|[name value] entries IH]; intros s; simpl.
  - reflexivity.
  - now rewrite IH.
Qed.

(** C8.  When the runtime already reports completion, [start(nodeName)]
    does not step it: the runtime is left as [setNode] positioned it, no
    event is recorded as the last one, the state is complete and not
    running, and [dialogueComplete] is the one event emitted. *)
Theorem start_on_completed_runtime
  (fuel : nat) (nodeName : string) (r : Runner.DialogueRunner TreeRuntime.t P) :
  isDialogueComplete (Runner.runtime r) = true ->
  exists r',
    Runner.start fuel nodeName r = Runner.Returns r'
    /\ Runner.runtime r'
       = TreeRuntime.setNode nodeName
           (Runner.runtime (Runner.syncVariablesToRuntime r))
    /\ isDialogueComplete (Runner.runtime r') = true
    /\ Runner.state r'
       = {| Runner.currentNode := Some nodeName;
            Runner.isRunning := false;
            Runner.isWaitingForOption := false;
            Runner.isComplete := true;
            Runner.lastEvent := None |}
    /\ Runner.emitted r' = Runner.emitted r ++ [Runner.RunnerDialogueCompleteEvent].
Proof.
  intros Hc.
  assert (Hc' : isDialogueComplete
                  (TreeRuntime.setNode nodeName
                     (Runner.runtime (Runner.syncVariablesToRuntime r))) = true).
  { change (TreeRuntime.isComplete
              (fold_left (fun rt '(name, value) => setVariable name value rt)
                         (JsMap.entries (Runner.variableStorage r))
                         (Runner.runtime r)) = true).
    rewrite setVariable_fold_keeps_complete. exact Hc. }
  unfold Runner.start.
  match goal with
  | |- context [Runner.runUntilPause fuel ?x] =>
      rewrite (runUntilPause_on_complete fuel x Hc')
  end.
  eexists. split; [reflexivity|]. repeat split. exact Hc'.
Qed.

(** *** Writing a variable *)

(** C4.  After the orchestrator's [setVariable(name, v)], called directly
    or through the context of a command handler, the durable storage and
    the runtime's working set both return [v] for [name]; the storage is
    written first, the working set second, and the runtime is not stepped:
    nothing of it changes but its variables. *)
Theorem setVariable_writes_through
  (name : string) (v : VariableValue) (r : Runner.DialogueRunner TreeRuntime.t P) :
  let r' := Runner.setVariable name v r in
  JsMap.get name (Runner.variableStorage r') = Some v
  /\ getVariable name (Runner.runtime r') = Some v
  /\ Runner.getVariable name r' = Some v
  /\ (forall k : nat,
        let rk := Runner.run_steps (firstn k (Runner.setVariable_steps name v)) r in
        (1 <= k -> JsMap.get name (Runner.variableStorage rk) = Some v)
        /\ (k < 2 -> Runner.runtime rk = Runner.runtime r)
        /\ (2 <= k -> rk = r'))
  /\ (forall k : Commands.ContextProgram,
        Runner.run_context (Commands.CtxSetVariable name v k) r
        = Runner.run_context k r')
  /\ Runner.runtime r'
     = TreeRuntime.set_variables
         (JsMap.set name v (TreeRuntime.variables (Runner.runtime r)))
         (Runner.runtime r)
  /\ Runner.state r' = Runner.state r.
Proof.
  cbv zeta.
  assert (Hs : JsMap.get name
                 (Runner.variableStorage (Runner.setVariable name v r)) = Some v).
  { simpl. apply JsMap_get_set_same. }
  split; [exact Hs|].
  split; [simpl; unfold TreeRuntime.getVariable; simpl; apply JsMap_get_set_same|].
  split; [unfold Runner.getVariable; now rewrite Hs|].
  split.
  { intros k. destruct k as [|[|k]]; simpl.
    - repeat split; intros; lia.
    - repeat split; intros; try lia. apply JsMap_get_set_same.
    - rewrite firstn_nil. simpl.
      repeat split; intros; try lia. apply JsMap_get_set_same. }
  repeat split.
Qed.

End OnTheReferenceRuntime.

Lemma start_on_completed_runtime_witness :
  isDialogueComplete (Runner.runtime Scenarios.finishedRunner) = true
  /\ exists r',
       Runner.start 0 "A" Scenarios.finishedRunner = Runner.Returns r'
       /\ Runner.runtime r'
          = TreeRuntime.setNode "A"
              (Runner.runtime (Runner.syncVariablesToRuntime Scenarios.finishedRunner))
       /\ isDialogueComplete (Runner.runtime r') = true
       /\ Runner.state r'
          = {| Runner.currentNode := Some "A";
               Runner.isRunning := false;
               Runner.isWaitingForOption := false;
               Runner.isComplete := true;
               Runner.lastEvent := None |}
       /\ Runner.emitted r'
          = Runner.emitted Scenarios.finishedRunner
            ++ [Runner.RunnerDialogueCompleteEvent].
Proof.
  split; [reflexivity|].
  apply (start_on_completed_runtime 0 "A" Scenarios.finishedRunner).
  reflexivity.
Defined.

(** The [set] command of the default dispatcher reaches [setVariable]
    through the context: the scenario of the test suite, one command at a
    time. *)
Example set_command_writes_through :
  let r := snd (Runner.handleRuntimeEvent (CommandEvent "set $stat_gold 150")
                                          Scenarios.shopRunner) in
  JsMap.get "stat_gold" (Runner.variableStorage r)
  = Some (VNumber (NumDecimal false "150" "" 0))
  /\ TreeRuntime.getVariable "stat_gold" (Runner.runtime r)
     = Some (VNumber (NumDecimal false "150" "" 0))
  /\ Runner.emitted r = [Runner.RunnerCommandEvent "set $stat_gold 150" true].
Proof. vm_compute. repeat split. Qed.

(* ------------------------------------------------------------------ *)
(** ** Substitution of placeholders *)

Lemma string_app_assoc (a b c : string) :
  ((a ++ b) ++ c = a ++ (b ++ c))%string.
Proof. induction a as [|x a IH]; simpl; [reflexivity | now rewrite IH]. Qed.

Lemma string_app_length (a b : string) :
  String.length (a ++ b) = String.length a + String.length b.
Proof. induction a as [|x a IH]; simpl; [reflexivity | now rewrite IH]. Qed.

Lemma strip_prefix_Some (p s r : string) :
  JsString.strip_prefix p s = Some r <-> s = (p ++ r)%string.
Proof.
  revert s. induction p as [|a p IH]; intros s; simpl.
  - split; congruence.
  - destruct s as [|b s]; [split; discriminate|].
    destruct (Ascii.eqb a b) eqn:E.
    + apply Ascii.eqb_eq in E. subst b. rewrite IH. split; congruence.
    + apply Ascii.eqb_neq in E. split; [discriminate | congruence].
Qed.

Lemma split_first_Some (pat s pre post : string) :
  JsString.split_first pat s = Some (pre, post) ->
  Placeholders.first_split pat s pre post.
Proof.
  revert pre. induction s as [|c s IH]; intros pre; simpl.
  - destruct (JsString.strip_prefix pat EmptyString) as [r|] eqn:E;
      [|discriminate].
    intros H. injection H as <- <-. apply strip_prefix_Some in E.
    split; [exact E | intros; simpl; lia].
  - destruct (JsString.strip_prefix pat (String c s)) as [r|] eqn:E.
    + intros H. injection H as <- <-. apply strip_prefix_Some in E.
      split; [exact E | intros; simpl; lia].
    + destruct (JsString.split_first pat s) as [[pre0 post0]|] eqn:E0;
        [|discriminate].
      intros H. injection H as <- <-.
      destruct (IH pre0 eq_refl) as [Hs Hmin]. split.
      * simpl. now rewrite <- Hs.
      * intros pre' post' H'. destruct pre' as [|c' pre'].
        -- simpl in H'. apply strip_prefix_Some in H'. congruence.
        -- simpl in H'. injection H' as _ H'. simpl.
           apply le_n_S. now apply (Hmin pre' post').
Qed.

Lemma split_first_None (pat s : string) :
  JsString.split_first pat s = None -> ~ Placeholders.occurs pat s.
Proof.
  induction s as [|c s IH]; simpl.
  - destruct (JsString.strip_prefix pat EmptyString) as [r|] eqn:E;
      [discriminate|].
    intros _ (pre & post & H). destruct pre as [|c' pre]; [|discriminate].
    simpl in H. apply strip_prefix_Some in H. congruence.
  - destruct (JsString.strip_prefix pat (String c s)) as [r|] eqn:E;
      [discriminate|].
    destruct (JsString.split_first pat s) as [[pre0 post0]|] eqn:E0;
      [discriminate|].
    intros _ (pre & post & H). destruct pre as [|c' pre].
    + simpl in H. apply strip_prefix_Some in H. congruence.
    + simpl in H. injection H as _ H. apply IH; [reflexivity|].
      now exists pre, post.
Qed.

(** What one call of [replace] does. *)
Lemma not_begins_pattern_short (c : ascii) :
  ~ Placeholders.begins_pattern (String c EmptyString).
Proof. intros (d & rest & E & _). discriminate. Qed.

Lemma not_begins_pattern_head (c : ascii) (r : string) :
  c <> "$"%char -> ~ Placeholders.begins_pattern (String c r).
Proof. intros H (d & rest & E & _). injection E as -> _. now apply H. Qed.

Lemma not_begins_pattern_next (d : ascii) (r : string) :
  d <> "$"%char -> d <> "&"%char -> d <> "`"%char -> d <> "'"%char ->
  ~ Placeholders.begins_pattern (String "$" (String d r)).
Proof.
  intros H1 H2 H3 H4 (d' & rest & E & H). injection E as -> _.
  destruct H as [H | [H | [H | H]]]; contradiction.
Qed.

Lemma getSubstitution_step (matched pre post : string) (c d : ascii)
                           (rest : string) :
  JsString.getSubstitution matched pre post (String c (String d rest))
  = if Ascii.eqb c "$" then
      if Ascii.eqb d "$" then
        String "$" (JsString.getSubstitution matched pre post rest)
      else if Ascii.eqb d "&" then
        (matched ++ JsString.getSubstitution matched pre post rest)%string
      else if Ascii.eqb d "`" then
        (pre ++ JsString.getSubstitution matched pre post rest)%string
      else if Ascii.eqb d "'" then
        (post ++ JsString.getSubstitution matched pre post rest)%string
      else String c (JsString.getSubstitution matched pre post (String d rest))
    else String c (JsString.getSubstitution matched pre post (String d rest)).
Proof. reflexivity. Qed.

(** [GetSubstitution] expands the replacement patterns. *)
Lemma getSubstitution_expansion (matched pre post replacement : string) :
  Placeholders.expansion matched pre post replacement
    (JsString.getSubstitution matched pre post replacement).
Proof.
  remember (String.length replacement) as n eqn:Hn.
  assert (Hle : String.length replacement <= n) by lia. clear Hn.
  revert replacement Hle.
  induction n as [|n IH]; intros replacement Hle.
  - destruct replacement; [constructor | simpl in Hle; lia].
  - destruct replacement as [|c rest]; [constructor|].
    destruct rest as [|d rest'].
    + simpl. apply Placeholders.expansion_copy;
        [apply not_begins_pattern_short | constructor].
    + simpl in Hle.
      assert (Hrest : Placeholders.expansion matched pre post (String d rest')
                (JsString.getSubstitution matched pre post (String d rest'))).
      { apply IH. simpl. lia. }
      assert (Hrest' : Placeholders.expansion matched pre post rest'
                (JsString.getSubstitution matched pre post rest')).
      { apply IH. lia. }
      rewrite getSubstitution_step.
      destruct (Ascii.eqb c "$") eqn:Ec.
      * apply Ascii.eqb_eq in Ec. subst c.
        destruct (Ascii.eqb d "$") eqn:E1.
        { apply Ascii.eqb_eq in E1. subst d.
          now apply (Placeholders.expansion_dollar matched pre post rest'). }
        destruct (Ascii.eqb d "&") eqn:E2.
        { apply Ascii.eqb_eq in E2. subst d.
          now apply (Placeholders.expansion_matched matched pre post rest'). }
        destruct (Ascii.eqb d "`") eqn:E3.
        { apply Ascii.eqb_eq in E3. subst d.
          now apply (Placeholders.expansion_before matched pre post rest'). }
        destruct (Ascii.eqb d "'") eqn:E4.
        { apply Ascii.eqb_eq in E4. subst d.
          now apply (Placeholders.expansion_after matched pre post rest'). }
        apply Ascii.eqb_neq in E1, E2, E3, E4.
        apply Placeholders.expansion_copy; [|exact Hrest].
        now apply not_begins_pattern_next.
      * apply Ascii.eqb_neq in Ec.
        apply Placeholders.expansion_copy; [|exact Hrest].
        now apply not_begins_pattern_head.
Qed.

(** The expansion of a replacement text is determined. *)
Lemma expansion_unique (matched pre post replacement x y : string) :
  Placeholders.expansion matched pre post replacement x ->
  Placeholders.expansion matched pre post replacement y ->
  x = y.
Proof.
  intros Hx. revert y.
  induction Hx as [|r r' Hr IH|r r' Hr IH|r r' Hr IH|r r' Hr IH|c r r' Hn Hr IH];
    intros y Hy; inversion Hy; subst;
    try reflexivity;
    try (f_equal; now apply IH);
    try match goal with
        | H : ~ Placeholders.begins_pattern _ |- _ =>
            exfalso; apply H; eexists; eexists; split; [reflexivity|]; tauto
        end.
Qed.

Lemma replace_replaces_first (pat sub text : string) :
  Placeholders.replaces_first pat sub text (JsString.replace pat sub text).
Proof.
  unfold JsString.replace, Placeholders.replaces_first.
  destruct (JsString.split_first pat text) as [[pre post]|] eqn:E.
  - right. exists pre, post, (JsString.getSubstitution pat pre post sub).
    split; [now apply split_first_Some|].
    split; [apply getSubstitution_expansion | reflexivity].
  - left. split; [|reflexivity]. now apply split_first_None.
Qed.

(** A substitution without [$] is inserted as it is. *)
Lemma getSubstitution_plain (matched pre post sub : string) :
  Placeholders.has_dollar sub = false ->
  JsString.getSubstitution matched pre post sub = sub.
Proof.
  induction sub as [|c sub IH]; simpl; [reflexivity|].
  intros H. apply orb_false_iff in H. destruct H as [Hc Hs].
  rewrite Hc. destruct sub as [|d sub]; [reflexivity|].
  now rewrite (IH Hs).
Qed.

(** *** Placeholders do not overlap *)

Lemma token_app (d post : string) :
  (Placeholders.token d ++ post)%string = String "{" (d ++ String "}" post).
Proof. unfold Placeholders.token. simpl. now rewrite string_app_assoc. Qed.

Lemma brace_free_cons (x : ascii) (u : string) :
  Placeholders.brace_free (String x u) = true ->
  x <> "{"%char /\ x <> "}"%char /\ Placeholders.brace_free u = true.
Proof.
  simpl. intros H. apply andb_true_iff in H. destruct H as [H Hu].
  apply andb_true_iff in H. destruct H as [H1 H2].
  apply negb_true_iff in H1, H2. apply Ascii.eqb_neq in H1, H2. auto.
Qed.

(** An opening brace that follows a brace-free text lies after it. *)
Lemma no_open_split (u v a w : string) :
  Placeholders.brace_free u = true ->
  (u ++ v)%string = (a ++ String "{" w)%string ->
  exists m, a = (u ++ m)%string /\ v = (m ++ String "{" w)%string.
Proof.
  revert a. induction u as [|x u IH]; intros a Hu H.
  - exists a. split; [reflexivity | exact H].
  - apply brace_free_cons in Hu. destruct Hu as (Hx & _ & Hu).
    destruct a as [|y a]; simpl in H.
    + injection H as Hxy _. congruence.
    + injection H as <- H. destruct (IH a Hu H) as (m & -> & ->).
      now exists m.
Qed.

(** Two placeholders that start at the same place are the same. *)
Lemma token_same_start (d1 d2 post c : string) :
  Placeholders.brace_free d1 = true ->
  Placeholders.brace_free d2 = true ->
  (d1 ++ String "}" post)%string = (d2 ++ String "}" c)%string ->
  d1 = d2 /\ post = c.
Proof.
  revert d2. induction d1 as [|x d1 IH]; intros d2 H1 H2 H.
  - destruct d2 as [|y d2]; simpl in H.
    + injection H as H. auto.
    + apply brace_free_cons in H2. destruct H2 as (_ & Hy & _).
      injection H as Hxy _. congruence.
  - apply brace_free_cons in H1. destruct H1 as (_ & Hx & H1).
    destruct d2 as [|y d2]; simpl in H.
    + injection H as Hxy _. congruence.
    + apply brace_free_cons in H2. destruct H2 as (_ & _ & H2).
      injection H as <- H. destruct (IH d2 H1 H2 H) as [-> ->]. auto.
Qed.

Lemma brace_straddle (pre a d1 d2 post c : string) :
  Placeholders.brace_free d1 = true ->
  Placeholders.brace_free d2 = true ->
  (pre ++ String "{" (d1 ++ String "}" post))%string
  = (a ++ String "{" (d2 ++ String "}" c))%string ->
  (pre = a /\ d1 = d2 /\ post = c)
  \/ (exists m, pre = (a ++ String "{" (d2 ++ String "}" m))%string
                /\ c = (m ++ String "{" (d1 ++ String "}" post))%string)
  \/ (exists m, a = (pre ++ String "{" (d1 ++ String "}" m))%string
                /\ post = (m ++ String "{" (d2 ++ String "}" c))%string).
Proof.
  intros H1 H2. revert a. induction pre as [|x pre IH]; intros a H.
  - destruct a as [|y a]; simpl in H.
    + injection H as H. left.
      destruct (token_same_start d1 d2 post c H1 H2 H) as [-> ->]. auto.
    + injection H as <- H.
      destruct (no_open_split d1 _ a _ H1 H) as (m & -> & Hm).
      destruct m as [|z m]; simpl in Hm; [discriminate|].
      injection Hm as <- Hm. right. right. exists m. split.
      * reflexivity.
      * exact Hm.
  - destruct a as [|y a]; simpl in H.
    + injection H as -> H. symmetry in H.
      destruct (no_open_split d2 _ pre _ H2 H) as (m & -> & Hm).
      destruct m as [|z m]; simpl in Hm; [discriminate|].
      injection Hm as <- Hm. right. left. exists m. split.
      * reflexivity.
      * exact Hm.
    + injection H as <- H.
      destruct (IH a H) as [(-> & -> & ->) | [(m & -> & ->) | (m & -> & ->)]].
      * left. auto.
      * right. left. exists m. auto.
      * right. right. exists m. auto.
Qed.

(** Two occurrences of placeholders in one text: they are the same
    occurrence, or one lies wholly before the other. *)
Lemma token_straddle (pre a d1 d2 post c : string) :
  Placeholders.brace_free d1 = true ->
  Placeholders.brace_free d2 = true ->
  (pre ++ Placeholders.token d1 ++ post)%string
  = (a ++ Placeholders.token d2 ++ c)%string ->
  (pre = a /\ d1 = d2 /\ post = c)
  \/ (exists m, pre = (a ++ Placeholders.token d2 ++ m)%string
                /\ c = (m ++ Placeholders.token d1 ++ post)%string)
  \/ (exists m, a = (pre ++ Placeholders.token d1 ++ m)%string
                /\ post = (m ++ Placeholders.token d2 ++ c)%string).
Proof.
  intros H1 H2 H. rewrite !token_app in H.
  destruct (brace_straddle pre a d1 d2 post c H1 H2 H)
    as [E | [(m & E1 & E2) | (m & E1 & E2)]].
  - left. exact E.
  - right. left. exists m. rewrite !token_app. split; assumption.
  - right. right. exists m. rewrite !token_app. split; assumption.
Qed.

Lemma token_length (d : string) : 2 <= String.length (Placeholders.token d).
Proof.
  unfold Placeholders.token. simpl. rewrite string_app_length. simpl. lia.
Qed.

(** Replacing a placeholder keeps the occurrences of every other one. *)
Lemma occurs_other_token (di dj pre post X : string) :
  Placeholders.brace_free di = true ->
  Placeholders.brace_free dj = true ->
  di <> dj ->
  Placeholders.occurs (Placeholders.token di)
                      (pre ++ Placeholders.token dj ++ post) ->
  Placeholders.occurs (Placeholders.token di) (pre ++ X ++ post).
Proof.
  intros Hi Hj Hne (a & c & H).
  destruct (token_straddle pre a dj di post c Hj Hi H)
    as [(_ & E & _) | [(m & -> & _) | (m & _ & ->)]].
  - congruence.
  - exists a, (m ++ X ++ post)%string. now rewrite !string_app_assoc.
  - exists (pre ++ X ++ m)%string, c. now rewrite !string_app_assoc.
Qed.

Lemma twice_other_token (di dj pre post X : string) :
  Placeholders.brace_free di = true ->
  Placeholders.brace_free dj = true ->
  di <> dj ->
  Placeholders.occurs_twice (Placeholders.token di)
                            (pre ++ Placeholders.token dj ++ post) ->
  Placeholders.occurs_twice (Placeholders.token di) (pre ++ X ++ post).
Proof.
  intros Hi Hj Hne (a & rest & H & Hrest).
  destruct (token_straddle pre a dj di post rest Hj Hi H)
    as [(_ & E & _) | [(m & -> & ->) | (m & _ & ->)]].
  - congruence.
  - exists a, (m ++ X ++ post)%string. split.
    + now rewrite !string_app_assoc.
    + now apply (occurs_other_token di dj m post X).
  - exists (pre ++ X ++ m)%string, rest. split.
    + now rewrite !string_app_assoc.
    + exact Hrest.
Qed.

(** Replacing the first occurrence of a placeholder keeps a later one. *)
Lemma later_same_token (d text pre post X : string) :
  Placeholders.brace_free d = true ->
  Placeholders.first_split (Placeholders.token d) text pre post ->
  Placeholders.occurs_twice (Placeholders.token d) text ->
  Placeholders.occurs (Placeholders.token d) (pre ++ X ++ post).
Proof.
  intros Hd [Htext Hmin] (a & rest & H & Hrest).
  assert (In_post : Placeholders.occurs (Placeholders.token d) post ->
                    Placeholders.occurs (Placeholders.token d) (pre ++ X ++ post)).
  { intros (b & c & ->). exists (pre ++ X ++ b)%string, c.
    now rewrite !string_app_assoc. }
  rewrite Htext in H.
  destruct (token_straddle pre a d d post rest Hd Hd H)
    as [(_ & _ & ->) | [(m & Hpre & _) | (m & _ & ->)]].
  - now apply In_post.
  - specialize (Hmin a rest). rewrite <- Htext in H. specialize (Hmin H).
    rewrite Hpre, !string_app_length in Hmin.
    pose proof (token_length d). lia.
  - apply In_post. destruct Hrest as (b & c & ->).
    exists (m ++ Placeholders.token d ++ b)%string, c.
    now rewrite !string_app_assoc.
Qed.

(** *** Placeholders of [applySubstitutions] *)

Lemma placeholder_token (idx : nat) :
  LineProviders.placeholder idx = Placeholders.token (JsString.of_nat idx).
Proof. reflexivity. Qed.

Lemma string_of_uint_brace_free (d : Decimal.uint) :
  Placeholders.brace_free (NilEmpty.string_of_uint d) = true.
Proof. induction d; simpl; auto. Qed.

Lemma of_nat_brace_free (idx : nat) :
  Placeholders.brace_free (JsString.of_nat idx) = true.
Proof. apply string_of_uint_brace_free. Qed.

Lemma of_nat_inj (i j : nat) : JsString.of_nat i = JsString.of_nat j -> i = j.
Proof.
  unfold JsString.of_nat. intros H.
  apply DecimalNat.Unsigned.to_uint_inj.
  assert (E : NilEmpty.uint_of_string (NilEmpty.string_of_uint (Nat.to_uint i))
              = NilEmpty.uint_of_string (NilEmpty.string_of_uint (Nat.to_uint j)))
    by now rewrite H.
  rewrite !NilEmpty.usu in E. congruence.
Qed.

Lemma replace_keeps_other (i j : nat) (sub text : string) :
  i <> j ->
  Placeholders.occurs (LineProviders.placeholder i) text ->
  Placeholders.occurs (LineProviders.placeholder i)
    (JsString.replace (LineProviders.placeholder j) sub text).
Proof.
  intros Hne H. unfold JsString.replace.
  destruct (JsString.split_first (LineProviders.placeholder j) text)
    as [[pre post]|] eqn:E; [|exact H].
  apply split_first_Some in E. destruct E as [E _]. rewrite E in H.
  rewrite placeholder_token in *.
  apply (occurs_other_token _ (JsString.of_nat j));
    auto using of_nat_brace_free.
  intros C. apply of_nat_inj in C. congruence.
Qed.

Lemma replace_keeps_twice_other (i j : nat) (sub text : string) :
  i <> j ->
  Placeholders.occurs_twice (LineProviders.placeholder i) text ->
  Placeholders.occurs_twice (LineProviders.placeholder i)
    (JsString.replace (LineProviders.placeholder j) sub text).
Proof.
  intros Hne H. unfold JsString.replace.
  destruct (JsString.split_first (LineProviders.placeholder j) text)
    as [[pre post]|] eqn:E; [|exact H].
  apply split_first_Some in E. destruct E as [E _]. rewrite E in H.
  rewrite placeholder_token in *.
  apply (twice_other_token _ (JsString.of_nat j));
    auto using of_nat_brace_free.
  intros C. apply of_nat_inj in C. congruence.
Qed.

Lemma replace_keeps_later (i : nat) (sub text : string) :
  Placeholders.occurs_twice (LineProviders.placeholder i) text ->
  Placeholders.occurs (LineProviders.placeholder i)
    (JsString.replace (LineProviders.placeholder i) sub text).
Proof.
  intros H. unfold JsString.replace.
  destruct (JsString.split_first (LineProviders.placeholder i) text)
    as [[pre post]|] eqn:E.
  - apply split_first_Some in E. rewrite placeholder_token in *.
    apply (later_same_token (JsString.of_nat i) text);
      auto using of_nat_brace_free.
  - destruct H as (a & rest & H & _). now exists a, rest.
Qed.

Lemma twice_occurs (pat s : string) :
  Placeholders.occurs_twice pat s -> Placeholders.occurs pat s.
Proof. intros (a & rest & H & _). now exists a, rest. Qed.

(** The substitutions of higher index leave a placeholder in place. *)
Lemma applySubstitutions_from_keeps
  (substitutions : list string) (start i : nat) (text : string) :
  i < start ->
  Placeholders.occurs (LineProviders.placeholder i) text ->
  Placeholders.occurs (LineProviders.placeholder i)
    (LineProviders.applySubstitutions_from start substitutions text).
Proof.
  revert start text.
  induction substitutions as [|sub rest IH]; intros start text Hlt H; simpl.
  - exact H.
  - apply IH; [lia|]. apply replace_keeps_other; [lia | exact H].
Qed.

Lemma applySubstitutions_from_later
  (substitutions : list string) (start i : nat) (text : string) :
  Placeholders.occurs_twice (LineProviders.placeholder i) text ->
  Placeholders.occurs (LineProviders.placeholder i)
    (LineProviders.applySubstitutions_from start substitutions text).
Proof.
  revert start text.
  induction substitutions as [|sub rest IH]; intros start text H; simpl.
  - now apply twice_occurs.
  - destruct (Nat.eq_dec i start) as [-> | Hne].
    + apply applySubstitutions_from_keeps; [lia|].
      now apply replace_keeps_later.
    + apply IH. now apply replace_keeps_twice_other.
Qed.

(** C9, as the claim states it, fails: the substitution is not inserted
    as it is, its replacement patterns are expanded ([$$] becomes [$]). *)
Lemma substitution_patterns_are_expanded :
  let provider := LineProviders.of_record [("price", "Pay {0} now or {0} later")] in
  option_map ll_text (LineProviders.getLine provider "price" ["$$5"])
  = Some "Pay $5 now or {0} later"
  /\ option_map ll_text (LineProviders.getLine provider "price" ["$$5"])
     <> Some (Placeholders.applySubstitutions_verbatim
                "Pay {0} now or {0} later" ["$$5"]).
Proof. split; [reflexivity | vm_compute; discriminate]. Qed.

Lemma string_app_same_length (a b x y : string) :
  (a ++ x = b ++ y)%string -> String.length a = String.length b ->
  a = b /\ x = y.
Proof.
  revert b. induction a as [|c a IH]; intros [|d b] E L; simpl in *;
    try discriminate.
  - now split.
  - injection E as -> E. injection L as L.
    destruct (IH b E L) as [-> ->]. now split.
Qed.

(** The first occurrence of a text is where it is. *)
Lemma first_split_unique (pat text pre post pre' post' : string) :
  Placeholders.first_split pat text pre post ->
  Placeholders.first_split pat text pre' post' ->
  pre = pre' /\ post = post'.
Proof.
  intros [E M] [E' M'].
  pose proof (M pre' post' E') as L1. pose proof (M' pre post E) as L2.
  rewrite E in E'.
  destruct (string_app_same_length pre pre' _ _ E') as [-> H]; [lia|].
  split; [reflexivity|].
  now destruct (string_app_same_length pat pat _ _ H eq_refl).
Qed.

Lemma replaces_first_unique (pat sub text x y : string) :
  Placeholders.replaces_first pat sub text x ->
  Placeholders.replaces_first pat sub text y ->
  x = y.
Proof.
  intros [[Hx ->] | (pre & post & ins & Hs & He & ->)]
         [[Hy ->] | (pre' & post' & ins' & Hs' & He' & ->)].
  - reflexivity.
  - exfalso. apply Hx. destruct Hs' as [E _]. now exists pre', post'.
  - exfalso. apply Hy. destruct Hs as [E _]. now exists pre, post.
  - destruct (first_split_unique _ _ _ _ _ _ Hs Hs') as [<- <-].
    now rewrite (expansion_unique _ _ _ _ _ _ He He').
Qed.

Lemma substituted_unique (idx : nat) (substitutions : list string)
                         (text x y : string) :
  Placeholders.substituted idx substitutions text x ->
  Placeholders.substituted idx substitutions text y ->
  x = y.
Proof.
  intros Hx. revert y.
  induction Hx as [idx text|idx sub rest text text' result Hr Hx IH];
    intros y Hy; inversion Hy; subst; [reflexivity|].
  match goal with
  | H : Placeholders.replaces_first _ sub text ?t |- _ =>
      rewrite <- (replaces_first_unique _ _ _ _ _ Hr H) in *
  end.
  now apply IH.
Qed.

(** [applySubstitutions] applies the substitutions in the order of their
    index, each to the first occurrence of its placeholder. *)
Lemma applySubstitutions_from_substituted
  (substitutions : list string) (idx : nat) (text : string) :
  Placeholders.substituted idx substitutions text
    (LineProviders.applySubstitutions_from idx substitutions text).
Proof.
  revert idx text.
  induction substitutions as [|sub rest IH]; intros idx text; simpl.
  - constructor.
  - apply (Placeholders.substituted_next idx sub rest text
             (JsString.replace (LineProviders.placeholder idx) sub text)).
    + apply (replace_replaces_first (LineProviders.placeholder idx)).
    + apply IH.
Qed.

(** A replacement text without [$] stands for itself. *)
Lemma expansion_plain (matched pre post sub inserted : string) :
  Placeholders.has_dollar sub = false ->
  Placeholders.expansion matched pre post sub inserted ->
  inserted = sub.
Proof.
  intros H He.
  rewrite (expansion_unique _ _ _ _ _ _ He
             (getSubstitution_expansion matched pre post sub)).
  now apply getSubstitution_plain.
Qed.

(** C9, as the code has it.  [getLine] applies the substitutions in the
    order of their index; the one of index [idx] replaces only the first
    occurrence of [{idx}] in the text as the earlier ones left it, and what
    it puts there is the substitution with its replacement patterns
    expanded: [$$] gives a dollar sign, [$&] the placeholder itself, [$`]
    the text before the placeholder and [$'] the text after it, and a
    substitution without [$] is inserted as it is.  The text returned is the
    only one that comes about so; a placeholder that occurs more than once
    in the line text still occurs in it. *)
Theorem getLine_replaces_first_occurrence_only
  (p : LineProviders.MapLineProvider) (lineId : string) (entry : LineEntry)
  (substitutions : list string) :
  JsMap.get lineId (LineProviders.lines p) = Some entry ->
  exists l,
    LineProviders.getLine p lineId substitutions = Some l
    /\ Placeholders.substituted 0 substitutions (entry_text entry) (ll_text l)
    /\ (forall result,
          Placeholders.substituted 0 substitutions (entry_text entry) result ->
          result = ll_text l)
    /\ (forall matched before after sub inserted,
          Placeholders.has_dollar sub = false ->
          Placeholders.expansion matched before after sub inserted ->
          inserted = sub)
    /\ (forall idx,
          Placeholders.occurs_twice (Placeholders.positional idx)
                                    (entry_text entry) ->
          Placeholders.occurs (Placeholders.positional idx) (ll_text l)).
Proof.
  intros H. unfold LineProviders.getLine. rewrite H.
  eexists. split; [reflexivity|]. simpl.
  unfold LineProviders.applySubstitutions.
  pose proof (applySubstitutions_from_substituted substitutions 0
                (entry_text entry)) as Hs.
  split; [exact Hs|]. split; [|split].
  - intros result Hr. exact (substituted_unique _ _ _ _ _ Hr Hs).
  - intros matched before after sub inserted. apply expansion_plain.
  - intros idx Htwice.
    apply (applySubstitutions_from_later substitutions 0 idx).
    exact Htwice.
Qed.

Lemma getLine_replaces_first_occurrence_only_witness :
  let provider := LineProviders.of_record [("price", "Pay {0} now or {0} later")] in
  let entry := {| entry_id := "price"; entry_text := "Pay {0} now or {0} later";
                  entry_metadata := None |} in
  JsMap.get "price" (LineProviders.lines provider) = Some entry
  /\ Placeholders.substituted 0 ["<$&>"] "Pay {0} now or {0} later"
                              "Pay <{0}> now or {0} later"
  /\ Placeholders.occurs_twice (Placeholders.positional 0) (entry_text entry)
  /\ exists l,
       LineProviders.getLine provider "price" ["<$&>"] = Some l
       /\ ll_text l = "Pay <{0}> now or {0} later"
       /\ Placeholders.occurs (Placeholders.positional 0) (ll_text l).
Proof.
  cbv zeta.
  assert (Htwice : Placeholders.occurs_twice (Placeholders.positional 0)
                     "Pay {0} now or {0} later").
  { exists "Pay ", " now or {0} later". split; [reflexivity|].
    exists " now or ", " later". reflexivity. }
  assert (Hsub : Placeholders.substituted 0 ["<$&>"] "Pay {0} now or {0} later"
                   "Pay <{0}> now or {0} later").
  { apply (Placeholders.substituted_next 0 "<$&>" [] _
             "Pay <{0}> now or {0} later"); [|constructor].
    right. exists "Pay ", " now or {0} later", "<{0}>".
    split; [apply split_first_Some; reflexivity|].
    split; [|reflexivity].
    apply Placeholders.expansion_copy;
      [apply not_begins_pattern_head; discriminate|].
    exact (Placeholders.expansion_matched
             (Placeholders.positional 0) "Pay " " now or {0} later" ">" ">"
             (Placeholders.expansion_copy _ _ _ ">" "" ""
                (not_begins_pattern_short ">")
                (Placeholders.expansion_end _ _ _))). }
  split; [reflexivity|]. split; [exact Hsub|]. split; [exact Htwice|].
  destruct (getLine_replaces_first_occurrence_only
              (LineProviders.of_record [("price", "Pay {0} now or {0} later")])
              "price"
              {| entry_id := "price"; entry_text := "Pay {0} now or {0} later";
                 entry_metadata := None |}
              ["<$&>"] eq_refl)
    as (l & Hl & _ & Huniq & _ & Hocc).
  exists l. split; [exact Hl|].
  rewrite <- (Huniq _ Hsub).
  split; [reflexivity|].
  rewrite (Huniq _ Hsub). apply Hocc. exact Htwice.
Defined.

(* ------------------------------------------------------------------ *)
(** ** The step loop ends on the reference runtime *)

Lemma set_has_add (x : string) (s : list string) :
  set_has x (set_add x s) = true.
Proof.
  unfold set_add. destruct (set_has x s) eqn:E; [exact E|].
  unfold set_has. rewrite existsb_app. simpl.
  now rewrite String.eqb_refl, orb_true_r.
Qed.

Lemma continue_head (s : TreeRuntime.t) (e : RuntimeEvent) (rest : list RuntimeEvent) :
  TreeRuntime.isComplete s = false ->
  TreeRuntime.waitingForOption s = false ->
  TreeRuntime.pendingEvents s = e :: rest ->
  TreeRuntime.continue s
  = (Some e, TreeRuntime.applyEvent e (TreeRuntime.set_pendingEvents rest s)).
Proof.
  intros Hc Hw Hp. unfold TreeRuntime.continue. rewrite Hc, Hw, Hp. simpl.
  now rewrite Hp.
Qed.

Lemma continue_body (s : TreeRuntime.t) (node : DialogueNode) :
  TreeRuns.at_started_node s node ->
  TreeRuntime.isComplete s = false ->
  TreeRuntime.waitingForOption s = false ->
  TreeRuntime.pendingEvents s = [] ->
  exists e1 s1,
    TreeRuntime.continue s = (Some e1, s1)
    /\ (Runner.pauses e1 = true
        \/ exists e2 rest,
             TreeRuntime.pendingEvents s1 = e2 :: rest
             /\ Runner.pauses e2 = true
             /\ TreeRuntime.isComplete s1 = false
             /\ TreeRuntime.waitingForOption s1 = false).
Proof.
  intros (cur & Hcur & Ht & Hl & Hs) Hc Hw Hp.
  unfold TreeRuntime.continue. rewrite Hc, Hw, Hp. simpl.
  unfold TreeRuntime.populateEventsForCurrentNode.
  rewrite Hc, Hcur, Ht, Hl, Hs. simpl.
  destruct node as [id content lineId subs next | id choices | id]; simpl;
    rewrite Hp; simpl.
  - eexists _, _. split; [reflexivity|]. right.
    eexists _, _. simpl. repeat split; auto.
  - eexists _, _. split; [reflexivity|]. right.
    eexists _, _. simpl. repeat split; auto.
  - eexists _, _. split; [reflexivity|]. now left.
Qed.

Lemma continue_empty (s : TreeRuntime.t) :
  TreeRuntime.isComplete s = false ->
  TreeRuntime.waitingForOption s = false ->
  TreeRuntime.pendingEvents s = [] ->
  (exists s', TreeRuntime.continue s = (Some DialogueCompleteEvent, s'))
  \/ (exists node s',
        TreeRuntime.continue s = (Some (NodeStartEvent (node_id node)), s')
        /\ TreeRuns.at_started_node s' node
        /\ TreeRuntime.isComplete s' = false
        /\ TreeRuntime.waitingForOption s' = false
        /\ TreeRuntime.pendingEvents s' = [])
  \/ (exists node, TreeRuns.at_started_node s node).
Proof.
  intros Hc Hw Hp.
  destruct (TreeRuntime.currentNodeId s) as [cur|] eqn:Hcur.
  2:{ left. unfold TreeRuntime.continue. rewrite Hc, Hw, Hp. simpl.
      unfold TreeRuntime.populateEventsForCurrentNode. rewrite Hc, Hcur.
      simpl. rewrite Hp. simpl. eexists. reflexivity. }
  destruct (truthy cur) eqn:Ht.
  2:{ left. unfold TreeRuntime.continue. rewrite Hc, Hw, Hp. simpl.
      unfold TreeRuntime.populateEventsForCurrentNode. rewrite Hc, Hcur, Ht.
      simpl. rewrite Hp. simpl. eexists. reflexivity. }
  destruct (TreeRuntime.lookup_node cur (nodes (TreeRuntime.tree s)))
    as [node|] eqn:Hl.
  2:{ left. unfold TreeRuntime.continue. rewrite Hc, Hw, Hp. simpl.
      unfold TreeRuntime.populateEventsForCurrentNode. rewrite Hc, Hcur, Ht, Hl.
      simpl. rewrite Hp. simpl. eexists. reflexivity. }
  destruct (set_has (node_id node) (TreeRuntime.startedNodes s)) eqn:Hs.
  - right. right. exists node, cur. auto.
  - right. left. exists node.
    unfold TreeRuntime.continue. rewrite Hc, Hw, Hp. simpl.
    unfold TreeRuntime.populateEventsForCurrentNode. rewrite Hc, Hcur, Ht, Hl, Hs.
    simpl. rewrite Hp. simpl.
    eexists. split; [reflexivity|]. simpl. repeat split; auto.
    exists cur. simpl. repeat split; auto. apply set_has_add.
Qed.

Section LoopOnTheReferenceRuntime.

Context {P : Type} {LP : LineProvider P}.

Lemma handleRuntimeEvent_pauses (e : RuntimeEvent)
                                (r : Runner.DialogueRunner TreeRuntime.t P) :
  fst (Runner.handleRuntimeEvent e r) = Runner.pauses e.
Proof.
  destruct e; simpl; try reflexivity.
  unfold Runner.handleCommand.
  now destruct (Commands.dispatch text (Runner.commandDispatcher r)).
Qed.

Lemma run_context_pending (p : Commands.ContextProgram)
                          (r : Runner.DialogueRunner TreeRuntime.t P) :
  TreeRuntime.pendingEvents (Runner.runtime (Runner.run_context p r))
  = TreeRuntime.pendingEvents (Runner.runtime r).
Proof.
  revert r. induction p as [|name k IH|name value k IH|k IH|k IH|sec k IH];
    intros r; simpl; try reflexivity; try apply IH.
  - now rewrite IH.
  - now rewrite IH.
Qed.

Lemma handleRuntimeEvent_pending (e : RuntimeEvent)
                                 (r : Runner.DialogueRunner TreeRuntime.t P) :
  TreeRuntime.pendingEvents (Runner.runtime (snd (Runner.handleRuntimeEvent e r)))
  = TreeRuntime.pendingEvents (Runner.runtime r).
Proof.
  destruct e; simpl; try reflexivity.
  unfold Runner.handleCommand.
  destruct (Commands.dispatch text (Runner.commandDispatcher r)) as [h p].
  simpl. apply run_context_pending.
Qed.

(** The runtime is untouched by the handling of an event that is not a
    command. *)
Lemma handleRuntimeEvent_runtime (e : RuntimeEvent)
                                 (r : Runner.DialogueRunner TreeRuntime.t P) :
  (forall text, e <> CommandEvent text) ->
  Runner.runtime (snd (Runner.handleRuntimeEvent e r)) = Runner.runtime r
  /\ Runner.stopped (snd (Runner.handleRuntimeEvent e r)) = Runner.stopped r.
Proof.
  intros H. destruct e; simpl; auto. now destruct (H text).
Qed.

(** One iteration of the loop on a runner that is neither stopped nor at
    the end. *)
Lemma runLoop_iteration (fuel : nat) (r : Runner.DialogueRunner TreeRuntime.t P)
                        (e : RuntimeEvent) (s' : TreeRuntime.t) :
  Runner.stopped r = false ->
  TreeRuntime.isComplete (Runner.runtime r) = false ->
  TreeRuntime.continue (Runner.runtime r) = (Some e, s') ->
  Runner.runLoop (S fuel) r
  = let r2 := Runner.set_lastEvent (Some e) (Runner.set_runtime s' r) in
    if Runner.pauses e
    then Some (snd (Runner.handleRuntimeEvent e r2))
    else Runner.runLoop fuel (snd (Runner.handleRuntimeEvent e r2)).
Proof.
  intros Hst Hc Hstep. cbn [Runner.runLoop]. rewrite Hst.
  change (isDialogueComplete (Runner.runtime r))
    with (TreeRuntime.isComplete (Runner.runtime r)).
  rewrite Hc. cbn [orb].
  change (continue (Runner.runtime r))
    with (TreeRuntime.continue (Runner.runtime r)).
  rewrite Hstep. cbv zeta.
  rewrite <- (handleRuntimeEvent_pauses e
                (Runner.set_lastEvent (Some e) (Runner.set_runtime s' r))).
  now destruct (Runner.handleRuntimeEvent e
                  (Runner.set_lastEvent (Some e) (Runner.set_runtime s' r))).
Qed.

Lemma runLoop_idle (fuel : nat) (r : Runner.DialogueRunner TreeRuntime.t P) :
  Runner.stopped r = true
  \/ TreeRuntime.isComplete (Runner.runtime r) = true
  \/ TreeRuntime.waitingForOption (Runner.runtime r) = true ->
  1 <= fuel ->
  exists r', Runner.runLoop fuel r = Some r'.
Proof.
  intros H Hf. destruct fuel as [|fuel]; [lia|]. cbn [Runner.runLoop].
  change (isDialogueComplete (Runner.runtime r))
    with (TreeRuntime.isComplete (Runner.runtime r)).
  destruct (Runner.stopped r) eqn:Hst; [eexists; reflexivity|].
  destruct (TreeRuntime.isComplete (Runner.runtime r)) eqn:Hc;
    [eexists; reflexivity|].
  destruct H as [H | [H | H]]; try discriminate.
  cbn [orb].
  change (continue (Runner.runtime r))
    with (TreeRuntime.continue (Runner.runtime r)).
  unfold TreeRuntime.continue. rewrite Hc, H. simpl. eexists; reflexivity.
Qed.

Lemma runLoop_pausing_head (fuel : nat) (r : Runner.DialogueRunner TreeRuntime.t P)
                           (e : RuntimeEvent) (rest : list RuntimeEvent) :
  TreeRuntime.pendingEvents (Runner.runtime r) = e :: rest ->
  Runner.pauses e = true ->
  1 <= fuel ->
  exists r', Runner.runLoop fuel r = Some r'.
Proof.
  intros Hp He Hf.
  destruct (Runner.stopped r) eqn:Hst; [apply runLoop_idle; auto|].
  destruct (TreeRuntime.isComplete (Runner.runtime r)) eqn:Hc;
    [apply runLoop_idle; auto|].
  destruct (TreeRuntime.waitingForOption (Runner.runtime r)) eqn:Hw;
    [apply runLoop_idle; auto|].
  destruct fuel as [|fuel]; [lia|].
  rewrite (runLoop_iteration fuel r e _ Hst Hc (continue_head _ e rest Hc Hw Hp)).
  cbv zeta. rewrite He. eexists; reflexivity.
Qed.

Lemma runLoop_body (fuel : nat) (r : Runner.DialogueRunner TreeRuntime.t P)
                   (node : DialogueNode) :
  TreeRuns.at_started_node (Runner.runtime r) node ->
  TreeRuntime.pendingEvents (Runner.runtime r) = [] ->
  2 <= fuel ->
  exists r', Runner.runLoop fuel r = Some r'.
Proof.
  intros Hn Hp Hf.
  destruct (Runner.stopped r) eqn:Hst; [apply runLoop_idle; auto; lia|].
  destruct (TreeRuntime.isComplete (Runner.runtime r)) eqn:Hc;
    [apply runLoop_idle; auto; lia|].
  destruct (TreeRuntime.waitingForOption (Runner.runtime r)) eqn:Hw;
    [apply runLoop_idle; auto; lia|].
  destruct fuel as [|fuel]; [lia|].
  destruct (continue_body _ node Hn Hc Hw Hp) as (e1 & s1 & Hstep & Hnext).
  rewrite (runLoop_iteration fuel r e1 s1 Hst Hc Hstep). cbv zeta.
  destruct (Runner.pauses e1) eqn:He1; [eexists; reflexivity|].
  destruct Hnext as [Hn1 | (e2 & rest & Hp1 & He2 & _)]; [discriminate|].
  apply (runLoop_pausing_head fuel _ e2 rest); [|exact He2|lia].
  rewrite handleRuntimeEvent_pending. exact Hp1.
Qed.

Lemma runLoop_empty (fuel : nat) (r : Runner.DialogueRunner TreeRuntime.t P) :
  TreeRuntime.pendingEvents (Runner.runtime r) = [] ->
  3 <= fuel ->
  exists r', Runner.runLoop fuel r = Some r'.
Proof.
  intros Hp Hf.
  destruct (Runner.stopped r) eqn:Hst; [apply runLoop_idle; auto; lia|].
  destruct (TreeRuntime.isComplete (Runner.runtime r)) eqn:Hc;
    [apply runLoop_idle; auto; lia|].
  destruct (TreeRuntime.waitingForOption (Runner.runtime r)) eqn:Hw;
    [apply runLoop_idle; auto; lia|].
  destruct (continue_empty _ Hc Hw Hp)
    as [(s' & Hstep) | [(node & s' & Hstep & Hn & Hc' & Hw' & Hp') | (node & Hn)]].
  - destruct fuel as [|fuel]; [lia|].
    rewrite (runLoop_iteration fuel r _ s' Hst Hc Hstep). cbv zeta. simpl.
    eexists; reflexivity.
  - destruct fuel as [|fuel]; [lia|].
    rewrite (runLoop_iteration fuel r _ s' Hst Hc Hstep). cbv zeta. simpl.
    apply (runLoop_body fuel _ node); [exact Hn | exact Hp' | lia].
  - apply (runLoop_body fuel r node); [exact Hn | exact Hp | lia].
Qed.

(** The loop ends: the events that were buffered are handed over one by
    one, and the node that follows pauses or completes within three
    further steps. *)
Lemma runLoop_ends (fuel : nat) (r : Runner.DialogueRunner TreeRuntime.t P) :
  length (TreeRuntime.pendingEvents (Runner.runtime r)) + 3 <= fuel ->
  exists r', Runner.runLoop fuel r = Some r'.
Proof.
  remember (TreeRuntime.pendingEvents (Runner.runtime r)) as q eqn:Hq.
  revert fuel r Hq. induction q as [|e rest IH]; intros fuel r Hq Hf.
  - apply runLoop_empty; [now symmetry | simpl in Hf; lia].
  - simpl in Hf.
    destruct (Runner.stopped r) eqn:Hst; [apply runLoop_idle; auto; lia|].
    destruct (TreeRuntime.isComplete (Runner.runtime r)) eqn:Hc;
      [apply runLoop_idle; auto; lia|].
    destruct (TreeRuntime.waitingForOption (Runner.runtime r)) eqn:Hw;
      [apply runLoop_idle; auto; lia|].
    destruct fuel as [|fuel]; [lia|].
    rewrite (runLoop_iteration fuel r e _ Hst Hc
               (continue_head _ e rest Hc Hw (eq_sym Hq))).
    cbv zeta.
    destruct (Runner.pauses e); [eexists; reflexivity|].
    apply IH; [|lia].
    rewrite handleRuntimeEvent_pending. simpl.
    now destruct e.
Qed.

End LoopOnTheReferenceRuntime.

(** *** Every call comes back *)

Lemma continue_bounded (s : TreeRuntime.t) :
  TreeRuns.bounded s -> TreeRuns.bounded (snd (TreeRuntime.continue s)).
Proof.
  unfold TreeRuns.bounded, TreeRuntime.continue. intros H.
  destruct (TreeRuntime.isComplete s) eqn:Hc; [simpl; exact H|].
  destruct (TreeRuntime.waitingForOption s) eqn:Hw;
    [simpl; rewrite Hw; exact H|]. simpl.
  assert (Hlen : length (TreeRuntime.pendingEvents s) <= 3) by lia.
  destruct (TreeRuntime.pendingEvents s) as [|e rest] eqn:Hp.
  - unfold TreeRuntime.populateEventsForCurrentNode. rewrite Hc.
    destruct (TreeRuntime.currentNodeId s) as [cur|];
      [|simpl; rewrite ?Hp, ?Hw; simpl; rewrite ?Hw; simpl; lia].
    destruct (negb (truthy cur));
      [simpl; rewrite ?Hp, ?Hw; simpl; rewrite ?Hw; simpl; lia|].
    destruct (TreeRuntime.lookup_node cur (nodes (TreeRuntime.tree s)))
      as [node|]; [|simpl; rewrite ?Hp, ?Hw; simpl; rewrite ?Hw; simpl; lia].
    destruct (negb (set_has (node_id node) (TreeRuntime.startedNodes s)));
      [simpl; rewrite ?Hp, ?Hw; simpl; rewrite ?Hw; simpl; lia|].
    destruct node; simpl; rewrite ?Hp, ?Hw; simpl; rewrite ?Hw; simpl; lia.
  - cbv beta iota zeta. rewrite Hp. simpl in Hlen.
    destruct e; simpl; rewrite ?Hw; simpl; lia.
Qed.

Lemma setSelectedOption_bounded (i : Z) (s : TreeRuntime.t) :
  TreeRuns.bounded s -> TreeRuns.bounded (snd (TreeRuntime.setSelectedOption i s)).
Proof.
  unfold TreeRuns.bounded, TreeRuntime.setSelectedOption. intros H.
  destruct (TreeRuntime.optionCache s) as [cache|]; [|exact H].
  destruct (TreeRuntime.waitingForOption s) eqn:Hw;
    [|simpl; rewrite Hw; exact H].
  simpl.
  destruct (array_get (cache_choices cache) i); simpl.
  - rewrite length_app. simpl. lia.
  - rewrite Hw. exact H.
Qed.

Lemma setVariable_fold_bounded
  (entries : list (string * VariableValue)) (s : TreeRuntime.t) :
  TreeRuntime.pendingEvents
    (fold_left (fun rt '(name, value) => setVariable name value rt) entries s)
  = TreeRuntime.pendingEvents s.
Proof.
  revert s. induction entries as [|[name value] entries IH]; intros s; simpl.
  - reflexivity.
  - now rewrite IH.
Qed.

Section CallsOnTheReferenceRuntime.

Context {P : Type} {LP : LineProvider P}.

Lemma run_context_waiting (p : Commands.ContextProgram)
                          (r : Runner.DialogueRunner TreeRuntime.t P) :
  TreeRuntime.waitingForOption (Runner.runtime (Runner.run_context p r))
  = TreeRuntime.waitingForOption (Runner.runtime r).
Proof.
  revert r. induction p as [|name k IH|name value k IH|k IH|k IH|sec k IH];
    intros r; simpl; try reflexivity; try apply IH.
  - now rewrite IH.
  - now rewrite IH.
Qed.

Lemma handleRuntimeEvent_bounded (e : RuntimeEvent)
                                 (r : Runner.DialogueRunner TreeRuntime.t P) :
  TreeRuns.bounded (Runner.runtime r) ->
  TreeRuns.bounded (Runner.runtime (snd (Runner.handleRuntimeEvent e r))).
Proof.
  unfold TreeRuns.bounded. intros H.
  rewrite handleRuntimeEvent_pending.
  destruct e; simpl; try exact H.
  unfold Runner.handleCommand.
  destruct (Commands.dispatch text (Runner.commandDispatcher r)) as [h p].
  simpl. now rewrite run_context_waiting.
Qed.

Lemma runLoop_bounded (fuel : nat) (r r' : Runner.DialogueRunner TreeRuntime.t P) :
  TreeRuns.bounded (Runner.runtime r) ->
  Runner.runLoop fuel r = Some r' ->
  TreeRuns.bounded (Runner.runtime r').
Proof.
  revert r. induction fuel as [|fuel IH]; intros r H; simpl.
  - destruct (Runner.stopped r || TreeRuntime.isDialogueComplete (Runner.runtime r));
      [|discriminate].
    intros E. injection E as <-. exact H.
  - destruct (Runner.stopped r || TreeRuntime.isDialogueComplete (Runner.runtime r)).
    { intros E. injection E as <-. exact H. }
    pose proof (continue_bounded _ H) as Hb.
    destruct (TreeRuntime.continue (Runner.runtime r)) as [[e|] rt'].
    2:{ intros E. injection E as <-. exact Hb. }
    simpl in Hb.
    pose proof (handleRuntimeEvent_bounded e
                  (Runner.set_lastEvent (Some e) (Runner.set_runtime rt' r)) Hb)
      as Hh.
    destruct (Runner.handleRuntimeEvent e
                (Runner.set_lastEvent (Some e) (Runner.set_runtime rt' r)))
      as [pause r3].
    simpl in Hh. destruct pause.
    + intros E. injection E as <-. exact Hh.
    + apply IH. exact Hh.
Qed.

Lemma runUntilPause_bounded (fuel : nat)
                            (r r' : Runner.DialogueRunner TreeRuntime.t P) :
  TreeRuns.bounded (Runner.runtime r) ->
  Runner.runUntilPause fuel r = Some r' ->
  TreeRuns.bounded (Runner.runtime r').
Proof.
  intros H. unfold Runner.runUntilPause.
  destruct (Runner.runLoop fuel r) as [r1|] eqn:E; [|discriminate].
  intros E'. injection E' as <-.
  pose proof (runLoop_bounded fuel r r1 H E) as Hb.
  unfold Runner.finishIfComplete.
  now destruct (isDialogueComplete (Runner.runtime r1)).
Qed.

Lemma runUntilPause_ends (fuel : nat) (r : Runner.DialogueRunner TreeRuntime.t P) :
  length (TreeRuntime.pendingEvents (Runner.runtime r)) + 3 <= fuel ->
  exists r', Runner.runUntilPause fuel r = Some r'.
Proof.
  intros H. unfold Runner.runUntilPause.
  destruct (runLoop_ends fuel r H) as [r1 ->]. eexists; reflexivity.
Qed.

(** A call on a runner whose runtime is within the bound comes back,
    returning or raising, and leaves the runtime within the bound. *)
Lemma perform_comes_back (fuel : nat) (op : Runner.Operation)
                         (r : Runner.DialogueRunner TreeRuntime.t P) :
  TreeRuns.bounded (Runner.runtime r) ->
  7 <= fuel ->
  exists r',
    (Runner.perform fuel op r = Runner.Returns r'
     \/ exists e, Runner.perform fuel op r = Runner.Throws e r')
    /\ TreeRuns.bounded (Runner.runtime r').
Proof.
  intros Hb Hf.
  assert (Run : forall x : Runner.DialogueRunner TreeRuntime.t P,
             TreeRuns.bounded (Runner.runtime x) ->
             exists r', Runner.returning (Runner.runUntilPause fuel x)
                        = Runner.Returns r'
                        /\ TreeRuns.bounded (Runner.runtime r')).
  { intros x Hx.
    destruct (runUntilPause_ends fuel x) as [r' E].
    - unfold TreeRuns.bounded in Hx. lia.
    - exists r'. rewrite E. split; [reflexivity|].
      now apply (runUntilPause_bounded fuel x). }
  destruct op; simpl.
  - unfold Runner.start.
    match goal with
    | |- context [Runner.runUntilPause fuel ?x] =>
        destruct (Run x) as (r' & E & Hr')
    end.
    { unfold TreeRuns.bounded. simpl. lia. }
    exists r'. split; [left; exact E | exact Hr'].
  - unfold Runner.continue.
    destruct (Runner.isWaitingForOption (Runner.state r));
      [exists r; split; [right; eexists; reflexivity | exact Hb]|].
    destruct (Runner.isComplete (Runner.state r));
      [exists r; split; [right; eexists; reflexivity | exact Hb]|].
    destruct (Run r Hb) as (r' & E & Hr').
    exists r'. split; [left; exact E | exact Hr'].
  - unfold Runner.selectOption.
    destruct (negb (Runner.isWaitingForOption (Runner.state r)));
      [exists r; split; [right; eexists; reflexivity | exact Hb]|].
    pose proof (setSelectedOption_bounded optionId _ Hb) as Hs.
    change (setSelectedOption optionId (Runner.runtime r))
      with (TreeRuntime.setSelectedOption optionId (Runner.runtime r)).
    destruct (TreeRuntime.setSelectedOption optionId (Runner.runtime r))
      as [[e|] rt']; simpl in Hs.
    + eexists. split; [right; eexists; reflexivity | exact Hs].
    + match goal with
      | |- context [Runner.runUntilPause fuel ?x] =>
          destruct (Run x) as (r' & E & Hr')
      end.
      { exact Hs. }
      exists r'. split; [left; exact E | exact Hr'].
  - eexists. split; [left; reflexivity | exact Hb].
  - eexists. split; [left; reflexivity|].
    unfold TreeRuns.bounded. simpl. lia.
Qed.

(** On the reference runtime every sequence of calls on a new runner
    comes back when the loop is given seven iterations. *)
Lemma performAll_comes_back (fuel : nat) (ops : list Runner.Operation)
                            (r : Runner.DialogueRunner TreeRuntime.t P) :
  TreeRuns.bounded (Runner.runtime r) ->
  7 <= fuel ->
  exists r', Runner.performAll fuel ops r = Some r'.
Proof.
  intros Hb Hf. revert r Hb.
  induction ops as [|op ops IH]; intros r Hb; simpl.
  - eexists; reflexivity.
  - destruct (perform_comes_back fuel op r Hb Hf) as (r1 & [E | [e E]] & Hb1);
      rewrite E; now apply IH.
Qed.

End CallsOnTheReferenceRuntime.

(** So the execution states of the invariants are there to be had: on the
    reference runtime every sequence of calls on a new runner reaches one,
    and [isComplete] implies not [isRunning] in it. *)
Corollary reference_runs_come_back
  {P : Type} {LP : LineProvider P}
  (ops : list Runner.Operation) (tr : DialogueTree) (lp : P)
  (cd : Commands.CommandDispatcher) (vs : JsMap.t VariableValue) :
  exists r',
    Runner.performAll 7 ops (Runner.create (TreeRuntime.create tr) lp cd vs)
    = Some r'
    /\ (Runner.isComplete (Runner.state r') = true ->
        Runner.isRunning (Runner.state r') = false).
Proof.
  destruct (performAll_comes_back 7 ops
              (Runner.create (TreeRuntime.create tr) lp cd vs)) as [r' E].
  - unfold TreeRuns.bounded. simpl. lia.
  - lia.
  - exists r'. split; [exact E|].
    apply (performAll_complete_not_running 7 ops
             (Runner.create (TreeRuntime.create tr) lp cd vs) r'); [|exact E].
    unfold Runner.complete_not_running. simpl. discriminate.
Qed.

(* ------------------------------------------------------------------ *)
(** ** The reference runtime: the node lifecycle within a run *)

Lemma set_has_In (x : string) (l : list string) :
  set_has x l = true <-> In x l.
Proof.
  unfold set_has. rewrite existsb_exists. split.
  - intros (y & Hy & E). apply String.eqb_eq in E. now subst.
  - intros H. exists x. split; [exact H | apply String.eqb_refl].
Qed.

Lemma completes_started_app (a b : list string) (e : RuntimeEvent) :
  TreeHistory.completes_started a e ->
  TreeHistory.completes_started (a ++ b) e.
Proof. destruct e; simpl; auto. intros H. apply in_or_app. now left. Qed.

Ltac coherence :=
  unfold TreeHistory.coherent; simpl;
  repeat match goal with
         | |- Forall _ (_ :: _) => constructor
         | |- Forall _ [] => constructor
         | |- _ /\ _ => split
         end;
  simpl; auto.

(** One [continue()]: the markers grow by the [node_start] returned, which
    is for a node not visited before; a [node_complete] returned is for a
    visited node; no [command] is returned. *)
Lemma continue_coherent (s : TreeRuntime.t) :
  TreeHistory.coherent s ->
  let ev := fst (TreeRuntime.continue s) in
  let s' := snd (TreeRuntime.continue s) in
  TreeHistory.coherent s'
  /\ TreeRuntime.startedNodes s'
     = TreeRuntime.startedNodes s ++ TreeHistory.node_starts [ev]
  /\ (forall e, ev = Some e ->
        TreeHistory.is_command e = false
        /\ TreeHistory.completes_started (TreeRuntime.startedNodes s) e).
Proof.
  intros (Hnd & Hp & Hc). cbv zeta. unfold TreeRuntime.continue.
  assert (Keep : TreeHistory.coherent s) by (repeat split; assumption).
  destruct (TreeRuntime.isComplete s) eqn:Ec.
  { simpl. rewrite app_nil_r. repeat split; auto; discriminate. }
  destruct (TreeRuntime.waitingForOption s) eqn:Ew.
  { simpl. rewrite app_nil_r. repeat split; auto; discriminate. }
  simpl.
  destruct (TreeRuntime.pendingEvents s) as [|e rest] eqn:Ep.
  - (* the buffer is empty: the current node is looked at *)
    unfold TreeRuntime.populateEventsForCurrentNode. rewrite Ec.
    assert (Done : forall s0,
               TreeRuntime.pendingEvents s0 = [DialogueCompleteEvent] ->
               TreeRuntime.startedNodes s0 = TreeRuntime.startedNodes s ->
               TreeRuntime.optionCache s0 = TreeRuntime.optionCache s ->
               TreeHistory.coherent
                 (snd (match TreeRuntime.pendingEvents s0 with
                       | [] => (None, s0)
                       | nextEvent :: rest =>
                           (Some nextEvent,
                            TreeRuntime.applyEvent nextEvent
                              (TreeRuntime.set_pendingEvents rest s0))
                       end))
               /\ TreeRuntime.startedNodes
                    (snd (match TreeRuntime.pendingEvents s0 with
                          | [] => (None, s0)
                          | nextEvent :: rest =>
                              (Some nextEvent,
                               TreeRuntime.applyEvent nextEvent
                                 (TreeRuntime.set_pendingEvents rest s0))
                          end))
                  = TreeRuntime.startedNodes s
                    ++ TreeHistory.node_starts
                         [fst (match TreeRuntime.pendingEvents s0 with
                               | [] => (None, s0)
                               | nextEvent :: rest =>
                                   (Some nextEvent,
                                    TreeRuntime.applyEvent nextEvent
                                      (TreeRuntime.set_pendingEvents rest s0))
                               end)]
               /\ (forall e,
                     fst (match TreeRuntime.pendingEvents s0 with
                          | [] => (None, s0)
                          | nextEvent :: rest =>
                              (Some nextEvent,
                               TreeRuntime.applyEvent nextEvent
                                 (TreeRuntime.set_pendingEvents rest s0))
                          end) = Some e ->
                     TreeHistory.is_command e = false
                     /\ TreeHistory.completes_started (TreeRuntime.startedNodes s) e)).
    { intros s0 H0 Hs0 Hc0. rewrite H0. simpl. rewrite app_nil_r.
      split; [|split].
      - unfold TreeHistory.coherent. simpl. rewrite Hs0, Hc0.
        repeat split; auto.
      - exact Hs0.
      - intros e E. injection E as <-. now split. }
    destruct (TreeRuntime.currentNodeId s) as [cur|] eqn:Hcur.
    2:{ apply Done; simpl; rewrite ?Ep; reflexivity. }
    destruct (negb (truthy cur)).
    { apply Done; simpl; rewrite ?Ep; reflexivity. }
    destruct (TreeRuntime.lookup_node cur (nodes (TreeRuntime.tree s)))
      as [node|] eqn:Hl.
    2:{ apply Done; simpl; rewrite ?Ep; reflexivity. }
    destruct (set_has (node_id node) (TreeRuntime.startedNodes s)) eqn:Hs.
    + (* the body of a visited node *)
      apply set_has_In in Hs. simpl.
      destruct node as [id content lineId subs next | id choices | id];
        simpl in Hs |- *; rewrite Ep; simpl; rewrite ?app_nil_r.
      * split; [|split]; [|reflexivity|].
        -- coherence.
        -- intros e E. injection E as <-. now split.
      * split; [|split]; [|reflexivity|].
        -- coherence. intros cache E. injection E as <-. exact Hs.
        -- intros e E. injection E as <-. now split.
      * split; [|split]; [|reflexivity|].
        -- coherence.
        -- intros e E. injection E as <-. now split.
    + (* the node is entered *)
      simpl. rewrite Ep. simpl.
      assert (Hnot : ~ In (node_id node) (TreeRuntime.startedNodes s)).
      { intros C. apply set_has_In in C. congruence. }
      unfold set_add. rewrite Hs.
      split; [|split]; [|reflexivity|].
      * unfold TreeHistory.coherent. simpl. split; [|split].
        -- apply NoDup_app; auto.
           ++ repeat constructor. intros [].
           ++ intros x Hx [<- | []]. contradiction.
        -- constructor.
        -- intros cache E. apply in_or_app. left. now apply Hc.
      * intros e E. injection E as <-. now split.
  - (* the first buffered event is handed over *)
    cbv beta iota zeta. rewrite Ep.
    inversion Hp as [|e0 rest0 (Hns & Hcmd & Hcs) Hrest]; subst.
    destruct e; try discriminate; simpl; rewrite app_nil_r;
      (split; [coherence | split; [reflexivity|]]);
      intros e' E; injection E as <-; now split.
Qed.

Lemma after_call_coherent (c : TreeRuns.RuntimeCall) (s : TreeRuntime.t) :
  TreeHistory.coherent s ->
  TreeHistory.coherent (TreeRuns.after_call c s)
  /\ TreeRuntime.startedNodes (TreeRuns.after_call c s)
     = TreeRuntime.startedNodes s
       ++ TreeHistory.node_starts (TreeRuns.returned [c] s).
Proof.
  intros H. destruct c.
  - simpl. rewrite app_nil_r. split; [|reflexivity].
    destruct H as (Hnd & _ & _). coherence. discriminate.
  - destruct (continue_coherent s H) as (H1 & H2 & _).
    split; [exact H1|]. exact H2.
  - simpl. rewrite app_nil_r. split.
    + destruct H as (Hnd & Hp & Hc). unfold TreeRuntime.setSelectedOption.
      destruct (TreeRuntime.optionCache s) as [cache|] eqn:Ec;
        [|coherence; rewrite Ec; discriminate].
      destruct (negb (TreeRuntime.waitingForOption s));
        [coherence; rewrite Ec; intros ? E; injection E as <-; now apply Hc|].
      destruct (array_get (cache_choices cache) optionId);
        [|coherence; rewrite Ec; intros ? E; injection E as <-; now apply Hc].
      coherence.
      * apply Forall_app. split; [exact Hp|]. constructor; [|constructor].
        simpl. repeat split. now apply Hc.
      * discriminate.
    + unfold TreeRuntime.setSelectedOption.
      destruct (TreeRuntime.optionCache s) as [cache|]; [|reflexivity].
      destruct (negb (TreeRuntime.waitingForOption s)); [reflexivity|].
      now destruct (array_get (cache_choices cache) optionId).
  - simpl. rewrite app_nil_r. split; [|reflexivity]. exact H.
Qed.

Lemma node_starts_app (a b : list (option RuntimeEvent)) :
  TreeHistory.node_starts (a ++ b)
  = TreeHistory.node_starts a ++ TreeHistory.node_starts b.
Proof. unfold TreeHistory.node_starts. apply flat_map_app. Qed.

Lemma returned_cons (c : TreeRuns.RuntimeCall) (calls : list TreeRuns.RuntimeCall)
                    (s : TreeRuntime.t) :
  TreeRuns.returned (c :: calls) s
  = TreeRuns.returned [c] s ++ TreeRuns.returned calls (TreeRuns.after_call c s).
Proof. simpl. now rewrite app_nil_r. Qed.

(** A whole run. *)
Lemma run_coherent (calls : list TreeRuns.RuntimeCall) (s : TreeRuntime.t) :
  TreeHistory.coherent s ->
  TreeHistory.coherent (TreeRuns.after_calls calls s)
  /\ TreeRuntime.startedNodes (TreeRuns.after_calls calls s)
     = TreeRuntime.startedNodes s
       ++ TreeHistory.node_starts (TreeRuns.returned calls s)
  /\ Forall (fun ev => forall e, ev = Some e -> TreeHistory.is_command e = false)
            (TreeRuns.returned calls s)
  /\ (forall pre nodeName post,
        TreeRuns.returned calls s
        = pre ++ Some (NodeCompleteEvent nodeName) :: post ->
        In nodeName (TreeRuntime.startedNodes s ++ TreeHistory.node_starts pre)).
Proof.
  revert s. induction calls as [|c calls IH]; intros s H.
  - simpl. rewrite app_nil_r.
    split; [exact H|]. split; [reflexivity|]. split; [constructor|].
    intros pre n post E. destruct pre; discriminate.
  - destruct (after_call_coherent c s H) as [H1 Hs1].
    destruct (IH _ H1) as (Hc & Hs & Hcmd & Hnc).
    change (TreeRuns.after_calls (c :: calls) s)
      with (TreeRuns.after_calls calls (TreeRuns.after_call c s)).
    rewrite returned_cons.
    split; [exact Hc|]. split; [|split].
    + rewrite Hs, Hs1, node_starts_app. now rewrite app_assoc.
    + apply Forall_app. split; [|exact Hcmd].
      destruct c; simpl; try constructor; [|constructor].
      intros e E. now apply (continue_coherent s H).
    + intros pre n post.
      destruct (TreeRuns.returned [c] s) as [|x l] eqn:R.
      * simpl. intros E. simpl in Hs1. rewrite app_nil_r in Hs1.
        specialize (Hnc pre n post E). now rewrite Hs1 in Hnc.
      * destruct c; simpl in R; try discriminate.
        injection R as <- <-. simpl. intros E.
        destruct pre as [|y pre]; simpl in E.
        -- injection E as E _. apply in_or_app. left.
           destruct (continue_coherent s H) as (_ & _ & Hev).
           now apply (Hev _ E).
        -- injection E as <- E. specialize (Hnc pre n post E).
           rewrite Hs1 in Hnc.
           change (fst (TreeRuntime.continue s) :: pre)
             with ([fst (TreeRuntime.continue s)] ++ pre).
           rewrite node_starts_app. now rewrite app_assoc.
Qed.

Lemma begins_coherent (s : TreeRuntime.t) :
  TreeHistory.begins s -> TreeHistory.coherent s.
Proof.
  intros (H1 & H2 & H3). unfold TreeHistory.coherent. rewrite H1, H2, H3.
  repeat split; try constructor. discriminate.
Qed.

(** The constructor, [reset] and [loadProgram] begin a run. *)
Lemma run_begins (tr parsed : DialogueTree) (s : TreeRuntime.t) :
  TreeHistory.begins (TreeRuntime.create tr)
  /\ TreeHistory.begins (TreeRuntime.reset s)
  /\ TreeHistory.begins (TreeRuntime.loadProgram parsed s).
Proof. repeat split. Qed.

(** X1.  Within a run, [node_start] is returned at most once for a node name,
    however often the node is visited again. *)
Theorem node_start_once_per_run
  (calls : list TreeRuns.RuntimeCall) (s : TreeRuntime.t) :
  TreeHistory.begins s ->
  NoDup (TreeHistory.node_starts (TreeRuns.returned calls s)).
Proof.
  intros B. pose proof B as (Hs & _ & _).
  destruct (run_coherent calls s (begins_coherent s B)) as ((Hnd & _) & E & _).
  rewrite E, Hs in Hnd. exact Hnd.
Qed.

(** X2.  Within a run, a [node_complete] is returned only for a node whose
    [node_start] was returned before it. *)
Theorem node_complete_follows_node_start
  (calls : list TreeRuns.RuntimeCall) (s : TreeRuntime.t)
  (pre post : list (option RuntimeEvent)) (nodeName : string) :
  TreeHistory.begins s ->
  TreeRuns.returned calls s = pre ++ Some (NodeCompleteEvent nodeName) :: post ->
  In nodeName (TreeHistory.node_starts pre).
Proof.
  intros B E. pose proof B as (Hs & _ & _).
  destruct (run_coherent calls s (begins_coherent s B)) as (_ & _ & _ & H).
  specialize (H pre nodeName post E). now rewrite Hs in H.
Qed.

(** X3.  The reference runtime never returns a [command] event. *)
Theorem reference_runtime_returns_no_command
  (calls : list TreeRuns.RuntimeCall) (s : TreeRuntime.t) (text : string) :
  TreeHistory.begins s ->
  ~ In (Some (CommandEvent text)) (TreeRuns.returned calls s).
Proof.
  intros B I.
  destruct (run_coherent calls s (begins_coherent s B)) as (_ & _ & H & _).
  rewrite Forall_forall in H. specialize (H _ I _ eq_refl). discriminate.
Qed.

Lemma node_start_once_per_run_witness :
  TreeHistory.begins (TreeRuntime.create Graphs.circle)
  /\ NoDup (TreeHistory.node_starts
              (TreeRuns.returned (repeat TreeRuns.CallContinue 8)
                                 (TreeRuntime.create Graphs.circle))).
Proof.
  split; [repeat split|].
  apply node_start_once_per_run. repeat split.
Defined.

Lemma node_complete_follows_node_start_witness :
  let pre := [Some (NodeStartEvent "A"); Some (PrepareForLinesEvent ["A"]);
              Some (LineEvent "A" [])] in
  let post := [Some (PrepareForLinesEvent ["A"])] in
  TreeHistory.begins (TreeRuntime.create Graphs.circle)
  /\ TreeRuns.returned (repeat TreeRuns.CallContinue 5)
                       (TreeRuntime.create Graphs.circle)
     = pre ++ Some (NodeCompleteEvent "A") :: post
  /\ In "A" (TreeHistory.node_starts pre).
Proof.
  cbv zeta. split; [repeat split|]. split; [reflexivity|].
  apply (node_complete_follows_node_start
           (repeat TreeRuns.CallContinue 5) (TreeRuntime.create Graphs.circle)
           _ [Some (PrepareForLinesEvent ["A"])] "A").
  - repeat split.
  - reflexivity.
Defined.

Lemma reference_runtime_returns_no_command_witness :
  TreeHistory.begins (TreeRuntime.create Scenarios.shop)
  /\ ~ In (Some (CommandEvent "stop"))
          (TreeRuns.returned
             [TreeRuns.CallContinue; TreeRuns.CallContinue; TreeRuns.CallContinue;
              TreeRuns.CallSetSelectedOption 0; TreeRuns.CallContinue]
             (TreeRuntime.create Scenarios.shop)).
Proof.
  split; [repeat split|].
  apply reference_runtime_returns_no_command. repeat split.
Defined.

(* ------------------------------------------------------------------ *)
(** ** The reference runtime: positions that lead nowhere *)

(** X4.  [setNode] does not look the node up: a name that is empty, or that
    the node table has neither of its own nor by inheritance, ends the
    dialogue at the next step. *)
Theorem setNode_unknown_ends_dialogue (nodeName : string) (s : TreeRuntime.t) :
  TreeRuntime.isComplete s = false ->
  truthy nodeName = false \/ Graphs.absent nodeName (TreeRuntime.tree s) ->
  exists s',
    TreeRuntime.continue (TreeRuntime.setNode nodeName s)
    = (Some DialogueCompleteEvent, s')
    /\ TreeRuntime.isComplete s' = true
    /\ TreeRuntime.pendingEvents s' = [].
Proof.
  intros Hc H. unfold TreeRuntime.continue. simpl. rewrite Hc. simpl.
  unfold TreeRuntime.populateEventsForCurrentNode. simpl. rewrite Hc.
  destruct (truthy nodeName) eqn:Ht; simpl.
  - destruct H as [H | [H _]]; [discriminate|]. rewrite H. simpl.
    eexists. repeat split.
  - eexists. repeat split.
Qed.

Lemma setNode_unknown_ends_dialogue_witness :
  TreeRuntime.isComplete (TreeRuntime.create Scenarios.shop) = false
  /\ Graphs.absent "cellar" (TreeRuntime.tree (TreeRuntime.create Scenarios.shop))
  /\ exists s',
       TreeRuntime.continue (TreeRuntime.setNode "cellar" (TreeRuntime.create Scenarios.shop))
       = (Some DialogueCompleteEvent, s')
       /\ TreeRuntime.isComplete s' = true
       /\ TreeRuntime.pendingEvents s' = [].
Proof.
  assert (A : Graphs.absent "cellar"
                (TreeRuntime.tree (TreeRuntime.create Scenarios.shop))).
  { split; [reflexivity|]. simpl. intuition discriminate. }
  split; [reflexivity|]. split; [exact A|].
  apply setNode_unknown_ends_dialogue; [reflexivity | right; exact A].
Defined.

(** X5.  [loadProgram] starts over on the new tree whatever the runtime was
    doing: the next step enters the new start node, or ends the dialogue
    when the new tree has no such node; the variables are kept. *)
Theorem loadProgram_starts_over (parsed : DialogueTree) (s : TreeRuntime.t) :
  let s1 := TreeRuntime.loadProgram parsed s in
  TreeRuntime.variables s1 = TreeRuntime.variables s
  /\ (forall node,
        truthy (startNodeId parsed) = true ->
        TreeRuntime.lookup_node (startNodeId parsed) (nodes parsed) = Some node ->
        fst (TreeRuntime.continue s1) = Some (NodeStartEvent (node_id node))
        /\ TreeRuntime.startedNodes (snd (TreeRuntime.continue s1)) = [node_id node])
  /\ (truthy (startNodeId parsed) = false
      \/ Graphs.absent (startNodeId parsed) parsed ->
      fst (TreeRuntime.continue s1) = Some DialogueCompleteEvent).
Proof.
  cbv zeta. split; [reflexivity|]. split.
  - intros node Ht Hl. unfold TreeRuntime.continue. simpl.
    unfold TreeRuntime.populateEventsForCurrentNode. simpl.
    rewrite Ht, Hl. simpl. split; reflexivity.
  - intros H. unfold TreeRuntime.continue. simpl.
    unfold TreeRuntime.populateEventsForCurrentNode. simpl.
    destruct (truthy (startNodeId parsed)) eqn:Ht; simpl; [|reflexivity].
    destruct H as [H | [H _]]; [discriminate|]. now rewrite H.
Qed.

(* ------------------------------------------------------------------ *)
(** ** The reference runtime: a choice node from options to selection *)

Lemma mapi_from_nth {A B} (f : A -> nat -> B) (i k : nat) (l : list A) :
  nth_error (mapi_from f i l) k
  = match nth_error l k with
    | Some x => Some (f x (i + k))
    | None => None
    end.
Proof.
  revert i k. induction l as [|x l IH]; intros i k.
  - now destruct k.
  - destruct k as [|k]; simpl.
    + now rewrite Nat.add_0_r.
    + rewrite IH. now rewrite Nat.add_succ_r.
Qed.

Lemma mapi_from_length {A B} (f : A -> nat -> B) (i : nat) (l : list A) :
  length (mapi_from f i l) = length l.
Proof. revert i. induction l as [|x l IH]; intros i; simpl; auto. Qed.

(** X6.  At a choice node that has been entered, two steps return the
    lines to prepare and the option set; the runtime then waits.  The
    options are the choices, one for one and in their order: the option at
    position [k] has the id [k]; its line id is the line id of the choice
    at position [k], or the id of that choice when it has no line id or an
    empty one; it is enabled unless the choice says otherwise; and it
    announces the next node of the choice.  The lines to prepare are the
    line ids of the options.  Selecting the id [k] leaves the node and moves
    the runtime to the next node of that choice, whether or not the option
    is enabled. *)
Theorem options_lead_where_they_announce
  (s : TreeRuntime.t) (id : string) (choices : list PlayerChoice) :
  TreeRuns.at_started_node s (PlayerNode id choices) ->
  TreeRuntime.isComplete s = false ->
  TreeRuntime.waitingForOption s = false ->
  TreeRuntime.pendingEvents s = [] ->
  exists options s1 s2,
    TreeRuntime.continue s
    = (Some (PrepareForLinesEvent (map opt_lineId options)), s1)
    /\ TreeRuntime.continue s1 = (Some (OptionsEvent options), s2)
    /\ TreeRuntime.isWaitingForOption s2 = true
    /\ length options = length choices
    /\ forall k choice,
         nth_error choices k = Some choice ->
         exists opt,
           nth_error options k = Some opt
           /\ opt_id opt = k
           /\ opt_lineId opt
              = match choice_lineId choice with
                | Some (String c rest) => String c rest
                | Some EmptyString | None => choice_id choice
                end
           /\ opt_enabled opt
              = match choice_enabled choice with
                | Some enabled => enabled
                | None => true
                end
           /\ opt_destinationNode opt = choice_nextNodeId choice
           /\ exists s3 s4,
                TreeRuntime.setSelectedOption (Z.of_nat k) s2 = (None, s3)
                /\ TreeRuntime.continue s3 = (Some (NodeCompleteEvent id), s4)
                /\ TreeRuntime.currentNodeId s4 = choice_nextNodeId choice.
Proof.
  intros (cur & Hcur & Ht & Hl & Hs) Hc Hw Hp.
  exists (mapi_from TreeRuntime.choice_option 0 choices).
  unfold TreeRuntime.continue at 1. rewrite Hc, Hw, Hp. simpl.
  unfold TreeRuntime.populateEventsForCurrentNode.
  rewrite Hc, Hcur, Ht, Hl. simpl in Hs |- *. rewrite Hs. simpl. rewrite Hp. simpl.
  eexists. eexists. split; [reflexivity|].
  unfold TreeRuntime.continue at 1. simpl. rewrite Hc, Hw. simpl.
  split; [reflexivity|]. split; [reflexivity|].
  split; [apply mapi_from_length|].
  intros k choice Hch. rewrite mapi_from_nth, Hch.
  eexists. split; [reflexivity|]. simpl.
  split; [reflexivity|].
  split; [destruct (choice_lineId choice) as [[|c rest]|]; reflexivity|].
  split; [destruct (choice_enabled choice); reflexivity|].
  split; [reflexivity|].
  unfold TreeRuntime.setSelectedOption. simpl.
  unfold array_get.
  replace (0 <=? Z.of_nat k)%Z with true by (symmetry; apply Z.leb_le; lia).
  rewrite Nat2Z.id, Hch.
  eexists. eexists. split; [reflexivity|].
  unfold TreeRuntime.continue. simpl. rewrite Hc. simpl.
  split; reflexivity.
Qed.

Lemma options_lead_where_they_announce_witness :
  let s := snd (TreeRuntime.continue (TreeRuntime.create Scenarios.shop)) in
  TreeRuns.at_started_node s (PlayerNode "player" [Scenarios.buyChoice; Scenarios.chatChoice])
  /\ TreeRuntime.isComplete s = false
  /\ TreeRuntime.waitingForOption s = false
  /\ TreeRuntime.pendingEvents s = []
  /\ nth_error [Scenarios.buyChoice; Scenarios.chatChoice] 1
     = Some Scenarios.chatChoice
  /\ exists options s1 s2 opt s3 s4,
       TreeRuntime.continue s
       = (Some (PrepareForLinesEvent (map opt_lineId options)), s1)
       /\ TreeRuntime.continue s1 = (Some (OptionsEvent options), s2)
       /\ length options = 2
       /\ nth_error options 1 = Some opt
       /\ opt_id opt = 1
       /\ opt_lineId opt = "chat"
       /\ opt_enabled opt = true
       /\ opt_destinationNode opt = Some "npc_chat"
       /\ TreeRuntime.setSelectedOption 1 s2 = (None, s3)
       /\ TreeRuntime.continue s3 = (Some (NodeCompleteEvent "player"), s4)
       /\ TreeRuntime.currentNodeId s4 = Some "npc_chat".
Proof.
  cbv zeta.
  assert (N : TreeRuns.at_started_node
                (snd (TreeRuntime.continue (TreeRuntime.create Scenarios.shop)))
                (PlayerNode "player" [Scenarios.buyChoice; Scenarios.chatChoice])).
  { exists "player". repeat split. }
  split; [exact N|]. repeat (split; [reflexivity|]).
  destruct (options_lead_where_they_announce _ "player"
              [Scenarios.buyChoice; Scenarios.chatChoice] N eq_refl eq_refl
              eq_refl)
    as (options & s1 & s2 & E1 & E2 & _ & Hlen & Hopt).
  destruct (Hopt 1 Scenarios.chatChoice eq_refl)
    as (opt & Hk & Hid & Hline & Hen & Hdest & s3 & s4 & E3 & E4 & Hcur).
  exists options, s1, s2, opt, s3, s4.
  repeat (split; [assumption|]). exact Hcur.
Defined.

(* ------------------------------------------------------------------ *)
(** ** The reference runtime: waiting for an option *)

Lemma idle_call_keeps_waiting (c : TreeRuns.RuntimeCall) (s : TreeRuntime.t) :
  TreeHistory.is_idle_call c = true ->
  TreeRuntime.waitingForOption s = true ->
  TreeRuntime.waitingForOption (TreeRuns.after_call c s) = true
  /\ TreeRuns.pendingOptionSet (TreeRuns.after_call c s) = TreeRuns.pendingOptionSet s
  /\ TreeRuntime.currentNodeId (TreeRuns.after_call c s) = TreeRuntime.currentNodeId s
  /\ Forall (fun e => e = None) (TreeRuns.returned [c] s).
Proof.
  intros Hi Hw. destruct c; try discriminate; simpl.
  - unfold TreeRuntime.continue. rewrite Hw, orb_true_r. simpl.
    repeat split; auto.
  - unfold TreeRuns.pendingOptionSet. simpl. repeat split; auto.
Qed.

(** X7.  Once the option set has been returned the runtime stands still: until
    an option is selected or the runtime is moved, every step returns null
    and the option set stays pending. *)
Theorem options_block_the_runtime
  (s s' : TreeRuntime.t) (options : list OptionInfo)
  (calls : list TreeRuns.RuntimeCall) :
  TreeRuntime.continue s = (Some (OptionsEvent options), s') ->
  forallb TreeHistory.is_idle_call calls = true ->
  Forall (fun e => e = None) (TreeRuns.returned calls s')
  /\ TreeRuntime.isWaitingForOption (TreeRuns.after_calls calls s') = true
  /\ TreeRuns.pendingOptionSet (TreeRuns.after_calls calls s')
     = TreeRuns.pendingOptionSet s'
  /\ TreeRuntime.currentNodeId (TreeRuns.after_calls calls s')
     = TreeRuntime.currentNodeId s'.
Proof.
  intros Hstep.
  assert (Hw : TreeRuntime.waitingForOption s' = true).
  { revert Hstep. unfold TreeRuntime.continue.
    destruct (TreeRuntime.isComplete s || TreeRuntime.waitingForOption s);
      [discriminate|].
    match goal with
    | |- context [TreeRuntime.pendingEvents ?x] =>
        destruct (TreeRuntime.pendingEvents x) as [|e rest]
    end; [discriminate|].
    intros E. injection E as -> <-. reflexivity. }
  clear Hstep. revert s' Hw.
  induction calls as [|c calls IH]; intros s' Hw Hcalls.
  - simpl. repeat split; auto.
  - simpl in Hcalls. apply andb_true_iff in Hcalls. destruct Hcalls as [Hc Hcalls].
    destruct (idle_call_keeps_waiting c s' Hc Hw) as (Hw1 & Hp1 & Hn1 & Hr1).
    destruct (IH _ Hw1 Hcalls) as (Hr & Hw2 & Hp2 & Hn2).
    change (TreeRuns.after_calls (c :: calls) s')
      with (TreeRuns.after_calls calls (TreeRuns.after_call c s')).
    rewrite returned_cons. repeat split.
    + apply Forall_app. now split.
    + exact Hw2.
    + now rewrite Hp2.
    + now rewrite Hn2.
Qed.

Lemma options_block_the_runtime_witness :
  let s := TreeRuns.after_calls [TreeRuns.CallContinue; TreeRuns.CallContinue]
                                (TreeRuntime.create Scenarios.shop) in
  let calls := [TreeRuns.CallContinue;
                TreeRuns.CallSetVariable "gold" (VBoolean true);
                TreeRuns.CallContinue] in
  (exists options s', TreeRuntime.continue s = (Some (OptionsEvent options), s')
     /\ Forall (fun e => e = None) (TreeRuns.returned calls s')
     /\ TreeRuntime.isWaitingForOption (TreeRuns.after_calls calls s') = true)
  /\ forallb TreeHistory.is_idle_call calls = true.
Proof.
  cbv zeta. split; [|reflexivity].
  eexists. eexists. split; [reflexivity|].
  destruct (options_block_the_runtime
              (TreeRuns.after_calls [TreeRuns.CallContinue; TreeRuns.CallContinue]
                                    (TreeRuntime.create Scenarios.shop))
              _ _
              [TreeRuns.CallContinue;
               TreeRuns.CallSetVariable "gold" (VBoolean true);
               TreeRuns.CallContinue]
              eq_refl eq_refl) as (H1 & H2 & _).
  split; [exact H1 | exact H2].
Defined.

(** X8.  A choice node without choices is a dead end: it presents an empty
    option set, after which every selection raises and every step returns
    null. *)
Theorem empty_choice_node_is_a_dead_end
  (s : TreeRuntime.t) (id : string) :
  TreeRuns.at_started_node s (PlayerNode id []) ->
  TreeRuntime.isComplete s = false ->
  TreeRuntime.waitingForOption s = false ->
  TreeRuntime.pendingEvents s = [] ->
  exists s1 s2,
    TreeRuntime.continue s = (Some (PrepareForLinesEvent []), s1)
    /\ TreeRuntime.continue s1 = (Some (OptionsEvent []), s2)
    /\ (forall optionId,
          TreeRuntime.setSelectedOption optionId s2
          = (Some (InvalidOptionIdError optionId), s2))
    /\ TreeRuntime.continue s2 = (None, s2)
    /\ TreeRuntime.isDialogueComplete s2 = false.
Proof.
  intros (cur & Hcur & Ht & Hl & Hs) Hc Hw Hp.
  unfold TreeRuntime.continue at 1. rewrite Hc, Hw, Hp. simpl.
  unfold TreeRuntime.populateEventsForCurrentNode.
  rewrite Hc, Hcur, Ht, Hl. simpl in Hs |- *. rewrite Hs. simpl. rewrite Hp. simpl.
  eexists. eexists. split; [reflexivity|].
  unfold TreeRuntime.continue. simpl. rewrite Hc, Hw. simpl.
  split; [reflexivity|].
  split; [|split; [simpl; rewrite Hc; reflexivity | exact Hc]].
  intros optionId. unfold TreeRuntime.setSelectedOption, array_get. simpl.
  destruct (0 <=? optionId)%Z; [|reflexivity].
  now destruct (Z.to_nat optionId).
Qed.

Lemma empty_choice_node_is_a_dead_end_witness :
  let s := snd (TreeRuntime.continue (TreeRuntime.create Graphs.deadEnd)) in
  TreeRuns.at_started_node s (PlayerNode "ask" [])
  /\ TreeRuntime.isComplete s = false
  /\ TreeRuntime.waitingForOption s = false
  /\ TreeRuntime.pendingEvents s = []
  /\ exists s1 s2,
       TreeRuntime.continue s = (Some (PrepareForLinesEvent []), s1)
       /\ TreeRuntime.continue s1 = (Some (OptionsEvent []), s2)
       /\ (forall optionId,
             TreeRuntime.setSelectedOption optionId s2
             = (Some (InvalidOptionIdError optionId), s2))
       /\ TreeRuntime.continue s2 = (None, s2)
       /\ TreeRuntime.isDialogueComplete s2 = false.
Proof.
  cbv zeta.
  assert (N : TreeRuns.at_started_node
                (snd (TreeRuntime.continue (TreeRuntime.create Graphs.deadEnd)))
                (PlayerNode "ask" [])).
  { exists "ask". repeat split. }
  split; [exact N|]. repeat (split; [reflexivity|]).
  exact (empty_choice_node_is_a_dead_end _ "ask" N eq_refl eq_refl eq_refl).
Defined.

(* ------------------------------------------------------------------ *)
(** ** command-dispatcher.ts: tokens *)

Lemma is_plain_spec (c : ascii) :
  CommandLines.is_plain c = true ->
  JsString.is_whitespace c = false /\ Commands.is_quote c = false
  /\ Ascii.eqb c " " = false.
Proof.
  unfold CommandLines.is_plain. intros H.
  apply andb_true_iff in H. destruct H as [Hw Hq].
  apply negb_true_iff in Hw. apply negb_true_iff in Hq.
  repeat split; auto.
  destruct (Ascii.eqb c " ") eqn:E; [|reflexivity].
  apply Ascii.eqb_eq in E. subst c. discriminate.
Qed.

Lemma same_char_quote_state (quoteChar : option ascii) (c : ascii) :
  CommandLines.quote_state quoteChar ->
  Commands.is_quote c = false ->
  Commands.same_char quoteChar c = false.
Proof.
  destruct quoteChar as [q|]; simpl; [|reflexivity].
  intros Hq Hc. destruct (Ascii.eqb c q) eqn:E; [|reflexivity].
  apply Ascii.eqb_eq in E. congruence.
Qed.

Lemma string_app_nil_r (s : string) : (s ++ "")%string = s.
Proof. induction s as [|c s IH]; simpl; congruence. Qed.

(** The characters of a plain word go to the current token, inside a
    quotation and outside. *)
Lemma tokenize_loop_plain (w rest : string) (tokens : list string)
  (current : string) (inQuotes : bool) (quoteChar : option ascii) :
  CommandLines.plain w = true ->
  CommandLines.quote_state quoteChar ->
  Commands.tokenize_loop (w ++ rest) tokens current inQuotes quoteChar
  = Commands.tokenize_loop rest tokens (current ++ w) inQuotes quoteChar.
Proof.
  revert current. induction w as [|c w IH]; intros current Hw Hq.
  - simpl. now rewrite string_app_nil_r.
  - simpl in Hw. apply andb_true_iff in Hw. destruct Hw as [Hc Hw].
    destruct (is_plain_spec c Hc) as (_ & Hcq & Hcs).
    simpl. rewrite Hcq, (same_char_quote_state quoteChar c Hq Hcq), Hcs. simpl.
    rewrite IH by assumption.
    now rewrite string_app_assoc.
Qed.

Lemma word_spec (w : string) :
  CommandLines.word w = true -> truthy w = true /\ CommandLines.plain w = true.
Proof. unfold CommandLines.word. intros H. now apply andb_true_iff in H. Qed.

Lemma tokenize_loop_join (words tokens : list string) :
  Forall (fun w => CommandLines.word w = true) words ->
  Commands.tokenize_loop (String.concat " " words) tokens EmptyString false None
  = tokens ++ words.
Proof.
  intros H. revert tokens. induction H as [|w ws Hw Hws IH]; intros tokens.
  - simpl. now rewrite app_nil_r.
  - destruct (word_spec w Hw) as [Ht Hp].
    destruct ws as [|w' ws].
    + simpl. rewrite <- (string_app_nil_r w) at 1.
      rewrite tokenize_loop_plain by (auto; exact I).
      simpl. now rewrite Ht.
    + change (String.concat " " (w :: w' :: ws))
        with (w ++ " " ++ String.concat " " (w' :: ws))%string.
      rewrite tokenize_loop_plain by (auto; exact I).
      change (" " ++ String.concat " " (w' :: ws))%string
        with (String " " (String.concat " " (w' :: ws))).
      cbn [Commands.tokenize_loop append]. simpl Commands.is_quote.
      cbn [andb negb Commands.same_char Ascii.eqb Bool.eqb]. rewrite Ht.
      rewrite IH. now rewrite <- app_assoc.
Qed.

Lemma trimEnd_plain (w : string) :
  CommandLines.plain w = true -> JsString.trimEnd w = w.
Proof.
  induction w as [|c w IH]; intros H; [reflexivity|].
  simpl in H. apply andb_true_iff in H. destruct H as [Hc Hw].
  destruct (is_plain_spec c Hc) as (Hcw & _ & _).
  simpl. rewrite IH by assumption. rewrite Hcw.
  now rewrite andb_false_r.
Qed.

Lemma truthy_app_r (p t : string) :
  truthy t = true -> truthy (p ++ t)%string = true.
Proof. destruct p; simpl; auto. Qed.

Lemma trimEnd_app (p t : string) :
  truthy t = true -> JsString.trimEnd t = t ->
  JsString.trimEnd (p ++ t) = (p ++ t)%string.
Proof.
  intros Ht He. induction p as [|c p IH]; [exact He|].
  simpl. rewrite IH. now rewrite (truthy_app_r p t Ht).
Qed.

Lemma truthy_join (w : string) (ws : list string) :
  truthy w = true -> truthy (String.concat " " (w :: ws)) = true.
Proof.
  intros H. destruct ws; simpl; [exact H|].
  destruct w; [discriminate | reflexivity].
Qed.

Lemma trimEnd_join (words : list string) :
  Forall (fun w => CommandLines.word w = true) words ->
  JsString.trimEnd (String.concat " " words) = String.concat " " words.
Proof.
  induction 1 as [|w ws Hw Hws IH]; [reflexivity|].
  destruct (word_spec w Hw) as [Ht Hp].
  destruct ws as [|w' ws]; [now apply trimEnd_plain|].
  change (String.concat " " (w :: w' :: ws))
    with (w ++ String " " (String.concat " " (w' :: ws)))%string.
  apply trimEnd_app; [reflexivity|].
  inversion Hws as [|? ? Hw' _]; subst.
  destruct (word_spec w' Hw') as [Ht' _].
  cbn [JsString.trimEnd].
  rewrite IH. now rewrite (truthy_join w' ws Ht').
Qed.

Lemma trim_join (words : list string) :
  Forall (fun w => CommandLines.word w = true) words ->
  JsString.trim (String.concat " " words) = String.concat " " words.
Proof.
  intros H. unfold JsString.trim.
  assert (Hs : JsString.trimStart (String.concat " " words)
               = String.concat " " words).
  { destruct H as [|w ws Hw Hws]; [reflexivity|].
    destruct (word_spec w Hw) as [Ht Hp].
    destruct w as [|c w]; [discriminate|].
    simpl in Hp. apply andb_true_iff in Hp. destruct Hp as [Hc _].
    destruct (is_plain_spec c Hc) as (Hcw & _ & _).
    destruct ws; simpl; now rewrite Hcw. }
  rewrite Hs. now apply trimEnd_join.
Qed.

Lemma parseCommand_join (command : string) (args : list string) :
  Forall (fun w => CommandLines.word w = true) (command :: args) ->
  Commands.parseCommand (String.concat " " (command :: args))
  = Some (command, args).
Proof.
  intros H. unfold Commands.parseCommand. rewrite (trim_join _ H).
  inversion H as [|? ? Hw _]; subst.
  destruct (word_spec command Hw) as [Ht _].
  rewrite (truthy_join command args Ht). simpl negb. cbv iota.
  unfold Commands.tokenize. now rewrite (tokenize_loop_join _ [] H).
Qed.

(** X9.  A handler registered under a name is the one that a command line with
    that name reaches, whatever the case of the letters on either side,
    and it receives the words after the name, in their order. *)
Theorem registered_handler_receives_the_arguments
  (name command : string) (args : list string)
  (handler : Commands.CommandHandler) (d : Commands.CommandDispatcher) :
  Forall (fun w => CommandLines.word w = true) (command :: args) ->
  JsString.toLowerCase command = JsString.toLowerCase name ->
  Commands.dispatch (String.concat " " (command :: args))
                    (Commands.on name handler d)
  = (true, handler args)
  /\ Commands.hasHandler command (Commands.on name handler d) = true.
Proof.
  intros Hw Hn. unfold Commands.dispatch, Commands.hasHandler, JsMap.has.
  rewrite (parseCommand_join _ _ Hw). rewrite Hn. simpl.
  now rewrite JsMap_get_set_same.
Qed.

Lemma registered_handler_receives_the_arguments_witness :
  Forall (fun w => CommandLines.word w = true) ["CAMERA"; "pan"; "left"]
  /\ Commands.dispatch "CAMERA pan left"
       (Commands.on "Camera" (fun args => Commands.CtxContinue Commands.CtxReturn)
                    Commands.createDefaultDispatcher)
     = (true, Commands.CtxContinue Commands.CtxReturn).
Proof.
  assert (W : Forall (fun w => CommandLines.word w = true)
                     ["CAMERA"; "pan"; "left"]).
  { repeat constructor. }
  split; [exact W|].
  exact (proj1 (registered_handler_receives_the_arguments
                  "Camera" "CAMERA" ["pan"; "left"]
                  (fun args => Commands.CtxContinue Commands.CtxReturn)
                  Commands.createDefaultDispatcher W eq_refl)).
Defined.

Lemma tokenize_loop_nonempty (text : string) (tokens : list string)
  (current : string) (inQuotes : bool) (quoteChar : option ascii) :
  Forall (fun t => truthy t = true) tokens ->
  Forall (fun t => truthy t = true)
         (Commands.tokenize_loop text tokens current inQuotes quoteChar).
Proof.
  revert tokens current inQuotes quoteChar.
  induction text as [|c text IH]; intros tokens current inQuotes quoteChar H.
  - simpl. destruct (truthy current) eqn:E; [|exact H].
    apply Forall_app. split; [exact H|]. now constructor.
  - simpl.
    destruct (Commands.is_quote c && negb inQuotes); [now apply IH|].
    destruct (Commands.same_char quoteChar c && inQuotes); [now apply IH|].
    destruct (Ascii.eqb c " " && negb inQuotes); [|now apply IH].
    destruct (truthy current) eqn:E; [|now apply IH].
    apply IH. apply Forall_app. split; [exact H|]. now constructor.
Qed.

(** X10.  The name and the arguments that a command line is parsed into are
    never empty strings: a pair of quotation marks with nothing between
    them gives no argument. *)
Theorem parsed_command_has_no_empty_word
  (text command : string) (args : list string) :
  Commands.parseCommand text = Some (command, args) ->
  truthy command = true /\ Forall (fun a => truthy a = true) args.
Proof.
  unfold Commands.parseCommand.
  destruct (negb (truthy (JsString.trim text))); [discriminate|].
  pose proof (tokenize_loop_nonempty (JsString.trim text) [] EmptyString
                false None (Forall_nil _)) as H.
  fold (Commands.tokenize (JsString.trim text)) in H.
  destruct (Commands.tokenize (JsString.trim text)) as [|c a]; [discriminate|].
  intros E. injection E as <- <-.
  inversion H; subst. now split.
Qed.

Lemma parsed_command_has_no_empty_word_witness :
  Commands.parseCommand ("set $name " ++ CommandLines.quoted Commands.double_quote "")
  = Some ("set", ["$name"])
  /\ truthy "set" = true /\ Forall (fun a => truthy a = true) ["$name"].
Proof.
  split; [reflexivity|].
  exact (parsed_command_has_no_empty_word
           ("set $name " ++ CommandLines.quoted Commands.double_quote "")
           "set" ["$name"] eq_refl).
Defined.

Lemma tokenize_loop_quoted (q : ascii) (w post : string)
  (tokens : list string) (current : string) :
  Commands.is_quote q = true ->
  CommandLines.plain w = true ->
  Commands.tokenize_loop (CommandLines.quoted q w ++ post) tokens current
                         false None
  = Commands.tokenize_loop (w ++ post) tokens current false None.
Proof.
  intros Hq Hw. unfold CommandLines.quoted.
  cbn [append Commands.tokenize_loop]. rewrite Hq. cbn [negb andb].
  rewrite string_app_assoc.
  rewrite tokenize_loop_plain by (auto; exact Hq).
  rewrite (tokenize_loop_plain w post) by (auto; exact I).
  cbn [append Commands.tokenize_loop]. rewrite Hq. cbn [negb andb].
  unfold Commands.same_char. rewrite Ascii.eqb_refl. reflexivity.
Qed.

Lemma tokenize_loop_quote_free (pre : string) :
  CommandLines.quote_free pre = true ->
  forall (tokens : list string) (current : string),
  exists tokens' current',
    forall rest,
      Commands.tokenize_loop (pre ++ rest) tokens current false None
      = Commands.tokenize_loop rest tokens' current' false None.
Proof.
  induction pre as [|c pre IH]; intros H tokens current.
  - exists tokens, current. reflexivity.
  - simpl in H. apply andb_true_iff in H. destruct H as [Hc Hp].
    apply negb_true_iff in Hc.
    cbn [append Commands.tokenize_loop]. rewrite Hc.
    cbn [andb negb Commands.same_char].
    destruct (Ascii.eqb c " "); cbn [andb negb].
    + destruct (truthy current); apply IH; assumption.
    + apply IH; assumption.
Qed.

(** Quotation marks around a word that has no space and no quotation mark
    in it change nothing in the tokens. *)
Lemma tokenize_quoted_word (pre w post : string) (q : ascii) :
  CommandLines.quote_free pre = true ->
  CommandLines.plain w = true ->
  Commands.is_quote q = true ->
  Commands.tokenize (pre ++ CommandLines.quoted q w ++ post)
  = Commands.tokenize (pre ++ w ++ post).
Proof.
  intros Hp Hw Hq. unfold Commands.tokenize.
  destruct (tokenize_loop_quote_free pre Hp [] EmptyString)
    as (tokens' & current' & E).
  rewrite !E. now apply tokenize_loop_quoted.
Qed.

Lemma is_quote_not_whitespace (q : ascii) :
  Commands.is_quote q = true -> JsString.is_whitespace q = false.
Proof.
  unfold Commands.is_quote. intros H. apply orb_true_iff in H.
  destruct H as [H|H]; apply Ascii.eqb_eq in H; subst q; reflexivity.
Qed.

Lemma plain_quote_free (w : string) :
  CommandLines.plain w = true -> CommandLines.quote_free w = true.
Proof.
  induction w as [|c w IH]; [reflexivity|]. simpl. intros H.
  apply andb_true_iff in H. destruct H as [Hc Hw].
  destruct (is_plain_spec c Hc) as (_ & Hq & _).
  rewrite Hq, IH by assumption. reflexivity.
Qed.

Lemma quote_free_app (a b : string) :
  CommandLines.quote_free a = true -> CommandLines.quote_free b = true ->
  CommandLines.quote_free (a ++ b) = true.
Proof.
  induction a as [|c a IH]; simpl; [auto|]. intros Ha Hb.
  apply andb_true_iff in Ha. destruct Ha as [Hc Ha].
  rewrite Hc, IH by assumption. reflexivity.
Qed.

(** X11.  A value in quotation marks reaches the [set] command without them, so
    that it is read as the bare word is: as a boolean or a number when it
    looks like one, and as a string only otherwise. *)
Theorem quoted_word_is_set_as_the_bare_word
  (name w : string) (q : ascii) :
  CommandLines.word name = true ->
  CommandLines.word w = true ->
  Commands.is_quote q = true ->
  Commands.dispatch ("set " ++ name ++ " " ++ CommandLines.quoted q w)
                    Commands.createDefaultDispatcher
  = (true,
     Commands.CtxSetVariable (Commands.strip_dollar name)
       (Commands.parseValue w)
       (Commands.CtxContinue Commands.CtxReturn)).
Proof.
  intros Hn Hw Hq.
  destruct (word_spec name Hn) as [Hnt Hnp].
  destruct (word_spec w Hw) as [Hwt Hwp].
  assert (Htrim : JsString.trim ("set " ++ name ++ " " ++ CommandLines.quoted q w)
                  = ("set " ++ name ++ " " ++ CommandLines.quoted q w)%string).
  { unfold JsString.trim. cbn [append JsString.trimStart].
    change (JsString.is_whitespace "s") with false. cbv iota.
    change (String "s" (String "e" (String "t" (String " "
              (name ++ String " " (CommandLines.quoted q w))))))
      with ("set " ++ name ++ " " ++ String q w ++ String q EmptyString)%string.
    rewrite <- !string_app_assoc.
    apply trimEnd_app; [reflexivity|].
    simpl. now rewrite (is_quote_not_whitespace q Hq). }
  assert (Htok : Commands.tokenize
                   ("set " ++ name ++ " " ++ CommandLines.quoted q w)
                 = ["set"; name; w]).
  { rewrite <- (string_app_nil_r (CommandLines.quoted q w)).
    rewrite <- !string_app_assoc.
    rewrite (string_app_assoc _ (CommandLines.quoted q w) "").
    rewrite tokenize_quoted_word; auto.
    - rewrite string_app_nil_r, !string_app_assoc.
      change ("set " ++ name ++ " " ++ w)%string
        with (String.concat " " ["set"; name; w]).
      unfold Commands.tokenize. rewrite tokenize_loop_join; [reflexivity|].
      repeat constructor; assumption.
    - apply quote_free_app; [|reflexivity].
      apply quote_free_app; [reflexivity|]. now apply plain_quote_free. }
  unfold Commands.dispatch, Commands.parseCommand.
  rewrite Htrim, Htok. reflexivity.
Qed.

Lemma quoted_word_is_set_as_the_bare_word_witness :
  CommandLines.word "$gold" = true
  /\ CommandLines.word "10" = true
  /\ Commands.is_quote Commands.double_quote = true
  /\ Commands.dispatch ("set $gold " ++ CommandLines.quoted Commands.double_quote "10")
                       Commands.createDefaultDispatcher
     = (true,
        Commands.CtxSetVariable "gold"
          (VNumber (NumDecimal false "10" "" 0))
          (Commands.CtxContinue Commands.CtxReturn)).
Proof.
  repeat (split; [reflexivity|]).
  exact (quoted_word_is_set_as_the_bare_word "$gold" "10" Commands.double_quote
           eq_refl eq_refl eq_refl).
Defined.

(* ------------------------------------------------------------------ *)
(** ** command-dispatcher.ts: the registered handlers *)

Lemma lower_char_idempotent (c : ascii) :
  JsString.lower_char (JsString.lower_char c) = JsString.lower_char c.
Proof. destruct c as [[] [] [] [] [] [] [] []]; reflexivity. Qed.

Lemma toLowerCase_idempotent (s : string) :
  JsString.toLowerCase (JsString.toLowerCase s) = JsString.toLowerCase s.
Proof.
  induction s as [|c s IH]; simpl; [reflexivity|].
  now rewrite lower_char_idempotent, IH.
Qed.

Lemma JsMap_keys_set {V} (k x : string) (v : V) (m : JsMap.t V) :
  In x (JsMap.keys (JsMap.set k v m)) -> x = k \/ In x (JsMap.keys m).
Proof.
  induction m as [|[k' v'] m IH]; simpl.
  - intros [H|[]]; auto.
  - destruct (String.eqb k k') eqn:E; simpl.
    + intros [H|H]; auto.
    + intros [H|H]; auto. destruct (IH H); auto.
Qed.

Lemma JsMap_set_NoDup {V} (k : string) (v : V) (m : JsMap.t V) :
  NoDup (JsMap.keys m) -> NoDup (JsMap.keys (JsMap.set k v m)).
Proof.
  induction m as [|[k' v'] m IH]; simpl; intros H.
  - constructor; [intros [] | constructor].
  - inversion H as [|? ? Hn Hm]; subst.
    destruct (String.eqb k k') eqn:E; simpl.
    + now constructor.
    + constructor; [|now apply IH].
      intros Hin. apply JsMap_keys_set in Hin. destruct Hin as [->|Hin]; auto.
      now rewrite String.eqb_refl in E.
Qed.

Lemma JsMap_keys_delete {V} (k x : string) (m : JsMap.t V) :
  In x (JsMap.keys (JsMap.delete k m)) -> In x (JsMap.keys m).
Proof.
  induction m as [|[k' v'] m IH]; simpl; [auto|].
  destruct (String.eqb k k'); simpl; [auto|].
  intros [H|H]; auto.
Qed.

Lemma JsMap_delete_NoDup {V} (k : string) (m : JsMap.t V) :
  NoDup (JsMap.keys m) -> NoDup (JsMap.keys (JsMap.delete k m)).
Proof.
  induction m as [|[k' v'] m IH]; simpl; intros H; [constructor|].
  inversion H as [|? ? Hn Hm]; subst.
  destruct (String.eqb k k'); simpl; [assumption|].
  constructor; [|now apply IH].
  intros Hin. now apply JsMap_keys_delete in Hin.
Qed.

Lemma JsMap_get_None {V} (k : string) (m : JsMap.t V) :
  ~ In k (JsMap.keys m) -> JsMap.get k m = None.
Proof.
  induction m as [|[k' v'] m IH]; simpl; [reflexivity|].
  intros H. destruct (String.eqb k k') eqn:E.
  - apply String.eqb_eq in E. subst. exfalso. auto.
  - apply IH. auto.
Qed.

Lemma JsMap_get_delete_same {V} (k : string) (m : JsMap.t V) :
  NoDup (JsMap.keys m) -> JsMap.get k (JsMap.delete k m) = None.
Proof.
  induction m as [|[k' v'] m IH]; simpl; intros H; [reflexivity|].
  inversion H as [|? ? Hn Hm]; subst.
  destruct (String.eqb k k') eqn:E.
  - apply String.eqb_eq in E. subst. now apply JsMap_get_None.
  - simpl. rewrite E. now apply IH.
Qed.

Lemma JsMap_get_delete_other {V} (k k' : string) (m : JsMap.t V) :
  k' <> k -> JsMap.get k' (JsMap.delete k m) = JsMap.get k' m.
Proof.
  intros Hne. induction m as [|[k0 v0] m IH]; simpl; [reflexivity|].
  destruct (String.eqb k k0) eqn:E.
  - apply String.eqb_eq in E. subst.
    destruct (String.eqb k' k0) eqn:E'; [|reflexivity].
    apply String.eqb_eq in E'. contradiction.
  - simpl. now rewrite IH.
Qed.

Lemma register_names (c : CommandLines.Registration)
  (d : Commands.CommandDispatcher) :
  NoDup (Commands.getRegisteredCommands d)
  /\ Forall (fun n => JsString.toLowerCase n = n)
            (Commands.getRegisteredCommands d) ->
  NoDup (Commands.getRegisteredCommands (CommandLines.register c d))
  /\ Forall (fun n => JsString.toLowerCase n = n)
            (Commands.getRegisteredCommands (CommandLines.register c d)).
Proof.
  unfold Commands.getRegisteredCommands. intros [Hn Hl].
  destruct c as [command handler|command|handler]; simpl; auto.
  - split; [now apply JsMap_set_NoDup|].
    apply Forall_forall. intros x Hx.
    apply JsMap_keys_set in Hx. destruct Hx as [->|Hx].
    + apply toLowerCase_idempotent.
    + rewrite Forall_forall in Hl. auto.
  - split; [now apply JsMap_delete_NoDup|].
    apply Forall_forall. intros x Hx.
    apply JsMap_keys_delete in Hx. rewrite Forall_forall in Hl. auto.
Qed.

Lemma registered_from_names (calls : list CommandLines.Registration)
  (d : Commands.CommandDispatcher) :
  NoDup (Commands.getRegisteredCommands d)
  /\ Forall (fun n => JsString.toLowerCase n = n)
            (Commands.getRegisteredCommands d) ->
  let d' := fold_left (fun d c => CommandLines.register c d) calls d in
  NoDup (Commands.getRegisteredCommands d')
  /\ Forall (fun n => JsString.toLowerCase n = n)
            (Commands.getRegisteredCommands d').
Proof.
  revert d. induction calls as [|c calls IH]; intros d H; [exact H|].
  simpl. apply IH. now apply register_names.
Qed.

(** X12.  However handlers are registered and removed, the registered command
    names are in lower case and no name is listed twice. *)
Theorem registered_names_are_lower_case_and_distinct
  (calls : list CommandLines.Registration) :
  NoDup (Commands.getRegisteredCommands (CommandLines.registered calls))
  /\ Forall (fun n => JsString.toLowerCase n = n)
            (Commands.getRegisteredCommands (CommandLines.registered calls)).
Proof.
  apply (registered_from_names calls Commands.create).
  split; constructor.
Qed.

(** X13.  After [off] a command line with the removed name, in any case of the
    letters, goes where a command without a handler goes: to the default
    handler, with its name before its arguments, or nowhere; every other
    command line is dispatched as before. *)
Theorem off_leaves_the_command_to_the_default
  (calls : list CommandLines.Registration)
  (name text command : string) (args : list string) :
  Commands.parseCommand text = Some (command, args) ->
  Commands.dispatch text
    (Commands.off name (CommandLines.registered calls))
  = if String.eqb (JsString.toLowerCase command) (JsString.toLowerCase name)
    then CommandLines.unregistered command args (CommandLines.registered calls)
    else Commands.dispatch text (CommandLines.registered calls).
Proof.
  intros Hp. unfold Commands.dispatch, CommandLines.unregistered.
  rewrite Hp. simpl.
  destruct (registered_from_names calls Commands.create (conj (NoDup_nil _) (Forall_nil _))) as [Hn _].
  destruct (String.eqb (JsString.toLowerCase command)
                       (JsString.toLowerCase name)) eqn:E.
  - apply String.eqb_eq in E. rewrite E.
    now rewrite JsMap_get_delete_same.
  - apply String.eqb_neq in E.
    now rewrite JsMap_get_delete_other.
Qed.

Lemma off_leaves_the_command_to_the_default_witness :
  let calls := [CommandLines.RegOn "Wait" Commands.wait_handler;
                CommandLines.RegSetDefault (fun words => Commands.CtxStop Commands.CtxReturn)] in
  Commands.parseCommand "WAIT 2" = Some ("WAIT", ["2"])
  /\ Commands.dispatch "WAIT 2"
       (Commands.off "wait" (CommandLines.registered calls))
     = (true, Commands.CtxStop Commands.CtxReturn).
Proof.
  cbv zeta. split; [reflexivity|].
  exact (off_leaves_the_command_to_the_default
           [CommandLines.RegOn "Wait" Commands.wait_handler;
            CommandLines.RegSetDefault (fun words => Commands.CtxStop Commands.CtxReturn)]
           "wait" "WAIT 2" "WAIT" ["2"] eq_refl).
Defined.

(* ------------------------------------------------------------------ *)
(** ** runner.ts: a stopped runner *)

Section StoppedRunner.

Context {R P : Type} {RT : DialogueRuntime R} {LP : LineProvider P}.

Lemma runLoop_stopped (fuel : nat) (r : Runner.DialogueRunner R P) :
  Runner.stopped r = true -> Runner.runLoop fuel r = Some r.
Proof. intros H. destruct fuel; simpl; now rewrite H. Qed.

Lemma runUntilPause_stopped (fuel : nat) (r : Runner.DialogueRunner R P) :
  Runner.stopped r = true ->
  exists r',
    Runner.runUntilPause fuel r = Some r'
    /\ Runner.stopped r' = true
    /\ Runner.runtime r' = Runner.runtime r
    /\ Runner.emitted r'
       = Runner.emitted r
         ++ RunnerRuns.closing (isDialogueComplete (Runner.runtime r)).
Proof.
  intros H. unfold Runner.runUntilPause. rewrite (runLoop_stopped fuel r H).
  unfold Runner.finishIfComplete, RunnerRuns.closing.
  destruct (isDialogueComplete (Runner.runtime r)).
  - eexists. split; [reflexivity|]. simpl. auto.
  - eexists. split; [reflexivity|]. rewrite app_nil_r. auto.
Qed.

Lemma closing_repeat (b : bool) (n : nat) :
  exists m, RunnerRuns.closing b ++ repeat Runner.RunnerDialogueCompleteEvent n
            = repeat Runner.RunnerDialogueCompleteEvent m.
Proof. destruct b; [exists (S n) | exists n]; reflexivity. Qed.

(** X14.  After [stop()], and until [start()] or [reset()], no call delivers
    dialogue content: whatever is called, every call comes back, the runner
    stays stopped, and the only events emitted are [dialogueComplete]
    events. *)
Theorem stopped_runner_stays_silent
  (fuel : nat) (ops : list Runner.Operation) (r : Runner.DialogueRunner R P) :
  Runner.stopped r = true ->
  forallb RunnerRuns.goes_on ops = true ->
  exists r' n,
    Runner.performAll fuel ops r = Some r'
    /\ Runner.stopped r' = true
    /\ Runner.emitted r'
       = Runner.emitted r ++ repeat Runner.RunnerDialogueCompleteEvent n.
Proof.
  revert r. induction ops as [|op ops IH]; intros r Hst Hops.
  - exists r, 0. simpl. rewrite app_nil_r. auto.
  - simpl in Hops. apply andb_true_iff in Hops. destruct Hops as [Hop Hops].
    assert (Step : exists r1 b,
               (Runner.perform fuel op r = Runner.Returns r1
                \/ exists e, Runner.perform fuel op r = Runner.Throws e r1)
               /\ Runner.stopped r1 = true
               /\ Runner.emitted r1 = Runner.emitted r ++ RunnerRuns.closing b).
    { destruct op as [nodeName| |optionId| |]; try discriminate; simpl.
      - unfold Runner.continue.
        destruct (Runner.isWaitingForOption (Runner.state r)).
        { exists r, false. simpl. rewrite app_nil_r. eauto. }
        destruct (Runner.isComplete (Runner.state r)).
        { exists r, false. simpl. rewrite app_nil_r. eauto. }
        destruct (runUntilPause_stopped fuel r Hst) as (r1 & E & Hs1 & _ & He1).
        rewrite E. exists r1. eexists. simpl. eauto.
      - unfold Runner.selectOption.
        destruct (negb (Runner.isWaitingForOption (Runner.state r))).
        { exists r, false. simpl. rewrite app_nil_r. eauto. }
        destruct (setSelectedOption optionId (Runner.runtime r)) as [[e|] rt'].
        { eexists. exists false. simpl. rewrite app_nil_r.
          split; [right; eexists; reflexivity|]. auto. }
        match goal with
        | |- context [Runner.runUntilPause fuel ?x] =>
            destruct (runUntilPause_stopped fuel x) as (r1 & E & Hs1 & _ & He1)
        end.
        { exact Hst. }
        rewrite E. exists r1. eexists. simpl. eauto.
      - eexists. exists false. simpl. rewrite app_nil_r. eauto. }
    destruct Step as (r1 & b & Hperf & Hs1 & He1).
    destruct (IH r1 Hs1 Hops) as (r' & n & E & Hs' & He').
    destruct (closing_repeat b n) as [m Hm].
    exists r', m. simpl.
    split; [|split; [exact Hs'|]].
    + destruct Hperf as [Hperf | [e Hperf]]; rewrite Hperf; exact E.
    + rewrite He', He1, <- app_assoc. now rewrite Hm.
Qed.

(** X15.  A [stop] command ends the run at once: the command is reported as
    handled, the loop is left without asking the runtime for what follows
    the command, the state is complete and not running, and
    [continue()] raises afterwards.  [dialogueComplete] is emitted only if
    the runtime itself has completed. *)
Theorem stop_command_ends_the_run
  (fuel : nat) (r : Runner.DialogueRunner R P)
  (text command : string) (args : list string) (rt' : R) :
  Runner.stopped r = false ->
  isDialogueComplete (Runner.runtime r) = false ->
  continue (Runner.runtime r) = (Some (CommandEvent text), rt') ->
  Commands.parseCommand text = Some (command, args) ->
  JsMap.get (JsString.toLowerCase command)
            (Commands.handlers (Runner.commandDispatcher r))
  = Some Commands.stop_handler ->
  exists r',
    Runner.runUntilPause (S fuel) r = Some r'
    /\ Runner.runtime r' = rt'
    /\ Runner.emitted r'
       = Runner.emitted r
         ++ Runner.RunnerCommandEvent text true
            :: RunnerRuns.closing (isDialogueComplete rt')
    /\ Runner.stopped r' = true
    /\ Runner.isComplete (Runner.state r') = true
    /\ Runner.isRunning (Runner.state r') = false
    /\ exists e, Runner.continue fuel r' = Runner.Throws e r'.
Proof.
  intros Hst Hc Hstep Hparse Hh.
  unfold Runner.runUntilPause. cbn [Runner.runLoop].
  rewrite Hst, Hc, Hstep. cbn [orb]. cbv zeta.
  cbn [Runner.handleRuntimeEvent]. unfold Runner.handleCommand.
  unfold Commands.dispatch. rewrite Hparse.
  cbn [Runner.commandDispatcher Runner.set_lastEvent Runner.set_state
       Runner.set_runtime].
  rewrite Hh. unfold Commands.stop_handler. cbn [Runner.run_context].
  rewrite runLoop_stopped by reflexivity.
  unfold Runner.finishIfComplete, RunnerRuns.closing. simpl.
  destruct (isDialogueComplete rt'); eexists; (split; [reflexivity|]);
    simpl; rewrite <- ?app_assoc; simpl;
    repeat (split; [reflexivity|]); unfold Runner.continue; simpl;
    destruct (Runner.isWaitingForOption (Runner.state r));
    eexists; reflexivity.
Qed.

End StoppedRunner.

Lemma stopped_runner_stays_silent_witness :
  let r := Runner.stop Scenarios.shopRunner in
  let ops := [Runner.OpContinue; Runner.OpSelectOption 0; Runner.OpStop;
              Runner.OpContinue] in
  Runner.stopped r = true
  /\ forallb RunnerRuns.goes_on ops = true
  /\ exists r' n,
       Runner.performAll 7 ops r = Some r'
       /\ Runner.stopped r' = true
       /\ Runner.emitted r'
          = Runner.emitted r ++ repeat Runner.RunnerDialogueCompleteEvent n.
Proof.
  cbv zeta. split; [reflexivity|]. split; [reflexivity|].
  exact (stopped_runner_stays_silent 7
           [Runner.OpContinue; Runner.OpSelectOption 0; Runner.OpStop;
            Runner.OpContinue]
           (Runner.stop Scenarios.shopRunner) eq_refl eq_refl).
Defined.

Lemma stop_command_ends_the_run_witness :
  let r := Runner.set_runtime
             (ScriptedRuntime.setNode "Start"
                (Runner.runtime RunnerRuns.stopRunner))
             RunnerRuns.stopRunner in
  Runner.stopped r = false
  /\ isDialogueComplete (Runner.runtime r) = false
  /\ Commands.parseCommand "Stop now" = Some ("Stop", ["now"])
  /\ exists r',
       Runner.runUntilPause 5 r = Some r'
       /\ Runner.emitted r' = [Runner.RunnerCommandEvent "Stop now" true]
       /\ Runner.isComplete (Runner.state r') = true.
Proof.
  cbv zeta. split; [reflexivity|]. split; [reflexivity|]. split; [reflexivity|].
  destruct (stop_command_ends_the_run
              (RT := ScriptedRuntime_DialogueRuntime)
              (LP := MapLineProvider_LineProvider) 4
              (Runner.set_runtime
                 (ScriptedRuntime.setNode "Start"
                    (Runner.runtime RunnerRuns.stopRunner))
                 RunnerRuns.stopRunner)
              "Stop now" "Stop" ["now"]
              (ScriptedRuntime.mk RunnerRuns.stopScript 1 false JsMap.empty)
              eq_refl eq_refl eq_refl eq_refl eq_refl)
    as (r' & E & _ & He & _ & Hc & _).
  exists r'. split; [exact E|]. split; [exact He | exact Hc].
Defined.

(* ------------------------------------------------------------------ *)
(** ** runner.ts: the stored variables at [start] *)

Lemma continue_command_free (s : TreeRuntime.t) :
  RunnerRuns.command_free s ->
  RunnerRuns.command_free (snd (TreeRuntime.continue s))
  /\ TreeRuntime.variables (snd (TreeRuntime.continue s))
     = TreeRuntime.variables s
  /\ forall text, fst (TreeRuntime.continue s) <> Some (CommandEvent text).
Proof.
  unfold RunnerRuns.command_free. intros H. unfold TreeRuntime.continue.
  destruct (TreeRuntime.isComplete s) eqn:Ec.
  { simpl. repeat split; auto. discriminate. }
  destruct (TreeRuntime.waitingForOption s) eqn:Ew.
  { simpl. repeat split; auto. discriminate. }
  simpl.
  destruct (TreeRuntime.pendingEvents s) as [|e rest] eqn:Ep.
  - unfold TreeRuntime.populateEventsForCurrentNode. rewrite Ec.
    destruct (TreeRuntime.currentNodeId s) as [cur|].
    2:{ simpl. rewrite Ep. simpl. repeat split; auto. discriminate. }
    destruct (negb (truthy cur)).
    { simpl. rewrite Ep. simpl. repeat split; auto. discriminate. }
    destruct (TreeRuntime.lookup_node cur (nodes (TreeRuntime.tree s)))
      as [node|].
    2:{ simpl. rewrite Ep. simpl. repeat split; auto. discriminate. }
    destruct (negb (set_has (node_id node) (TreeRuntime.startedNodes s))).
    { simpl. rewrite Ep. simpl. repeat split; auto. discriminate. }
    destruct node; simpl; rewrite Ep; simpl;
      (split; [repeat constructor | split; [reflexivity | discriminate]]).
  - cbv beta iota zeta. rewrite Ep.
    inversion H as [|e0 rest0 He Hrest]; subst.
    destruct e; try discriminate; simpl;
      (split; [exact Hrest | split; [reflexivity | discriminate]]).
Qed.

Lemma sync_reads_storage (vs : JsMap.t VariableValue) (s : TreeRuntime.t)
                         (name : string) :
  NoDup (JsMap.keys vs) ->
  TreeRuntime.getVariable name
    (fold_left (fun rt '(k, v) => TreeRuntime.setVariable k v rt)
               (JsMap.entries vs) s)
  = match JsMap.get name vs with
    | Some v => Some v
    | None => TreeRuntime.getVariable name s
    end.
Proof.
  unfold JsMap.entries. revert s.
  induction vs as [|[k v] vs IH]; intros s Hnd; [reflexivity|].
  simpl in Hnd. inversion Hnd as [|? ? Hk Hvs]; subst.
  simpl. rewrite IH by assumption.
  destruct (String.eqb name k) eqn:E.
  - apply String.eqb_eq in E. subst k.
    rewrite (JsMap_get_None name vs Hk).
    unfold TreeRuntime.getVariable, TreeRuntime.setVariable. simpl.
    apply JsMap_get_set_same.
  - destruct (JsMap.get name vs); [reflexivity|].
    unfold TreeRuntime.getVariable, TreeRuntime.setVariable. simpl.
    apply JsMap_get_set_other.
    intros ->. now rewrite String.eqb_refl in E.
Qed.

Section StartOnTheReferenceRuntime.

Context {P : Type} {LP : LineProvider P}.

Lemma handleRuntimeEvent_storage (e : RuntimeEvent)
                                 (r : Runner.DialogueRunner TreeRuntime.t P) :
  (forall text, e <> CommandEvent text) ->
  Runner.runtime (snd (Runner.handleRuntimeEvent e r)) = Runner.runtime r
  /\ Runner.variableStorage (snd (Runner.handleRuntimeEvent e r))
     = Runner.variableStorage r.
Proof. intros H. destruct e; simpl; auto. now destruct (H text). Qed.

(** The loop on the reference runtime leaves the variables alone. *)
Lemma runLoop_variables (fuel : nat)
                        (r r' : Runner.DialogueRunner TreeRuntime.t P) :
  RunnerRuns.command_free (Runner.runtime r) ->
  Runner.runLoop fuel r = Some r' ->
  TreeRuntime.variables (Runner.runtime r')
  = TreeRuntime.variables (Runner.runtime r)
  /\ Runner.variableStorage r' = Runner.variableStorage r.
Proof.
  revert r. induction fuel as [|fuel IH]; intros r Hcf; cbn [Runner.runLoop].
  - destruct (Runner.stopped r || isDialogueComplete (Runner.runtime r));
      [|discriminate].
    intros E. injection E as <-. auto.
  - destruct (Runner.stopped r || isDialogueComplete (Runner.runtime r)).
    { intros E. injection E as <-. auto. }
    change (continue (Runner.runtime r))
      with (TreeRuntime.continue (Runner.runtime r)).
    destruct (continue_command_free (Runner.runtime r) Hcf)
      as (Hcf' & Hv & Hnc).
    destruct (TreeRuntime.continue (Runner.runtime r)) as [[e|] s'];
      simpl in Hcf', Hv, Hnc.
    + assert (He : forall text, e <> CommandEvent text).
      { intros text ->. now apply (Hnc text). }
      destruct (handleRuntimeEvent_storage e
                  (Runner.set_lastEvent (Some e) (Runner.set_runtime s' r)) He)
        as [Hrt Hvs].
      destruct (Runner.handleRuntimeEvent e
                  (Runner.set_lastEvent (Some e) (Runner.set_runtime s' r)))
        as [shouldPause r3].
      simpl in Hrt, Hvs.
      destruct shouldPause.
      * intros E. injection E as <-. rewrite Hrt, Hvs. simpl. auto.
      * intros E. apply IH in E; [|now rewrite Hrt].
        destruct E as [E1 E2]. rewrite E1, E2, Hrt, Hvs. simpl. auto.
    + intros E. injection E as <-. simpl. auto.
Qed.

(** X16.  When [start()] returns on the reference runtime, the runtime reads
    every variable as the runner did before the call: the stored value
    where the store has one, its own value otherwise.  The run itself
    changes no variable. *)
Theorem start_hands_the_store_to_the_runtime
  (fuel : nat) (nodeName : string)
  (r r' : Runner.DialogueRunner TreeRuntime.t P) (name : string) :
  NoDup (JsMap.keys (Runner.variableStorage r)) ->
  Runner.start fuel nodeName r = Runner.Returns r' ->
  TreeRuntime.getVariable name (Runner.runtime r') = Runner.getVariable name r
  /\ Runner.getVariable name r' = Runner.getVariable name r.
Proof.
  intros Hnd. unfold Runner.start, Runner.runUntilPause. cbv zeta.
  match goal with
  | |- context [Runner.runLoop fuel ?x] =>
      pose proof (runLoop_variables fuel x) as Hloop;
      destruct (Runner.runLoop fuel x) as [r1|]; [|discriminate]
  end.
  destruct (Hloop r1 (Forall_nil _) eq_refl) as [Hv Hs].
  simpl in Hv, Hs.
  intros E. injection E as <-.
  assert (Hrt : TreeRuntime.getVariable name
                  (Runner.runtime (Runner.finishIfComplete r1))
                = Runner.getVariable name r).
  { unfold Runner.finishIfComplete.
    assert (Hr1 : TreeRuntime.getVariable name (Runner.runtime r1)
                  = Runner.getVariable name r).
    { unfold TreeRuntime.getVariable at 1. rewrite Hv.
      unfold Runner.getVariable.
      change (getVariable name (Runner.runtime r))
        with (TreeRuntime.getVariable name (Runner.runtime r)).
      rewrite <- (sync_reads_storage _ (Runner.runtime r) name Hnd).
      reflexivity. }
    now destruct (isDialogueComplete (Runner.runtime r1)). }
  split; [exact Hrt|].
  unfold Runner.getVariable at 1.
  assert (Hst : Runner.variableStorage (Runner.finishIfComplete r1)
                = Runner.variableStorage r).
  { unfold Runner.finishIfComplete.
    now destruct (isDialogueComplete (Runner.runtime r1)). }
  rewrite Hst.
  change (getVariable name (Runner.runtime (Runner.finishIfComplete r1)))
    with (TreeRuntime.getVariable name
            (Runner.runtime (Runner.finishIfComplete r1))).
  rewrite Hrt. unfold Runner.getVariable.
  now destruct (JsMap.get name (Runner.variableStorage r)).
Qed.

End StartOnTheReferenceRuntime.

Lemma start_hands_the_store_to_the_runtime_witness :
  NoDup (JsMap.keys (Runner.variableStorage RunnerRuns.flaggedShopRunner))
  /\ exists r',
       Runner.start 7 "player" RunnerRuns.flaggedShopRunner = Runner.Returns r'
       /\ TreeRuntime.getVariable "quest_dragon" (Runner.runtime r')
          = Some (VString "started").
Proof.
  assert (N : NoDup (JsMap.keys
                       (Runner.variableStorage RunnerRuns.flaggedShopRunner))).
  { repeat constructor; simpl; intuition discriminate. }
  split; [exact N|].
  assert (Back : match Runner.start 7 "player" RunnerRuns.flaggedShopRunner with
                 | Runner.Returns _ => true
                 | _ => false
                 end = true) by (vm_compute; reflexivity).
  destruct (Runner.start 7 "player" RunnerRuns.flaggedShopRunner)
    as [r'| |] eqn:E; try discriminate.
  exists r'. split; [reflexivity|].
  exact (proj1 (start_hands_the_store_to_the_runtime 7 "player"
                  RunnerRuns.flaggedShopRunner r' "quest_dragon" N E)).
Defined.

(* ------------------------------------------------------------------ *)
(** ** line-provider.ts: lines and their placeholders *)

Lemma replace_absent (pat sub text : string) :
  ~ Placeholders.occurs pat text -> JsString.replace pat sub text = text.
Proof.
  intros H. destruct (replace_replaces_first pat sub text)
    as [[_ E] | (pre & post & inserted & [E _] & _)]; [exact E|].
  exfalso. apply H. now exists pre, post.
Qed.

Lemma applySubstitutions_from_absent
  (substitutions : list string) (start : nat) (text : string) :
  (forall idx, start <= idx < start + length substitutions ->
               ~ Placeholders.occurs (LineProviders.placeholder idx) text) ->
  LineProviders.applySubstitutions_from start substitutions text = text.
Proof.
  revert start. induction substitutions as [|sub rest IH]; intros start H;
    simpl; [reflexivity|].
  rewrite replace_absent by (apply H; simpl; lia).
  apply IH. intros idx Hidx. apply H. simpl. lia.
Qed.

(** X17.  A line whose text has none of the placeholders that the substitutions
    are for is returned as it is stored, whatever the substitutions
    are. *)
Theorem line_without_placeholders_is_returned_as_stored
  (p : LineProviders.MapLineProvider) (lineId : string) (entry : LineEntry)
  (substitutions : list string) :
  JsMap.get lineId (LineProviders.lines p) = Some entry ->
  (forall idx, idx < length substitutions ->
     ~ Placeholders.occurs (LineProviders.placeholder idx) (entry_text entry)) ->
  LineProviders.getLine p lineId substitutions
  = Some {| ll_text := entry_text entry;
            ll_lineId := lineId;
            ll_substitutions := substitutions;
            ll_metadata := entry_metadata entry |}.
Proof.
  intros Hget Habs. unfold LineProviders.getLine. rewrite Hget.
  unfold LineProviders.applySubstitutions.
  rewrite applySubstitutions_from_absent; [reflexivity|].
  intros idx Hidx. apply Habs. lia.
Qed.

Lemma line_without_placeholders_is_returned_as_stored_witness :
  let p := LineProviders.of_record [("bye", "Farewell, {1}!")] in
  let entry := {| entry_id := "bye"; entry_text := "Farewell, {1}!";
                  entry_metadata := None |} in
  JsMap.get "bye" (LineProviders.lines p) = Some entry
  /\ (forall idx, idx < 1 ->
        ~ Placeholders.occurs (LineProviders.placeholder idx) "Farewell, {1}!")
  /\ option_map ll_text (LineProviders.getLine p "bye" ["Ann"])
     = Some "Farewell, {1}!".
Proof.
  cbv zeta.
  assert (A : forall idx, idx < 1 ->
                ~ Placeholders.occurs (LineProviders.placeholder idx)
                                      "Farewell, {1}!").
  { intros idx Hidx. assert (idx = 0) by lia. subst idx.
    apply split_first_None. reflexivity. }
  split; [reflexivity|]. split; [exact A|].
  rewrite (line_without_placeholders_is_returned_as_stored
             (LineProviders.of_record [("bye", "Farewell, {1}!")]) "bye"
             {| entry_id := "bye"; entry_text := "Farewell, {1}!";
                entry_metadata := None |}
             ["Ann"] eq_refl A).
  reflexivity.
Defined.

Lemma applySubstitutions_from_beyond
  (substitutions : list string) (start i : nat) (text : string) :
  start + length substitutions <= i ->
  Placeholders.occurs (LineProviders.placeholder i) text ->
  Placeholders.occurs (LineProviders.placeholder i)
    (LineProviders.applySubstitutions_from start substitutions text).
Proof.
  revert start text.
  induction substitutions as [|sub rest IH]; intros start text Hi H; simpl.
  - exact H.
  - simpl in Hi. apply IH; [lia|]. apply replace_keeps_other; [lia | exact H].
Qed.

(** X18.  A placeholder for which no substitution is given stays in the text
    returned. *)
Theorem placeholder_without_substitution_stays
  (p : LineProviders.MapLineProvider) (lineId : string) (entry : LineEntry)
  (substitutions : list string) (idx : nat) :
  JsMap.get lineId (LineProviders.lines p) = Some entry ->
  length substitutions <= idx ->
  Placeholders.occurs (LineProviders.placeholder idx) (entry_text entry) ->
  exists l,
    LineProviders.getLine p lineId substitutions = Some l
    /\ Placeholders.occurs (LineProviders.placeholder idx) (ll_text l).
Proof.
  intros Hget Hidx Hocc. unfold LineProviders.getLine. rewrite Hget.
  eexists. split; [reflexivity|]. simpl.
  unfold LineProviders.applySubstitutions.
  apply applySubstitutions_from_beyond; [simpl; lia | exact Hocc].
Qed.

Lemma placeholder_without_substitution_stays_witness :
  let p := LineProviders.of_record [("deal", "{0} owes {1}")] in
  let entry := {| entry_id := "deal"; entry_text := "{0} owes {1}";
                  entry_metadata := None |} in
  JsMap.get "deal" (LineProviders.lines p) = Some entry
  /\ length ["Ann"] <= 1
  /\ Placeholders.occurs (LineProviders.placeholder 1) "{0} owes {1}"
  /\ exists l,
       LineProviders.getLine p "deal" ["Ann"] = Some l
       /\ Placeholders.occurs (LineProviders.placeholder 1) (ll_text l).
Proof.
  cbv zeta.
  assert (O : Placeholders.occurs (LineProviders.placeholder 1) "{0} owes {1}").
  { exists "{0} owes ", "". reflexivity. }
  split; [reflexivity|]. split; [simpl; lia|]. split; [exact O|].
  exact (placeholder_without_substitution_stays
           (LineProviders.of_record [("deal", "{0} owes {1}")]) "deal"
           {| entry_id := "deal"; entry_text := "{0} owes {1}";
              entry_metadata := None |}
           ["Ann"] 1 eq_refl (le_n 1) O).
Defined.

Lemma loadFromCsv_get (entries : list CsvLines.CsvEntry)
                      (m : JsMap.t LineEntry) (lineId : string)
                      (found : option string) :
  (forall text, found = Some text ->
     JsMap.get lineId m
     = Some {| entry_id := lineId; entry_text := text;
               entry_metadata := None |}) ->
  let m' := fold_left
              (fun m entry =>
                 JsMap.set (CsvLines.csv_id entry)
                           {| entry_id := CsvLines.csv_id entry;
                              entry_text := CsvLines.csv_text entry;
                              entry_metadata := None |} m)
              entries m in
  let found' := fold_left
                  (fun found entry =>
                     if String.eqb lineId (CsvLines.csv_id entry)
                     then Some (CsvLines.csv_text entry) else found)
                  entries found in
  (forall text, found' = Some text ->
     JsMap.get lineId m'
     = Some {| entry_id := lineId; entry_text := text;
               entry_metadata := None |})
  /\ (found' = None -> found = None /\ JsMap.get lineId m' = JsMap.get lineId m).
Proof.
  revert m found. induction entries as [|e entries IH]; intros m found H.
  - simpl. split; [exact H|]. auto.
  - cbn [fold_left]. cbv zeta.
    destruct (String.eqb lineId (CsvLines.csv_id e)) eqn:E.
    + apply String.eqb_eq in E. subst lineId.
      match goal with
      | |- context [fold_left _ entries (JsMap.set ?k ?v m)] =>
          destruct (IH (JsMap.set k v m) (Some (CsvLines.csv_text e)))
            as [Hs Hn]
      end.
      { intros text Et. injection Et as <-. apply JsMap_get_set_same. }
      split; [exact Hs|].
      intros Hnone. destruct (Hn Hnone) as [C _]. discriminate.
    + match goal with
      | |- context [fold_left _ entries (JsMap.set ?k ?v m)] =>
          destruct (IH (JsMap.set k v m) found) as [Hs Hn]
      end.
      { intros text Et. rewrite JsMap_get_set_other.
        - now apply H.
        - intros C. rewrite C, String.eqb_refl in E. discriminate. }
      split; [exact Hs|].
      intros Hnone. destruct (Hn Hnone) as [Hf Hg]. split; [exact Hf|].
      rewrite Hg. apply JsMap_get_set_other.
      intros C. rewrite C, String.eqb_refl in E. discriminate.
Qed.

(** X19.  After [loadFromCsv] a line id that the entries name resolves to the
    text of the last entry that names it, without metadata, also where
    the line had metadata before; every other line id resolves as
    before. *)
Theorem loadFromCsv_last_entry_wins
  (entries : list CsvLines.CsvEntry) (p : LineProviders.MapLineProvider)
  (lineId : string) (substitutions : list string) :
  LineProviders.getLine (CsvLines.loadFromCsv entries p) lineId substitutions
  = match CsvLines.last_text lineId entries with
    | Some text => Some (CsvLines.localized lineId text substitutions None)
    | None => LineProviders.getLine p lineId substitutions
    end.
Proof.
  destruct (loadFromCsv_get entries (LineProviders.lines p) lineId None)
    as [Hs Hn]; [discriminate|].
  unfold LineProviders.getLine, CsvLines.loadFromCsv.
  cbn [LineProviders.lines].
  destruct (CsvLines.last_text lineId entries) as [text|] eqn:F.
  - rewrite (Hs text F). reflexivity.
  - destruct (Hn F) as [_ Hg]. now rewrite Hg.
Qed.

(** X20.  What [setLine] stores under an id is what [getLine] resolves the id
    to, and no other id is affected. *)
Theorem setLine_then_getLine
  (p : LineProviders.MapLineProvider) (lineId text : string)
  (metadata : option Metadata) (other : string) (substitutions : list string) :
  LineProviders.getLine (LineProviders.setLine lineId text metadata p)
                        other substitutions
  = if String.eqb other lineId
    then Some (CsvLines.localized lineId text substitutions metadata)
    else LineProviders.getLine p other substitutions.
Proof.
  unfold LineProviders.getLine, LineProviders.setLine. simpl.
  destruct (String.eqb other lineId) eqn:E.
  - apply String.eqb_eq in E. subst other.
    now rewrite JsMap_get_set_same.
  - rewrite JsMap_get_set_other; [reflexivity|].
    intros C. rewrite C, String.eqb_refl in E. discriminate.
Qed.

(* ------------------------------------------------------------------ *)
(** ** variable-storage.ts: the in-memory store *)

Lemma create_names (entries : list (string * VariableValue))
                   (m : JsMap.t VariableValue) :
  NoDup (JsMap.keys m) ->
  NoDup (JsMap.keys
           (fold_left (fun m '(key, value) => JsMap.set key value m)
                      entries m)).
Proof.
  revert m. induction entries as [|[k v] entries IH]; intros m H; [exact H|].
  simpl. apply IH. now apply JsMap_set_NoDup.
Qed.

Lemma update_names (c : InMemoryVariableStorage.Update)
                   (s : InMemoryVariableStorage.t) :
  NoDup (InMemoryVariableStorage.getAllNames s) ->
  NoDup (InMemoryVariableStorage.getAllNames
           (InMemoryVariableStorage.update c s)).
Proof.
  unfold InMemoryVariableStorage.getAllNames. intros H.
  destruct c as [name value|name|]; simpl.
  - now apply JsMap_set_NoDup.
  - now apply JsMap_delete_NoDup.
  - constructor.
Qed.

Lemma after_names (initial : option (list (string * VariableValue)))
                  (calls : list InMemoryVariableStorage.Update) :
  NoDup (InMemoryVariableStorage.getAllNames
           (InMemoryVariableStorage.after initial calls)).
Proof.
  unfold InMemoryVariableStorage.after.
  assert (H : NoDup (InMemoryVariableStorage.getAllNames
                       (InMemoryVariableStorage.create initial))).
  { destruct initial as [entries|]; simpl; [|constructor].
    apply create_names. constructor. }
  revert H. generalize (InMemoryVariableStorage.create initial).
  induction calls as [|c calls IH]; intros s H; [exact H|].
  simpl. apply IH. now apply update_names.
Qed.

(** X21.  The in-memory store lists no name twice, whatever it was created from
    and however it was updated; so [delete] reports whether the name was
    there, leaves no value under it, and touches no other name. *)
Theorem delete_forgets_the_variable_only
  (initial : option (list (string * VariableValue)))
  (calls : list InMemoryVariableStorage.Update) (name : string) :
  let s := InMemoryVariableStorage.after initial calls in
  let s' := snd (InMemoryVariableStorage.delete name s) in
  NoDup (InMemoryVariableStorage.getAllNames s)
  /\ fst (InMemoryVariableStorage.delete name s)
     = InMemoryVariableStorage.has name s
  /\ InMemoryVariableStorage.has name s' = false
  /\ (forall other, other <> name ->
        InMemoryVariableStorage.get other s'
        = InMemoryVariableStorage.get other s)
  /\ forall other, In other (InMemoryVariableStorage.getAllNames s') <->
                   In other (InMemoryVariableStorage.getAllNames s)
                   /\ other <> name.
Proof.
  cbv zeta. pose proof (after_names initial calls) as Hnd.
  split; [exact Hnd|]. split; [reflexivity|].
  unfold InMemoryVariableStorage.has, InMemoryVariableStorage.get,
    InMemoryVariableStorage.delete, InMemoryVariableStorage.getAllNames,
    JsMap.has in *.
  simpl. split; [|split].
  - now rewrite JsMap_get_delete_same.
  - intros other Hne. now apply JsMap_get_delete_other.
  - revert Hnd.
    generalize (InMemoryVariableStorage.after initial calls). intros m Hnd other.
    induction m as [|[k v] m IH]; simpl.
    + tauto.
    + inversion Hnd as [|? ? Hk Hm]; subst.
      destruct (String.eqb name k) eqn:E.
      * apply String.eqb_eq in E. subst k. split.
        -- intros Hin. split; [now right|]. intros ->. contradiction.
        -- intros [[C | Hin] Hne]; [congruence | exact Hin].
      * simpl. rewrite (IH Hm). split.
        -- intros [-> | [Hin Hne]].
           ++ split; [now left|]. intros ->. now rewrite String.eqb_refl in E.
           ++ split; [now right | exact Hne].
        -- intros [[-> | Hin] Hne]; [now left | right; now split].
Qed.

(* ------------------------------------------------------------------ *)
(** ** runner.ts on the reference runtime: a selection that raises *)

Section SelectionOnTheReferenceRuntime.

Context {P : Type} {LP : LineProvider P}.

Lemma setSelectedOption_raises (optionId : Z) (s : TreeRuntime.t) (e : Error) :
  fst (TreeRuntime.setSelectedOption optionId s) = Some e ->
  snd (TreeRuntime.setSelectedOption optionId s) = s
  /\ (e = NotWaitingForOptionError \/ e = InvalidOptionIdError optionId).
Proof.
  unfold TreeRuntime.setSelectedOption.
  destruct (TreeRuntime.optionCache s) as [cache|].
  - destruct (negb (TreeRuntime.waitingForOption s)).
    + simpl. intros E. injection E as <-. auto.
    + destruct (array_get (cache_choices cache) optionId); simpl.
      * discriminate.
      * intros E. injection E as <-. auto.
  - simpl. intros E. injection E as <-. auto.
Qed.

(** X22.  A [selectOption] that raises changes nothing: the runner still waits
    for the selection if it did, and a valid id can be given next. *)
Theorem selection_that_raises_changes_nothing
  (fuel : nat) (optionId : Z)
  (r r' : Runner.DialogueRunner TreeRuntime.t P) (e : Error) :
  Runner.selectOption fuel optionId r = Runner.Throws e r' ->
  r' = r
  /\ (e = NotWaitingForOptionSelection
      \/ e = NotWaitingForOptionError
      \/ e = InvalidOptionIdError optionId).
Proof.
  unfold Runner.selectOption.
  destruct (negb (Runner.isWaitingForOption (Runner.state r))).
  { intros E. injection E as <- <-. auto. }
  change (setSelectedOption optionId (Runner.runtime r))
    with (TreeRuntime.setSelectedOption optionId (Runner.runtime r)).
  pose proof (setSelectedOption_raises optionId (Runner.runtime r)) as H.
  destruct (TreeRuntime.setSelectedOption optionId (Runner.runtime r))
    as [[e0|] rt'].
  - destruct (H e0 eq_refl) as [Hrt He]. simpl in Hrt. subst rt'.
    intros E. injection E as <- <-. split; [now destruct r | tauto].
  - unfold Runner.returning.
    now destruct (Runner.runUntilPause fuel _).
Qed.

End SelectionOnTheReferenceRuntime.

Lemma selection_that_raises_changes_nothing_witness :
  exists e r',
    Runner.selectOption 7 5 Replays.shopAtChoice = Runner.Throws e r'
    /\ r' = Replays.shopAtChoice
    /\ Runner.isWaitingForOption (Runner.state r') = true.
Proof.
  assert (Raises : match Runner.selectOption 7 5 Replays.shopAtChoice with
                   | Runner.Throws _ _ => true
                   | _ => false
                   end = true) by (vm_compute; reflexivity).
  destruct (Runner.selectOption 7 5 Replays.shopAtChoice)
    as [|e r'|] eqn:E; try discriminate.
  exists e, r'. split; [reflexivity|].
  pose proof (proj1 (selection_that_raises_changes_nothing 7 5
                       Replays.shopAtChoice r' e E)) as Hr.
  split; [exact Hr|]. rewrite Hr. vm_compute. reflexivity.
Defined.

(* ------------------------------------------------------------------ *)
(** ** runner.ts on the reference runtime: [reset] and a new run *)

Lemma continue_set_variables (v : JsMap.t VariableValue) (s : TreeRuntime.t) :
  TreeRuntime.continue (TreeRuntime.set_variables v s)
  = (fst (TreeRuntime.continue s),
     TreeRuntime.set_variables v (snd (TreeRuntime.continue s))).
Proof.
  unfold TreeRuntime.continue. simpl.
  destruct (TreeRuntime.isComplete s) eqn:Ec; [reflexivity|].
  destruct (TreeRuntime.waitingForOption s) eqn:Ew; [reflexivity|].
  simpl.
  destruct (TreeRuntime.pendingEvents s) as [|e rest] eqn:Ep.
  - unfold TreeRuntime.populateEventsForCurrentNode. simpl. rewrite Ec.
    destruct (TreeRuntime.currentNodeId s) as [cur|].
    2:{ simpl. rewrite Ep. reflexivity. }
    destruct (negb (truthy cur)).
    { simpl. rewrite Ep. reflexivity. }
    destruct (TreeRuntime.lookup_node cur (nodes (TreeRuntime.tree s)))
      as [node|].
    2:{ simpl. rewrite Ep. reflexivity. }
    destruct (negb (set_has (node_id node) (TreeRuntime.startedNodes s))).
    { simpl. rewrite Ep. reflexivity. }
    destruct node; simpl; rewrite Ep; reflexivity.
  - cbv beta iota zeta. simpl. rewrite ?Ep. destruct e; reflexivity.
Qed.

Lemma sync_sets_variables (entries : list (string * VariableValue))
                          (s : TreeRuntime.t) :
  exists v,
    fold_left (fun rt '(name, value) => TreeRuntime.setVariable name value rt)
              entries s
    = TreeRuntime.set_variables v s.
Proof.
  revert s. induction entries as [|[k x] entries IH]; intros s.
  - exists (TreeRuntime.variables s). now destruct s.
  - simpl. destruct (IH (TreeRuntime.setVariable k x s)) as [v Hv].
    exists v. rewrite Hv. reflexivity.
Qed.

Section ReplayOnTheReferenceRuntime.

Context {P : Type} {LP : LineProvider P}.

Lemma handleRuntimeEvent_shift
  (e : RuntimeEvent) (v : JsMap.t VariableValue)
  (pre : list Runner.RunnerEvent) (b : Runner.DialogueRunner TreeRuntime.t P) :
  (forall text, e <> CommandEvent text) ->
  Runner.handleRuntimeEvent e (Replays.shift v pre b)
  = (fst (Runner.handleRuntimeEvent e b),
     Replays.shift v pre (snd (Runner.handleRuntimeEvent e b))).
Proof.
  intros H.
  destruct e as [lineId subs|options|text|nodeName|nodeName| |lineIds].
  - cbn [Runner.handleRuntimeEvent].
    unfold Runner.handleLine, Runner.handleOptions, Runner.emit,
      Runner.set_currentNode, Runner.set_isWaitingForOption, Runner.set_state,
      Replays.shift.
    simpl. rewrite <- app_assoc. reflexivity.
  - cbn [Runner.handleRuntimeEvent].
    unfold Runner.handleLine, Runner.handleOptions, Runner.emit,
      Runner.set_currentNode, Runner.set_isWaitingForOption, Runner.set_state,
      Replays.shift.
    simpl. rewrite <- app_assoc. reflexivity.
  - now destruct (H text).
  - cbn [Runner.handleRuntimeEvent].
    unfold Runner.handleLine, Runner.handleOptions, Runner.emit,
      Runner.set_currentNode, Runner.set_isWaitingForOption, Runner.set_state,
      Replays.shift.
    simpl. rewrite <- app_assoc. reflexivity.
  - cbn [Runner.handleRuntimeEvent].
    unfold Runner.handleLine, Runner.handleOptions, Runner.emit,
      Runner.set_currentNode, Runner.set_isWaitingForOption, Runner.set_state,
      Replays.shift.
    simpl. rewrite <- app_assoc. reflexivity.
  - reflexivity.
  - reflexivity.
Qed.

Lemma runLoop_shift
  (fuel : nat) (v : JsMap.t VariableValue) (pre : list Runner.RunnerEvent)
  (b : Runner.DialogueRunner TreeRuntime.t P) :
  RunnerRuns.command_free (Runner.runtime b) ->
  Runner.runLoop fuel (Replays.shift v pre b)
  = option_map (Replays.shift v pre) (Runner.runLoop fuel b).
Proof.
  revert b. induction fuel as [|fuel IH]; intros b Hcf; cbn [Runner.runLoop].
  - change (Runner.stopped (Replays.shift v pre b)) with (Runner.stopped b).
    change (isDialogueComplete (Runner.runtime (Replays.shift v pre b)))
      with (isDialogueComplete (Runner.runtime b)).
    now destruct (Runner.stopped b || isDialogueComplete (Runner.runtime b)).
  - change (Runner.stopped (Replays.shift v pre b)) with (Runner.stopped b).
    change (isDialogueComplete (Runner.runtime (Replays.shift v pre b)))
      with (isDialogueComplete (Runner.runtime b)).
    destruct (Runner.stopped b || isDialogueComplete (Runner.runtime b));
      [reflexivity|].
    change (continue (Runner.runtime (Replays.shift v pre b)))
      with (TreeRuntime.continue
              (TreeRuntime.set_variables v (Runner.runtime b))).
    change (continue (Runner.runtime b))
      with (TreeRuntime.continue (Runner.runtime b)).
    rewrite continue_set_variables.
    destruct (continue_command_free (Runner.runtime b) Hcf)
      as (Hcf' & _ & Hnc).
    destruct (TreeRuntime.continue (Runner.runtime b)) as [[e|] s'];
      simpl in Hcf', Hnc; cbn [fst snd]; [|reflexivity].
    assert (He : forall text, e <> CommandEvent text).
    { intros text ->. now apply (Hnc text). }
    change (Runner.set_lastEvent (Some e)
              (Runner.set_runtime (TreeRuntime.set_variables v s')
                 (Replays.shift v pre b)))
      with (Replays.shift v pre
              (Runner.set_lastEvent (Some e) (Runner.set_runtime s' b))).
    rewrite (handleRuntimeEvent_shift e v pre _ He).
    destruct (handleRuntimeEvent_storage e
                (Runner.set_lastEvent (Some e) (Runner.set_runtime s' b)) He)
      as [Hrt _].
    destruct (Runner.handleRuntimeEvent e
                (Runner.set_lastEvent (Some e) (Runner.set_runtime s' b)))
      as [shouldPause r3].
    cbn [fst snd] in *. destruct shouldPause; [reflexivity|].
    apply IH. now rewrite Hrt.
Qed.

Lemma finishIfComplete_shift
  (v : JsMap.t VariableValue) (pre : list Runner.RunnerEvent)
  (b : Runner.DialogueRunner TreeRuntime.t P) :
  Runner.finishIfComplete (Replays.shift v pre b)
  = Replays.shift v pre (Runner.finishIfComplete b).
Proof.
  unfold Runner.finishIfComplete.
  change (isDialogueComplete (Runner.runtime (Replays.shift v pre b)))
    with (isDialogueComplete (Runner.runtime b)).
  destruct (isDialogueComplete (Runner.runtime b)); [|reflexivity].
  unfold Replays.shift, Runner.emit, Runner.set_state. simpl.
  now rewrite <- app_assoc.
Qed.

(** X23.  [reset()] makes the dialogue repeatable: [start()] after it emits what
    [start()] emits on a new runner for the same tree with the same
    collaborators, after what had been emitted before, and leaves the same
    state. *)
Theorem reset_then_start_replays_the_dialogue
  (fuel : nat) (nodeName : string)
  (r : Runner.DialogueRunner TreeRuntime.t P) :
  3 <= fuel ->
  exists r1 r2,
    Runner.start fuel nodeName (Runner.reset r) = Runner.Returns r1
    /\ Runner.start fuel nodeName (Replays.renewed r) = Runner.Returns r2
    /\ Runner.emitted r1 = Runner.emitted r ++ Runner.emitted r2
    /\ Runner.getState r1 = Runner.getState r2
    /\ Runner.lineProvider r1 = Runner.lineProvider r2.
Proof.
  intros Hf. unfold Runner.start. cbv zeta.
  unfold Runner.syncVariablesToRuntime, Replays.renewed, Runner.reset,
    Runner.create.
  cbn [Runner.runtime Runner.variableStorage Runner.set_stopped
       Runner.set_state Runner.set_runtime Runner.lineProvider
       Runner.commandDispatcher Runner.emitted Runner.state Runner.stopped].
  change (@Types.reset TreeRuntime.t _) with TreeRuntime.reset.
  change (@Types.setNode TreeRuntime.t _) with TreeRuntime.setNode.
  change (@Types.setVariable TreeRuntime.t _) with TreeRuntime.setVariable.
  destruct (sync_sets_variables (JsMap.entries (Runner.variableStorage r))
              (TreeRuntime.reset (Runner.runtime r))) as [v1 H1].
  destruct (sync_sets_variables (JsMap.entries (Runner.variableStorage r))
              (TreeRuntime.create (TreeRuntime.tree (Runner.runtime r))))
    as [v2 H2].
  rewrite H1, H2.
  match goal with
  | |- exists r1 r2,
         Runner.returning (Runner.runUntilPause fuel ?a) = _
         /\ Runner.returning (Runner.runUntilPause fuel ?b) = _ /\ _ =>
      assert (Hab : a = Replays.shift v1 (Runner.emitted r) b)
        by (unfold Replays.shift; simpl; now rewrite app_nil_r);
      rewrite Hab;
      destruct (runLoop_ends fuel b) as [b' Hb'];
        [simpl; lia|];
      pose proof (runLoop_shift fuel v1 (Runner.emitted r) b) as Hs
  end.
  unfold Runner.runUntilPause. rewrite Hs by constructor. rewrite Hb'.
  simpl. rewrite finishIfComplete_shift.
  eexists. eexists. split; [reflexivity|]. split; [reflexivity|].
  repeat split.
Qed.

End ReplayOnTheReferenceRuntime.

Lemma reset_then_start_replays_the_dialogue_witness :
  3 <= 3
  /\ exists r1 r2,
       Runner.start 3 "player" (Runner.reset Replays.shopAtChoice)
       = Runner.Returns r1
       /\ Runner.start 3 "player" (Replays.renewed Replays.shopAtChoice)
          = Runner.Returns r2
       /\ Runner.emitted r1
          = Runner.emitted Replays.shopAtChoice ++ Runner.emitted r2
       /\ Runner.getState r1 = Runner.getState r2
       /\ Runner.lineProvider r1 = Runner.lineProvider r2.
Proof.
  split; [lia|].
  exact (reset_then_start_replays_the_dialogue 3 "player"
           Replays.shopAtChoice (le_n 3)).
Defined.

(* ------------------------------------------------------------------ *)
(** ** runner.ts: what is emitted *)

Section EmittedEvents.

Context {R P : Type} {RT : DialogueRuntime R} {LP : LineProvider P}.

Lemma run_context_emitted (p : Commands.ContextProgram)
                          (r : Runner.DialogueRunner R P) :
  Runner.emitted (Runner.run_context p r) = Runner.emitted r.
Proof.
  revert r. induction p as [|name k IH|name value k IH|k IH|k IH|sec k IH];
    intros r; simpl; try reflexivity; try apply IH.
  - now rewrite IH.
  - now rewrite IH.
Qed.

Lemma handleRuntimeEvent_emitted (e : RuntimeEvent)
                                 (r : Runner.DialogueRunner R P) :
  exists l,
    Runner.emitted (snd (Runner.handleRuntimeEvent e r)) = Runner.emitted r ++ l
    /\ Forall (fun x => Subscriptions.is_error x = false) l.
Proof.
  destruct e as [lineId subs|options|text|nodeName|nodeName| |lineIds];
    simpl.
  - eexists. split; [reflexivity|]. now repeat constructor.
  - eexists. split; [reflexivity|]. now repeat constructor.
  - unfold Runner.handleCommand.
    destruct (Commands.dispatch text (Runner.commandDispatcher r)) as [h p].
    simpl. rewrite run_context_emitted.
    eexists. split; [reflexivity|]. now repeat constructor.
  - eexists. split; [reflexivity|]. now repeat constructor.
  - eexists. split; [reflexivity|]. now repeat constructor.
  - exists []. now rewrite app_nil_r.
  - exists []. now rewrite app_nil_r.
Qed.

Lemma runLoop_emitted (fuel : nat) (r r' : Runner.DialogueRunner R P) :
  Runner.runLoop fuel r = Some r' ->
  exists l,
    Runner.emitted r' = Runner.emitted r ++ l
    /\ Forall (fun x => Subscriptions.is_error x = false) l.
Proof.
  revert r. induction fuel as [|fuel IH]; intros r; cbn [Runner.runLoop].
  - destruct (Runner.stopped r || isDialogueComplete (Runner.runtime r));
      [|discriminate].
    intros E. injection E as <-. exists []. now rewrite app_nil_r.
  - destruct (Runner.stopped r || isDialogueComplete (Runner.runtime r)).
    { intros E. injection E as <-. exists []. now rewrite app_nil_r. }
    destruct (continue (Runner.runtime r)) as [[e|] rt'].
    + destruct (handleRuntimeEvent_emitted e
                  (Runner.set_lastEvent (Some e) (Runner.set_runtime rt' r)))
        as (l & Hl & Hok).
      destruct (Runner.handleRuntimeEvent e
                  (Runner.set_lastEvent (Some e) (Runner.set_runtime rt' r)))
        as [shouldPause r3].
      simpl in Hl. destruct shouldPause.
      * intros E. injection E as <-. now exists l.
      * intros E. destruct (IH r3 E) as (l' & Hl' & Hok').
        exists (l ++ l'). split.
        -- now rewrite Hl', Hl, app_assoc.
        -- apply Forall_app. now split.
    + intros E. injection E as <-. exists []. now rewrite app_nil_r.
Qed.

Lemma runUntilPause_emitted (fuel : nat) (r r' : Runner.DialogueRunner R P) :
  Runner.runUntilPause fuel r = Some r' ->
  exists l,
    Runner.emitted r' = Runner.emitted r ++ l
    /\ Forall (fun x => Subscriptions.is_error x = false) l.
Proof.
  unfold Runner.runUntilPause.
  destruct (Runner.runLoop fuel r) as [r1|] eqn:E; [|discriminate].
  destruct (runLoop_emitted fuel r r1 E) as (l & Hl & Hok).
  intros E'. injection E' as <-. unfold Runner.finishIfComplete.
  destruct (isDialogueComplete (Runner.runtime r1)).
  - exists (l ++ [Runner.RunnerDialogueCompleteEvent]). split.
    + simpl. now rewrite Hl, app_assoc.
    + apply Forall_app. split; [exact Hok | now repeat constructor].
  - now exists l.
Qed.

Lemma perform_emitted (fuel : nat) (op : Runner.Operation)
                      (r r' : Runner.DialogueRunner R P) :
  Runner.perform fuel op r = Runner.Returns r'
  \/ (exists e, Runner.perform fuel op r = Runner.Throws e r') ->
  exists l,
    Runner.emitted r' = Runner.emitted r ++ l
    /\ Forall (fun x => Subscriptions.is_error x = false) l.
Proof.
  assert (Same : forall a b : Runner.DialogueRunner R P,
             Runner.emitted b = Runner.emitted a ->
             exists l, Runner.emitted b = Runner.emitted a ++ l
                       /\ Forall (fun x => Subscriptions.is_error x = false) l).
  { intros a b E. exists []. rewrite app_nil_r. now split. }
  assert (Run : forall a b : Runner.DialogueRunner R P,
             Runner.returning (Runner.runUntilPause fuel a) = Runner.Returns b ->
             Runner.emitted a = Runner.emitted r ->
             exists l, Runner.emitted b = Runner.emitted r ++ l
                       /\ Forall (fun x => Subscriptions.is_error x = false) l).
  { intros a b H Ea.
    destruct (Runner.runUntilPause fuel a) as [a'|] eqn:E; simpl in H;
      [|discriminate].
    injection H as <-. rewrite <- Ea.
    now apply (runUntilPause_emitted fuel a a'). }
  destruct op as [nodeName| |optionId| |]; simpl.
  - unfold Runner.start. cbv zeta. intros [H | [e H]].
    + eapply Run; [exact H | reflexivity].
    + destruct (Runner.runUntilPause fuel _) in H; discriminate.
  - unfold Runner.continue.
    destruct (Runner.isWaitingForOption (Runner.state r)).
    { intros [H | [e H]]; [discriminate|]. injection H as _ <-.
      now apply Same. }
    destruct (Runner.isComplete (Runner.state r)).
    { intros [H | [e H]]; [discriminate|]. injection H as _ <-.
      now apply Same. }
    intros [H | [e H]].
    + eapply Run; [exact H | reflexivity].
    + destruct (Runner.runUntilPause fuel r); discriminate.
  - unfold Runner.selectOption.
    destruct (negb (Runner.isWaitingForOption (Runner.state r))).
    { intros [H | [e H]]; [discriminate|]. injection H as _ <-.
      now apply Same. }
    destruct (setSelectedOption optionId (Runner.runtime r)) as [[e0|] rt'].
    { intros [H | [e H]]; [discriminate|]. injection H as _ <-.
      now apply Same. }
    intros [H | [e H]].
    + eapply Run; [exact H | reflexivity].
    + destruct (Runner.runUntilPause fuel _) in H; discriminate.
  - intros [H | [e H]]; [|discriminate]. injection H as <-. now apply Same.
  - intros [H | [e H]]; [|discriminate]. injection H as <-. now apply Same.
Qed.

(** X24.  Whatever is called on the runner, with whatever runtime, what has
    been emitted stays emitted, in its order, and no [error] event is ever
    emitted: a handler subscribed to [error] is never called. *)
Theorem runner_never_emits_error
  (fuel : nat) (ops : list Runner.Operation)
  (r r' : Runner.DialogueRunner R P) :
  Runner.performAll fuel ops r = Some r' ->
  exists l,
    Runner.emitted r' = Runner.emitted r ++ l
    /\ Forall (fun x => Subscriptions.is_error x = false) l.
Proof.
  revert r. induction ops as [|op ops IH]; intros r; simpl.
  - intros E. injection E as <-. exists []. now rewrite app_nil_r.
  - destruct (Runner.perform fuel op r) as [r1|e r1|] eqn:E; [| |discriminate];
      intros E'; destruct (IH r1 E') as (l' & Hl' & Hok');
      (destruct (perform_emitted fuel op r r1) as (l & Hl & Hok);
       [rewrite E; eauto|]);
      exists (l ++ l'); (split; [now rewrite Hl', Hl, app_assoc
                                | apply Forall_app; now split]).
Qed.

End EmittedEvents.

Lemma runner_never_emits_error_witness :
  exists r',
    Runner.performAll 7 [Runner.OpStart "Start"; Runner.OpContinue]
                      Scenarios.flagRunner = Some r'
    /\ exists l,
         Runner.emitted r' = Runner.emitted Scenarios.flagRunner ++ l
         /\ Forall (fun x => Subscriptions.is_error x = false) l.
Proof.
  assert (Back : match Runner.performAll 7
                         [Runner.OpStart "Start"; Runner.OpContinue]
                         Scenarios.flagRunner with
                 | Some _ => true
                 | None => false
                 end = true) by (vm_compute; reflexivity).
  destruct (Runner.performAll 7 [Runner.OpStart "Start"; Runner.OpContinue]
                              Scenarios.flagRunner) as [r'|] eqn:E;
    [|discriminate].
  exists r'. split; [reflexivity|].
  exact (runner_never_emits_error 7
           [Runner.OpStart "Start"; Runner.OpContinue]
           Scenarios.flagRunner r' E).
Defined.

(* ------------------------------------------------------------------ *)
(** ** runner.ts: subscribing and unsubscribing *)

Lemma type_eqb_eq (a b : Subscriptions.RunnerEventType) :
  Subscriptions.type_eqb a b = true <-> a = b.
Proof. destruct a, b; simpl; split; intros H; congruence. Qed.

Lemma type_eqb_refl (a : Subscriptions.RunnerEventType) :
  Subscriptions.type_eqb a a = true.
Proof. now destruct a. Qed.

Lemma emit_on (e : Runner.RunnerEvent) (ty : Subscriptions.RunnerEventType)
              (h : Subscriptions.Handler) (s : Subscriptions.t) :
  Subscriptions.emit e (Subscriptions.on ty h s)
  = if Subscriptions.type_eqb (Subscriptions.type_of e) ty
    then Subscriptions.add h (Subscriptions.emit e s)
    else Subscriptions.emit e s.
Proof.
  unfold Subscriptions.emit, Subscriptions.on.
  destruct (Subscriptions.type_eqb (Subscriptions.type_of e) ty) eqn:E.
  - apply type_eqb_eq in E. rewrite E.
    destruct (s ty) as [hs|] eqn:Hs.
    + rewrite Hs. unfold Subscriptions.set. now rewrite type_eqb_refl.
    + unfold Subscriptions.set. now rewrite !type_eqb_refl.
  - destruct (s ty) as [hs|] eqn:Hs.
    + rewrite Hs. unfold Subscriptions.set. now rewrite E.
    + unfold Subscriptions.set. rewrite type_eqb_refl. now rewrite E.
Qed.

Lemma emit_unsubscribe (e : Runner.RunnerEvent)
                       (ty : Subscriptions.RunnerEventType)
                       (h : Subscriptions.Handler) (s : Subscriptions.t) :
  Subscriptions.emit e (Subscriptions.unsubscribe ty h s)
  = if Subscriptions.type_eqb (Subscriptions.type_of e) ty
    then Subscriptions.remove h (Subscriptions.emit e s)
    else Subscriptions.emit e s.
Proof.
  unfold Subscriptions.emit, Subscriptions.unsubscribe.
  destruct (Subscriptions.type_eqb (Subscriptions.type_of e) ty) eqn:E.
  - apply type_eqb_eq in E. rewrite E.
    destruct (s ty) as [hs|] eqn:Hs.
    + unfold Subscriptions.set. now rewrite type_eqb_refl.
    + now rewrite Hs.
  - destruct (s ty) as [hs|] eqn:Hs; [|reflexivity].
    unfold Subscriptions.set. now rewrite E.
Qed.

Lemma emit_onAny (e : Runner.RunnerEvent) (h : Subscriptions.Handler)
                 (s : Subscriptions.t) :
  Subscriptions.emit e (Subscriptions.onAny h s)
  = Subscriptions.add h (Subscriptions.emit e s).
Proof.
  unfold Subscriptions.onAny, Subscriptions.all_types. cbn [fold_left].
  rewrite !emit_on. now destruct (Subscriptions.type_of e).
Qed.

Lemma emit_unsubscribeAny (e : Runner.RunnerEvent) (h : Subscriptions.Handler)
                          (s : Subscriptions.t) :
  Subscriptions.emit e (Subscriptions.unsubscribeAny h s)
  = Subscriptions.remove h (Subscriptions.emit e s).
Proof.
  unfold Subscriptions.unsubscribeAny, Subscriptions.all_types.
  cbn [fold_left].
  rewrite !emit_unsubscribe. now destruct (Subscriptions.type_of e).
Qed.

Lemma add_In (h : Subscriptions.Handler) (hs : list Subscriptions.Handler) :
  In h (Subscriptions.add h hs).
Proof.
  unfold Subscriptions.add. destruct (existsb (Nat.eqb h) hs) eqn:E.
  - apply existsb_exists in E. destruct E as (x & Hx & Ex).
    apply Nat.eqb_eq in Ex. now subst.
  - apply in_or_app. right. now left.
Qed.

Lemma add_NoDup (h : Subscriptions.Handler) (hs : list Subscriptions.Handler) :
  NoDup hs -> NoDup (Subscriptions.add h hs).
Proof.
  intros H. unfold Subscriptions.add.
  destruct (existsb (Nat.eqb h) hs) eqn:E; [exact H|].
  apply NoDup_app; [exact H | repeat constructor; intros [] |].
  intros x Hx [Ex | []]. subst x.
  assert (C : existsb (Nat.eqb h) hs = true).
  { apply existsb_exists. exists h. split; [exact Hx | apply Nat.eqb_refl]. }
  congruence.
Qed.

Lemma remove_NoDup (h : Subscriptions.Handler) (hs : list Subscriptions.Handler) :
  NoDup hs -> NoDup (Subscriptions.remove h hs).
Proof. apply NoDup_filter. Qed.

Lemma remove_not_In (h : Subscriptions.Handler)
                    (hs : list Subscriptions.Handler) :
  ~ In h (Subscriptions.remove h hs).
Proof.
  unfold Subscriptions.remove. intros H. apply filter_In in H.
  destruct H as [_ H]. now rewrite Nat.eqb_refl in H.
Qed.

Lemma remove_add (h : Subscriptions.Handler) (hs : list Subscriptions.Handler) :
  Subscriptions.remove h (Subscriptions.add h hs) = Subscriptions.remove h hs.
Proof.
  unfold Subscriptions.add, Subscriptions.remove.
  destruct (existsb (Nat.eqb h) hs); [reflexivity|].
  rewrite filter_app. simpl. rewrite Nat.eqb_refl. simpl. apply app_nil_r.
Qed.

Lemma call_NoDup (c : Subscriptions.Call) (s : Subscriptions.t) :
  (forall e, NoDup (Subscriptions.emit e s)) ->
  forall e, NoDup (Subscriptions.emit e (Subscriptions.call c s)).
Proof.
  intros H e. destruct c as [ty h|h|ty h|h]; simpl.
  - rewrite emit_on.
    destruct (Subscriptions.type_eqb (Subscriptions.type_of e) ty); auto.
    now apply add_NoDup.
  - rewrite emit_onAny. now apply add_NoDup.
  - rewrite emit_unsubscribe.
    destruct (Subscriptions.type_eqb (Subscriptions.type_of e) ty); auto.
    now apply remove_NoDup.
  - rewrite emit_unsubscribeAny. now apply remove_NoDup.
Qed.

(** X25.  However handlers were subscribed and unsubscribed, [emit] calls no
    handler twice with one event. *)
Theorem no_handler_is_called_twice
  (calls : list Subscriptions.Call) (e : Runner.RunnerEvent) :
  NoDup (Subscriptions.emit e (Subscriptions.after calls)).
Proof.
  unfold Subscriptions.after.
  assert (H : forall e, NoDup (Subscriptions.emit e Subscriptions.empty)).
  { intros e0. constructor. }
  revert e. revert H. generalize Subscriptions.empty.
  induction calls as [|c calls IH]; intros s H e; [apply H|].
  simpl. apply IH. now apply call_NoDup.
Qed.

(** X26.  A handler subscribed with [on] is called with the events of that
    type and the calls for the other types are as before; the function
    that [on] returned, called at once, leaves the handler out of the calls
    for that type, also if it had been subscribed to the type before.  A
    handler subscribed with [onAny] is called with every event, and the
    function that [onAny] returned leaves it out of every call. *)
Theorem subscriptions_come_and_go
  (s : Subscriptions.t) (ty : Subscriptions.RunnerEventType)
  (h : Subscriptions.Handler) (e : Runner.RunnerEvent) :
  (if Subscriptions.type_eqb (Subscriptions.type_of e) ty
   then In h (Subscriptions.emit e (Subscriptions.on ty h s))
        /\ ~ In h (Subscriptions.emit e
                     (Subscriptions.unsubscribe ty h (Subscriptions.on ty h s)))
   else Subscriptions.emit e (Subscriptions.on ty h s) = Subscriptions.emit e s
        /\ Subscriptions.emit e
             (Subscriptions.unsubscribe ty h (Subscriptions.on ty h s))
           = Subscriptions.emit e s)
  /\ In h (Subscriptions.emit e (Subscriptions.onAny h s))
  /\ Subscriptions.emit e (Subscriptions.unsubscribeAny h (Subscriptions.onAny h s))
     = Subscriptions.remove h (Subscriptions.emit e s).
Proof.
  split; [|split].
  - rewrite emit_unsubscribe, !emit_on.
    destruct (Subscriptions.type_eqb (Subscriptions.type_of e) ty).
    + split; [apply add_In | apply remove_not_In].
    + now split.
  - rewrite emit_onAny. apply add_In.
  - rewrite emit_unsubscribeAny, emit_onAny. apply remove_add.
Qed.

(* ------------------------------------------------------------------ *)
(** ** [parseFloat] and the numeric literals *)

Lemma uint_of_char_digit (c : ascii) (u : Decimal.uint) :
  JsString.is_digit c = true -> exists u', uint_of_char c (Some u) = Some u'.
Proof.
  destruct c as [[] [] [] [] [] [] [] []]; simpl; try discriminate;
    intros _; eexists; reflexivity.
Qed.

Lemma uint_of_char_Some (c : ascii) (d : option Decimal.uint)
                        (u : Decimal.uint) :
  uint_of_char c d = Some u ->
  JsString.is_digit c = true /\ exists d', d = Some d'.
Proof.
  destruct d as [d'|]; [|discriminate].
  destruct c as [[] [] [] [] [] [] [] []]; simpl; try discriminate;
    intros _; split; try reflexivity; eexists; reflexivity.
Qed.

Lemma digits_nil : SetCommand.digits EmptyString.
Proof. now exists Decimal.Nil. Qed.

Lemma digits_cons (c : ascii) (s : string) :
  SetCommand.digits (String c s)
  <-> JsString.is_digit c = true /\ SetCommand.digits s.
Proof.
  unfold SetCommand.digits. simpl. split.
  - intros [u H]. destruct (uint_of_char_Some _ _ _ H) as [Hc [d' Hd]].
    split; [exact Hc | now exists d'].
  - intros [Hc [u Hu]]. rewrite Hu. now apply uint_of_char_digit.
Qed.

Lemma digits_app (a b : string) :
  SetCommand.digits a -> SetCommand.digits b -> SetCommand.digits (a ++ b).
Proof.
  intros Ha Hb. induction a as [|c a IH]; [exact Hb|].
  apply digits_cons in Ha. destruct Ha as [Hc Ha].
  simpl. apply digits_cons. split; [exact Hc | now apply IH].
Qed.

Lemma span_digits_app (ds r : string) :
  SetCommand.digits ds ->
  JsString.span_digits (ds ++ r)
  = ((ds ++ fst (JsString.span_digits r))%string,
     snd (JsString.span_digits r)).
Proof.
  intros H. induction ds as [|c ds IH]; simpl.
  - now destruct (JsString.span_digits r).
  - apply digits_cons in H. destruct H as [Hc Hd].
    rewrite Hc, (IH Hd). reflexivity.
Qed.

Lemma span_digits_spec (s : string) :
  s = (fst (JsString.span_digits s) ++ snd (JsString.span_digits s))%string
  /\ SetCommand.digits (fst (JsString.span_digits s)).
Proof.
  induction s as [|c s [IH1 IH2]]; simpl.
  - split; [reflexivity | apply digits_nil].
  - destruct (JsString.is_digit c) eqn:Hc.
    + destruct (JsString.span_digits s) as [ds rest]. simpl in *.
      split; [now rewrite <- IH1|]. apply digits_cons. now split.
    + split; [reflexivity | apply digits_nil].
Qed.

Lemma span_digits_stop (c : ascii) (r : string) :
  JsString.is_digit c = false ->
  JsString.span_digits (String c r) = (EmptyString, String c r).
Proof. intros H. simpl. now rewrite H. Qed.

Lemma span_digits_length (s : string) :
  String.length (snd (JsString.span_digits s)) <= String.length s
  /\ (String.length (snd (JsString.span_digits s)) = String.length s ->
      fst (JsString.span_digits s) = EmptyString).
Proof.
  destruct (span_digits_spec s) as [E _].
  assert (L : String.length s
              = String.length (fst (JsString.span_digits s))
                + String.length (snd (JsString.span_digits s))).
  { rewrite E at 1. apply string_app_length. }
  split; [lia|]. intros H.
  destruct (fst (JsString.span_digits s)); [reflexivity|]. simpl in L. lia.
Qed.

Lemma digits_value_from_numeral (ds : string) (u : Decimal.uint) (a : nat) :
  NilEmpty.uint_of_string ds = Some u ->
  JsString.digits_value_from (Z.of_nat a) ds = Z.of_nat (Nat.of_uint_acc u a).
Proof.
  revert u a. induction ds as [|c ds IH]; intros u a H; simpl in H.
  - injection H as <-. reflexivity.
  - destruct (NilEmpty.uint_of_string ds) as [u0|] eqn:E;
      [|destruct (uint_of_char_Some _ _ _ H) as [_ [d' C]]; discriminate].
    cbn [JsString.digits_value_from].
    destruct c as [[] [] [] [] [] [] [] []]; simpl in H; try discriminate;
      injection H as <-; cbn [Nat.of_uint_acc];
      rewrite <- (IH u0 _ eq_refl); f_equal;
      rewrite Nat.tail_mul_spec;
      match goal with
      | |- context [nat_of_ascii ?c] =>
          let v := eval vm_compute in (nat_of_ascii c) in
          change (nat_of_ascii c) with v
      end; lia.
Qed.

Lemma digits_value_numeral (ds : string) (k : nat) :
  SetCommand.numeral ds k -> JsString.digits_value ds = Z.of_nat k.
Proof.
  intros (u & Hu & ->). unfold JsString.digits_value.
  exact (digits_value_from_numeral ds u 0 Hu).
Qed.

Lemma digits_numeral (ds : string) :
  SetCommand.digits ds ->
  SetCommand.numeral ds (Z.to_nat (JsString.digits_value ds)).
Proof.
  intros [u Hu]. exists u. split; [exact Hu|].
  rewrite (digits_value_numeral ds (Nat.of_uint u)); [now rewrite Nat2Z.id|].
  now exists u.
Qed.

Lemma digits_value_nonneg (ds : string) :
  SetCommand.digits ds -> (0 <= JsString.digits_value ds)%Z.
Proof.
  intros [u Hu].
  rewrite (digits_value_numeral ds (Nat.of_uint u)); [lia|]. now exists u.
Qed.

Lemma digit_is_no_mark (d : ascii) :
  JsString.is_digit d = true ->
  Ascii.eqb d "+" = false /\ Ascii.eqb d "-" = false
  /\ Ascii.eqb d "." = false /\ Ascii.eqb d "I" = false
  /\ JsString.is_whitespace d = false.
Proof.
  intros H. repeat split;
    try (destruct (Ascii.eqb d _) eqn:E; [|reflexivity];
         apply Ascii.eqb_eq in E; subst d; discriminate).
  revert H. unfold JsString.is_digit, JsString.is_whitespace.
  intros H. apply andb_true_iff in H. destruct H as [H1 H2].
  apply Nat.leb_le in H1. apply Nat.leb_le in H2.
  apply orb_false_iff. split.
  - apply andb_false_iff. right. apply Nat.leb_gt. lia.
  - apply Nat.eqb_neq. lia.
Qed.

Lemma numeral_digits (ed : string) (k : nat) :
  SetCommand.numeral ed k -> SetCommand.digits ed.
Proof. intros (u & Hu & _). now exists u. Qed.

Lemma truthy_app_l (a b : string) :
  truthy a = true -> truthy (a ++ b)%string = true.
Proof. destruct a; simpl; [discriminate | reflexivity]. Qed.

Lemma truthy_nonempty (a : string) : a <> EmptyString <-> truthy a = true.
Proof. destruct a; simpl; split; congruence. Qed.

(** The digits of an exponent are read to their end. *)
Lemma exponent_digits (ed rest' : string) (k : nat) :
  ed <> EmptyString -> SetCommand.numeral ed k ->
  truthy (fst (JsString.span_digits (ed ++ rest'))) = true
  /\ String.length (snd (JsString.span_digits (ed ++ rest')))
     <= String.length rest'
  /\ (String.length (snd (JsString.span_digits (ed ++ rest')))
      = String.length rest' ->
      JsString.digits_value (fst (JsString.span_digits (ed ++ rest')))
      = Z.of_nat k).
Proof.
  intros Hne Hk. rewrite (span_digits_app ed rest' (numeral_digits ed k Hk)).
  simpl. destruct (span_digits_length rest') as [L1 L2].
  split; [apply truthy_app_l; now apply truthy_nonempty|].
  split; [exact L1|].
  intros E. rewrite (L2 E), string_app_nil_r.
  now apply digits_value_numeral.
Qed.

Lemma scan_exponent_sound (s : string) :
  exists exp,
    s = (exp ++ snd (JsString.scan_exponent s))%string
    /\ SetCommand.exponent_part exp (fst (JsString.scan_exponent s)).
Proof.
  assert (None_read : forall t : string,
             exists exp, t = (exp ++ t)%string
                         /\ SetCommand.exponent_part exp 0%Z).
  { intros t. exists EmptyString. split; [reflexivity | now left]. }
  assert (Read : forall (c : ascii) (sgn s2 : string) (neg : bool),
             Ascii.eqb c "e" || Ascii.eqb c "E" = true ->
             (sgn = "" \/ sgn = "+")%string /\ neg = false
             \/ sgn = "-"%string /\ neg = true ->
             truthy (fst (JsString.span_digits s2)) = true ->
             exists exp,
               (String c (sgn ++ s2)
                = exp ++ snd (JsString.span_digits s2))%string
               /\ SetCommand.exponent_part exp
                    (if neg
                     then (- JsString.digits_value (fst (JsString.span_digits s2)))%Z
                     else JsString.digits_value (fst (JsString.span_digits s2)))).
  { intros c sgn s2 neg Hc Hsgn Ht.
    destruct (span_digits_spec s2) as [E D].
    exists (String c EmptyString ++ sgn ++ fst (JsString.span_digits s2))%string.
    split.
    - rewrite E at 1. simpl. now rewrite string_app_assoc.
    - right.
      exists (String c EmptyString), sgn, (fst (JsString.span_digits s2)),
        (Z.to_nat (JsString.digits_value (fst (JsString.span_digits s2)))).
      split; [reflexivity|]. split.
      { apply orb_true_iff in Hc.
        destruct Hc as [Hc|Hc]; apply Ascii.eqb_eq in Hc; subst c; auto. }
      split; [now apply truthy_nonempty|].
      split; [now apply digits_numeral|].
      rewrite Z2Nat.id by now apply digits_value_nonneg.
      destruct Hsgn as [[Hs ->] | [Hs ->]]; [left | right]; now split. }
  destruct s as [|c s1]; [apply None_read|].
  cbn [JsString.scan_exponent].
  destruct (Ascii.eqb c "e" || Ascii.eqb c "E") eqn:Hc; [|apply None_read].
  destruct s1 as [|d r].
  - simpl. apply None_read.
  - destruct (Ascii.eqb d "+") eqn:Ep.
    { apply Ascii.eqb_eq in Ep. subst d.
      destruct (JsString.span_digits r) as [ds rest] eqn:Es.
      destruct (truthy ds) eqn:Ht; [|apply None_read].
      pose proof (Read c "+"%string r false Hc (or_introl (conj (or_intror eq_refl) eq_refl)))
        as H.
      rewrite Es in H. exact (H Ht). }
    destruct (Ascii.eqb d "-") eqn:Em.
    { apply Ascii.eqb_eq in Em. subst d.
      destruct (JsString.span_digits r) as [ds rest] eqn:Es.
      destruct (truthy ds) eqn:Ht; [|apply None_read].
      pose proof (Read c "-"%string r true Hc (or_intror (conj eq_refl eq_refl)))
        as H.
      rewrite Es in H. exact (H Ht). }
    destruct (JsString.span_digits (String d r)) as [ds rest] eqn:Es.
    destruct (truthy ds) eqn:Ht; [|apply None_read].
    pose proof (Read c ""%string (String d r) false Hc
                  (or_introl (conj (or_introl eq_refl) eq_refl))) as H.
    rewrite Es in H. exact (H Ht).
Qed.

Lemma exponent_part_empty (e : Z) :
  SetCommand.exponent_part EmptyString e -> e = 0%Z.
Proof.
  intros [[_ H] | (mark & sgn & ed & k & E & [-> | ->] & _)];
    [exact H | discriminate | discriminate].
Qed.

Lemma scan_exponent_bound (s : string) :
  String.length (snd (JsString.scan_exponent s)) <= String.length s
  /\ (String.length (snd (JsString.scan_exponent s)) = String.length s ->
      fst (JsString.scan_exponent s) = 0%Z).
Proof.
  destruct (scan_exponent_sound s) as (exp & E & H).
  assert (L : String.length s
              = String.length exp
                + String.length (snd (JsString.scan_exponent s))).
  { rewrite E at 1. apply string_app_length. }
  split; [lia|]. intros Hl.
  destruct exp; [now apply exponent_part_empty | simpl in L; lia].
Qed.

Lemma scan_exponent_marked (c : ascii) (sgn s2 : string) (neg : bool) :
  Ascii.eqb c "e" || Ascii.eqb c "E" = true ->
  SetCommand.sign sgn neg ->
  (sgn = EmptyString ->
   forall d r, s2 = String d r ->
               Ascii.eqb d "+" = false /\ Ascii.eqb d "-" = false) ->
  JsString.scan_exponent (String c (sgn ++ s2))
  = if truthy (fst (JsString.span_digits s2))
    then ((if neg
           then (- JsString.digits_value (fst (JsString.span_digits s2)))%Z
           else JsString.digits_value (fst (JsString.span_digits s2))),
          snd (JsString.span_digits s2))
    else (0%Z, String c (sgn ++ s2)).
Proof.
  intros Hc Hsgn Hs2. cbn [JsString.scan_exponent]. rewrite Hc.
  destruct Hsgn as [[[-> | ->] ->] | [-> ->]]; cbn [append].
  - destruct s2 as [|d r].
    + reflexivity.
    + destruct (Hs2 eq_refl d r eq_refl) as [-> ->].
      now destruct (JsString.span_digits (String d r)).
  - cbn [Ascii.eqb Bool.eqb]. now destruct (JsString.span_digits s2).
  - cbn [Ascii.eqb Bool.eqb]. now destruct (JsString.span_digits s2).
Qed.

(** An exponent part that is there is read, with all the digits that
    follow it. *)
Lemma scan_exponent_forward (exp rest' : string) (e' : Z) :
  SetCommand.exponent_part exp e' -> exp <> EmptyString ->
  String.length (snd (JsString.scan_exponent (exp ++ rest')))
  <= String.length rest'
  /\ (String.length (snd (JsString.scan_exponent (exp ++ rest')))
      = String.length rest' ->
      fst (JsString.scan_exponent (exp ++ rest')) = e').
Proof.
  intros [[-> _] | (mark & sgn & ed & k & -> & Hmark & Hne & Hk & Hsgn)] Hexp;
    [congruence|].
  destruct (exponent_digits ed rest' k Hne Hk) as (Ht & L1 & L2).
  assert (Hhead : forall d r, (ed ++ rest')%string = String d r ->
                    Ascii.eqb d "+" = false /\ Ascii.eqb d "-" = false).
  { intros d r E. destruct ed as [|d0 ed']; [congruence|].
    injection E as <- _.
    destruct (proj1 (digits_cons d0 ed') (numeral_digits _ _ Hk)) as [Hd _].
    destruct (digit_is_no_mark d0 Hd) as (Hp & Hm & _). now split. }
  assert (Hmark' : exists c, mark = String c EmptyString
                             /\ Ascii.eqb c "e" || Ascii.eqb c "E" = true).
  { destruct Hmark as [-> | ->]; eexists; split; reflexivity. }
  destruct Hmark' as (c & -> & Hc).
  assert (Hneg : exists neg, SetCommand.sign sgn neg
                 /\ e' = if neg then (- Z.of_nat k)%Z else Z.of_nat k).
  { destruct Hsgn as [[Hs ->] | [Hs ->]].
    - exists false. split; [left; now split | reflexivity].
    - exists true. split; [right; now split | reflexivity]. }
  destruct Hneg as (neg & Hsign & ->).
  rewrite !string_app_assoc. cbn [append].
  rewrite (scan_exponent_marked c sgn (ed ++ rest') neg Hc Hsign
             (fun _ => Hhead)).
  rewrite Ht. cbn [fst snd].
  split; [exact L1|]. intros E. now rewrite (L2 E).
Qed.

(** The three ways in which [scan_unsigned] goes on after the digits before
    the point. *)
Lemma scan_unsigned_point (neg : bool) (s int r : string) :
  JsString.strip_prefix "Infinity" s = None ->
  JsString.span_digits s = (int, String "." r) ->
  JsString.scan_unsigned neg s
  = if truthy int || truthy (fst (JsString.span_digits r)) then
      Some (NumDecimal neg int (fst (JsString.span_digits r))
              (fst (JsString.scan_exponent (snd (JsString.span_digits r)))),
            snd (JsString.scan_exponent (snd (JsString.span_digits r))))
    else None.
Proof.
  intros Hs Hi. unfold JsString.scan_unsigned. rewrite Hs, Hi.
  cbn [Ascii.eqb Bool.eqb].
  destruct (JsString.span_digits r) as [f r']. cbn [fst snd].
  destruct (truthy int || truthy f) eqn:E.
  - rewrite E. now destruct (JsString.scan_exponent r').
  - apply orb_false_iff in E. destruct E as [-> _]. reflexivity.
Qed.

Lemma scan_unsigned_no_point (neg : bool) (s int s1 : string) :
  JsString.strip_prefix "Infinity" s = None ->
  JsString.span_digits s = (int, s1) ->
  (forall r, s1 <> String "." r) ->
  JsString.scan_unsigned neg s
  = if truthy int then
      Some (NumDecimal neg int EmptyString (fst (JsString.scan_exponent s1)),
            snd (JsString.scan_exponent s1))
    else None.
Proof.
  intros Hs Hi Hp. unfold JsString.scan_unsigned. rewrite Hs, Hi.
  assert (E : match s1 with
              | String c r =>
                  if Ascii.eqb c "." then
                    let (f, r') := JsString.span_digits r in
                    if truthy int || truthy f then (f, r')
                    else (EmptyString, s1)
                  else (EmptyString, s1)
              | EmptyString => (EmptyString, s1)
              end = (EmptyString, s1)).
  { destruct s1 as [|c r]; [reflexivity|].
    destruct (Ascii.eqb c ".") eqn:Ec; [|reflexivity].
    apply Ascii.eqb_eq in Ec. subst c. now destruct (Hp r). }
  rewrite E. rewrite orb_false_r.
  destruct (truthy int); [|reflexivity].
  now destruct (JsString.scan_exponent s1).
Qed.

Lemma strip_prefix_Infinity_head (c : ascii) (r : string) :
  Ascii.eqb c "I" = false ->
  JsString.strip_prefix "Infinity" (String c r) = None.
Proof.
  intros H. cbn [JsString.strip_prefix].
  rewrite Ascii.eqb_sym. now rewrite H.
Qed.

(** What [scan_unsigned] reads is a numeric literal. *)
Lemma scan_unsigned_sound (neg : bool) (s : string) (n : JsNumber)
                          (rest : string) :
  JsString.scan_unsigned neg s = Some (n, rest) ->
  exists lit, s = (lit ++ rest)%string /\ SetCommand.unsigned_literal lit neg n.
Proof.
  destruct (JsString.strip_prefix "Infinity" s) as [rest0|] eqn:Hs.
  { unfold JsString.scan_unsigned. rewrite Hs. intros E. injection E as <- <-.
    exists "Infinity"%string. split; [now apply strip_prefix_Some | now left]. }
  destruct (span_digits_spec s) as [Es Di].
  destruct (JsString.span_digits s) as [int s1] eqn:Hi. cbn [fst snd] in *.
  assert (Decimal : forall point frac exp e,
             s = (int ++ point ++ exp ++ rest)%string ->
             SetCommand.digits frac ->
             (point = EmptyString /\ frac = EmptyString
              \/ point = ("." ++ frac)%string) ->
             truthy int || truthy frac = true ->
             SetCommand.exponent_part exp e ->
             n = NumDecimal neg int frac e ->
             exists lit, s = (lit ++ rest)%string
                         /\ SetCommand.unsigned_literal lit neg n).
  { intros point frac exp e E Df Hp Ht He Hn.
    exists (int ++ point ++ exp)%string. split.
    - now rewrite !string_app_assoc.
    - right. exists int, point, frac, exp, e.
      repeat split; auto.
      apply orb_true_iff in Ht.
      destruct Ht as [Ht|Ht]; [left | right]; now apply truthy_nonempty. }
  destruct s1 as [|c r].
  - rewrite (scan_unsigned_no_point neg s int EmptyString Hs Hi)
      by (intros r; discriminate).
    destruct (truthy int) eqn:Ht; [|discriminate].
    simpl. intros E. injection E as <- <-.
    apply (Decimal EmptyString EmptyString EmptyString 0%Z); auto;
      try apply digits_nil; try reflexivity; now left.
  - destruct (Ascii.eqb c ".") eqn:Ec.
    + apply Ascii.eqb_eq in Ec. subst c.
      rewrite (scan_unsigned_point neg s int r Hs Hi).
      destruct (truthy int || truthy (fst (JsString.span_digits r))) eqn:Ht;
        [|discriminate].
      intros E. injection E as <- <-.
      destruct (span_digits_spec r) as [Er Df].
      destruct (scan_exponent_sound (snd (JsString.span_digits r)))
        as (exp & Ee & He).
      apply (Decimal ("." ++ fst (JsString.span_digits r))%string
                     (fst (JsString.span_digits r)) exp
                     (fst (JsString.scan_exponent
                             (snd (JsString.span_digits r))))); auto.
      rewrite Es. f_equal. cbn [append]. f_equal.
      rewrite <- Ee. exact Er.
    + assert (Hp : forall r0, String c r <> String "." r0).
      { intros r0 E. injection E as -> _. discriminate. }
      rewrite (scan_unsigned_no_point neg s int (String c r) Hs Hi Hp).
      destruct (truthy int) eqn:Ht; [|discriminate].
      intros E. injection E as <- <-.
      destruct (scan_exponent_sound (String c r)) as (exp & Ee & He).
      apply (Decimal EmptyString EmptyString exp
                     (fst (JsString.scan_exponent (String c r)))); auto;
        try apply digits_nil; try reflexivity.
      rewrite Es. f_equal. exact Ee.
Qed.

Lemma exponent_head (exp rest' : string) (e : Z) :
  SetCommand.exponent_part exp e -> exp <> EmptyString ->
  exists c t, (exp ++ rest')%string = String c t
              /\ JsString.is_digit c = false
              /\ Ascii.eqb c "." = false.
Proof.
  intros [[-> _] | (mark & sgn & ed & k & -> & [-> | ->] & _)] Hne;
    [congruence | |]; eexists; eexists; (split; [reflexivity|]); now split.
Qed.

(** A numeric literal at the head of a text is read, and more if more
    belongs to a literal; if no more is read, the number is the one that the
    literal denotes. *)
Lemma scan_unsigned_forward (neg : bool) (lit' rest' : string)
                            (n' : JsNumber) :
  SetCommand.unsigned_literal lit' neg n' ->
  exists n rest,
    JsString.scan_unsigned neg (lit' ++ rest') = Some (n, rest)
    /\ String.length rest <= String.length rest'
    /\ (String.length rest = String.length rest' -> n = n').
Proof.
  intros [[-> ->] | (int & point & frac & exp & e & -> & Di & Df & Hp & Hne
                      & He & ->)].
  { exists (NumInfinity neg), rest'. split; [reflexivity|]. now split. }
  (* the text does not begin with Infinity *)
  assert (Hs : JsString.strip_prefix "Infinity"
                 ((int ++ point ++ exp) ++ rest') = None).
  { destruct int as [|c int'].
    - destruct Hne as [C|Hf]; [congruence|].
      destruct Hp as [[_ ->] | ->]; [congruence|]. reflexivity.
    - apply digits_cons in Di. destruct Di as [Hc _].
      destruct (digit_is_no_mark c Hc) as (_ & _ & _ & HI & _).
      now apply strip_prefix_Infinity_head. }
  rewrite !string_app_assoc in *.
  destruct (span_digits_length rest') as [L1 L2].
  destruct (span_digits_spec rest') as [Er Dm].
  destruct Hp as [[-> ->] | ->].
  - (* no point *)
    assert (Hint : truthy int = true).
    { destruct Hne as [H|H]; [now apply truthy_nonempty | congruence]. }
    cbn [append] in *.
    destruct exp as [|x exp'].
    + (* no exponent either: the digits may go on, and more may follow *)
      apply exponent_part_empty in He. subst e. cbn [append] in *.
      pose proof (span_digits_app int rest' Di) as Hi.
      destruct (scan_exponent_bound (snd (JsString.span_digits rest')))
        as [B1 B2].
      destruct (snd (JsString.span_digits rest')) as [|c r] eqn:Hr.
      * rewrite (scan_unsigned_no_point neg _ _ _ Hs Hi)
          by (intros r; discriminate).
        rewrite (truthy_app_l _ _ Hint). simpl.
        eexists. eexists. split; [reflexivity|]. simpl.
        split; [lia|]. intros E. simpl in L2. rewrite (L2 E).
        now rewrite string_app_nil_r.
      * destruct (Ascii.eqb c ".") eqn:Ec.
        -- apply Ascii.eqb_eq in Ec. subst c.
           rewrite (scan_unsigned_point neg _ _ r Hs Hi).
           rewrite (truthy_app_l _ _ Hint). cbn [orb].
           eexists. eexists. split; [reflexivity|].
           destruct (span_digits_length r) as [R1 _].
           destruct (scan_exponent_bound (snd (JsString.span_digits r)))
             as [X1 _].
           simpl in L1. split; [lia|]. intros E. lia.
        -- assert (Hp : forall r0, String c r <> String "." r0).
           { intros r0 E. injection E as -> _. discriminate. }
           rewrite (scan_unsigned_no_point neg _ _ _ Hs Hi Hp).
           rewrite (truthy_app_l _ _ Hint).
           eexists. eexists. split; [reflexivity|].
           split; [lia|]. intros E.
           rewrite (L2 ltac:(lia)), string_app_nil_r.
           now rewrite (B2 ltac:(lia)).
    + (* an exponent *)
      assert (Hx : String x exp' <> EmptyString) by discriminate.
      destruct (exponent_head _ rest' _ He Hx) as (c & t & Et & Hc & Hc').
      destruct (scan_exponent_forward _ rest' _ He Hx) as [F1 F2].
      assert (Hi : JsString.span_digits (int ++ String x exp' ++ rest')
                   = (int, (String x exp' ++ rest')%string)).
      { rewrite (span_digits_app int _ Di), Et, (span_digits_stop c t Hc).
        cbn [fst snd]. now rewrite string_app_nil_r. }
      assert (Hp : forall r0, (String x exp' ++ rest')%string <> String "." r0).
      { intros r0 E. rewrite Et in E. injection E as -> _. discriminate. }
      rewrite (scan_unsigned_no_point neg _ _ _ Hs Hi Hp), Hint.
      eexists. eexists. split; [reflexivity|].
      split; [exact F1|]. intros E. now rewrite (F2 E).
  - (* a point *)
    cbn [append] in *.
    assert (Hi : JsString.span_digits (int ++ String "." (frac ++ exp ++ rest'))
                 = (int, String "." (frac ++ exp ++ rest'))).
    { rewrite (span_digits_app int _ Di), (span_digits_stop "." _ eq_refl).
      cbn [fst snd]. now rewrite string_app_nil_r. }
    rewrite (scan_unsigned_point neg _ _ _ Hs Hi).
    pose proof (span_digits_app frac (exp ++ rest') Df) as Hf.
    assert (Ht : truthy int
                 || truthy (fst (JsString.span_digits (frac ++ exp ++ rest')))
                 = true).
    { rewrite Hf. cbn [fst]. apply orb_true_iff.
      destruct Hne as [H|H]; [left | right; apply truthy_app_l];
        now apply truthy_nonempty. }
    rewrite Ht, Hf. cbn [fst snd].
    destruct exp as [|x exp'].
    + apply exponent_part_empty in He. subst e. cbn [append] in *.
      destruct (scan_exponent_bound (snd (JsString.span_digits rest')))
        as [B1 B2].
      eexists. eexists. split; [reflexivity|].
      split; [lia|]. intros E.
      rewrite (L2 ltac:(lia)), string_app_nil_r.
      now rewrite (B2 ltac:(lia)).
    + assert (Hx : String x exp' <> EmptyString) by discriminate.
      destruct (exponent_head _ rest' _ He Hx) as (c & t & Et & Hc & Hc').
      destruct (scan_exponent_forward _ rest' _ He Hx) as [F1 F2].
      rewrite Et, (span_digits_stop c t Hc), <- Et. cbn [fst snd].
      rewrite string_app_nil_r.
      eexists. eexists. split; [reflexivity|].
      split; [exact F1|]. intros E. now rewrite (F2 E).
Qed.

Lemma white_char_whitespace (c : ascii) :
  SetCommand.white_char c <-> JsString.is_whitespace c = true.
Proof.
  split.
  - intros H. unfold SetCommand.white_char in H. simpl in H.
    unfold JsString.is_whitespace.
    destruct H as [H | [H | [H | [H | [H | [H | []]]]]]]; rewrite <- H;
      reflexivity.
  - unfold JsString.is_whitespace. intros H.
    apply orb_true_iff in H. unfold SetCommand.white_char.
    destruct H as [H|H].
    + apply andb_true_iff in H. destruct H as [H1 H2].
      apply Nat.leb_le in H1. apply Nat.leb_le in H2. simpl. lia.
    + apply Nat.eqb_eq in H. simpl. lia.
Qed.

Lemma trimStart_white (ws x : string) :
  SetCommand.white ws -> JsString.trimStart (ws ++ x) = JsString.trimStart x.
Proof.
  induction ws as [|c ws IH]; simpl; [reflexivity|].
  intros [Hc Hw]. apply white_char_whitespace in Hc. rewrite Hc. now apply IH.
Qed.

Lemma trimStart_split (s : string) :
  exists ws, SetCommand.white ws /\ s = (ws ++ JsString.trimStart s)%string.
Proof.
  induction s as [|c s (ws & Hw & E)]; simpl.
  - now exists EmptyString.
  - destruct (JsString.is_whitespace c) eqn:Hc.
    + exists (String c ws). split.
      * split; [now apply white_char_whitespace | exact Hw].
      * simpl. now rewrite <- E.
    + now exists EmptyString.
Qed.

Lemma literal_head (lit : string) (neg : bool) (n : JsNumber) :
  SetCommand.unsigned_literal lit neg n ->
  exists h t, lit = String h t
              /\ JsString.is_whitespace h = false
              /\ Ascii.eqb h "+" = false /\ Ascii.eqb h "-" = false.
Proof.
  intros [[-> _] | (int & point & frac & exp & e & -> & Di & _ & Hp & Hne & _)].
  - eexists. eexists. split; [reflexivity|]. repeat split.
  - destruct int as [|c int'].
    + destruct Hne as [C|Hf]; [congruence|].
      destruct Hp as [[_ ->] | ->]; [congruence|].
      eexists. eexists. split; [reflexivity|]. repeat split.
    + apply digits_cons in Di. destruct Di as [Hc _].
      destruct (digit_is_no_mark c Hc) as (Hp' & Hm & _ & _ & Hw).
      eexists. eexists. split; [reflexivity|]. now repeat split.
Qed.

(** What [scan_unsigned] reads is the longest literal there. *)
Lemma scan_unsigned_longest (neg : bool) (lit rest : string) (n : JsNumber) :
  JsString.scan_unsigned neg (lit ++ rest) = Some (n, rest) ->
  forall lit' n' rest',
    (lit ++ rest = lit' ++ rest')%string ->
    SetCommand.unsigned_literal lit' neg n' ->
    String.length lit' <= String.length lit.
Proof.
  intros Hs lit' n' rest' E H.
  destruct (scan_unsigned_forward neg lit' rest' n' H)
    as (n0 & rest0 & Hs0 & L & _).
  rewrite <- E, Hs in Hs0. injection Hs0 as _ <-.
  assert (String.length (lit ++ rest) = String.length (lit' ++ rest'))
    by now rewrite E.
  rewrite !string_app_length in *. lia.
Qed.

(** [parseFloat] reads a number exactly when the text begins, after white
    space, with a numeric literal; it reads the longest one. *)
Lemma scanFloat_reads (value : string) (n : JsNumber) (rest : string) :
  JsString.scanFloat value = Some (n, rest)
  <-> SetCommand.reads_number value n rest.
Proof.
  split.
  - unfold JsString.scanFloat.
    destruct (trimStart_split value) as (ws & Hw & Ev).
    destruct (JsString.trimStart value) as [|c r]; [discriminate|].
    assert (Build : forall (sgn : string) (neg : bool) (t : string),
               String c r = (sgn ++ t)%string ->
               SetCommand.sign sgn neg ->
               JsString.scan_unsigned neg t = Some (n, rest) ->
               SetCommand.reads_number value n rest).
    { intros sgn neg t Et Hsgn Hs.
      destruct (scan_unsigned_sound neg t n rest Hs) as (lit & El & Hl).
      exists ws, sgn, neg, lit.
      split; [now rewrite Ev, Et, El|].
      split; [exact Hw|]. split; [exact Hsgn|]. split; [exact Hl|].
      apply (scan_unsigned_longest neg lit rest n). now rewrite <- El. }
    destruct (Ascii.eqb c "+") eqn:Ep.
    { apply Ascii.eqb_eq in Ep. subst c.
      apply (Build "+"%string false r eq_refl). left. now split; [right|]. }
    destruct (Ascii.eqb c "-") eqn:Em.
    { apply Ascii.eqb_eq in Em. subst c.
      apply (Build "-"%string true r eq_refl). right. now split. }
    apply (Build ""%string false (String c r) eq_refl). left. now split; [left|].
  - intros (ws & sgn & neg & lit & -> & Hw & Hsgn & Hl & Hmax).
    destruct (literal_head lit neg n Hl) as (h & t & -> & Hh & Hp & Hm).
    destruct (scan_unsigned_forward neg (String h t) rest n Hl)
      as (n0 & rest0 & Hs & L & Hn).
    destruct (scan_unsigned_sound neg _ n0 rest0 Hs) as (lit0 & E0 & Hl0).
    pose proof (Hmax lit0 n0 rest0 E0 Hl0) as L0.
    assert (Hlen : String.length (String h t ++ rest)
                   = String.length (lit0 ++ rest0)) by now rewrite E0.
    rewrite !string_app_length in Hlen.
    assert (Heq : String.length rest0 = String.length rest) by lia.
    assert (Hlit : String.length (String h t) = String.length lit0) by lia.
    destruct (string_app_same_length _ _ _ _ E0 Hlit) as [_ <-].
    rewrite (Hn Heq) in Hs.
    unfold JsString.scanFloat. rewrite (trimStart_white ws _ Hw).
    destruct Hsgn as [[[-> | ->] ->] | [-> ->]]; cbn [append] in *.
    + cbn [JsString.trimStart]. rewrite Hh, Hp, Hm. exact Hs.
    + exact Hs.
    + exact Hs.
Qed.

(* ------------------------------------------------------------------ *)
(** ** The built-in [set] command *)

Lemma strip_dollar_names (name : string) :
  SetCommand.names name (Commands.strip_dollar name).
Proof.
  unfold SetCommand.names, Commands.strip_dollar.
  destruct name as [|c rest].
  - right. split; [intros rest; discriminate | reflexivity].
  - destruct (Ascii.eqb c "$") eqn:E.
    + apply Ascii.eqb_eq in E. subst c. left. now exists rest.
    + apply Ascii.eqb_neq in E. right. split; [|reflexivity].
      intros rest' H. injection H as H _. contradiction.
Qed.

Lemma names_unique (name a b : string) :
  SetCommand.names name a -> SetCommand.names name b -> a = b.
Proof.
  intros [(r & -> & ->) | [Ha ->]] [(r' & E & ->) | [Hb ->]].
  - now injection E.
  - now destruct (Hb r).
  - now destruct (Ha r').
  - reflexivity.
Qed.

Lemma last_char_Some (s : string) (d : ascii) :
  JsString.last_char s = Some d ->
  s = (JsString.drop_last s ++ String d EmptyString)%string.
Proof.
  induction s as [|c s IH]; [discriminate|].
  destruct s as [|c' s'].
  - simpl. intros E. now injection E as ->.
  - intros E. change (JsString.last_char (String c (String c' s')))
      with (JsString.last_char (String c' s')) in E.
    change (JsString.drop_last (String c (String c' s')))
      with (String c (JsString.drop_last (String c' s'))).
    simpl. f_equal. now apply IH.
Qed.

Lemma last_char_app (body : string) (q : ascii) :
  JsString.last_char (body ++ String q EmptyString) = Some q.
Proof.
  induction body as [|c body IH]; [reflexivity|].
  simpl. rewrite IH. now destruct (body ++ String q EmptyString)%string.
Qed.

Lemma string_app_inv_tail (a b t : string) :
  (a ++ t = b ++ t)%string -> a = b.
Proof.
  intros E.
  assert (L : String.length a = String.length b).
  { assert (H : String.length (a ++ t) = String.length (b ++ t))
      by now rewrite E.
    rewrite !string_app_length in H. lia. }
  now destruct (string_app_same_length a b t t E L).
Qed.

Lemma quoted_starts_with_quote (q : ascii) (valueStr : string) :
  Commands.is_quoted_by q valueStr = true ->
  exists rest, valueStr = String q rest.
Proof.
  unfold Commands.is_quoted_by, JsString.startsWith. simpl.
  destruct valueStr as [|c rest]; [discriminate|].
  destruct (Ascii.eqb q c) eqn:E; [|discriminate].
  apply Ascii.eqb_eq in E. subst c. intros _. now exists rest.
Qed.

(** The test for quotation marks and [slice(1, -1)]: the value begins and
    ends with the mark, and what is taken is what is between the two
    ends. *)
Lemma is_quoted_by_spec (q : ascii) (valueStr : string) :
  SetCommand.quotation_mark q ->
  Commands.is_quoted_by q valueStr = true ->
  SetCommand.quoted valueStr (JsString.slice_1_m1 valueStr).
Proof.
  intros Hq H. destruct (quoted_starts_with_quote q valueStr H) as [rest ->].
  exists q. split; [exact Hq|].
  unfold Commands.is_quoted_by in H. apply andb_true_iff in H.
  destruct H as [_ H]. unfold JsString.endsWithChar in H.
  destruct rest as [|c rest'].
  - right. now split.
  - left. change (JsString.last_char (String q (String c rest')))
      with (JsString.last_char (String c rest')) in H.
    destruct (JsString.last_char (String c rest')) as [d|] eqn:El;
      [|discriminate].
    apply Ascii.eqb_eq in H. subst d.
    change (JsString.slice_1_m1 (String q (String c rest')))
      with (JsString.drop_last (String c rest')).
    f_equal. now apply last_char_Some.
Qed.

Lemma quoted_is_quoted_by (valueStr body : string) :
  SetCommand.quoted valueStr body ->
  Commands.is_quoted_by Commands.double_quote valueStr
  || Commands.is_quoted_by Commands.single_quote valueStr = true.
Proof.
  intros (q & Hq & H).
  assert (Q : Commands.is_quoted_by q valueStr = true).
  { unfold Commands.is_quoted_by, JsString.startsWith, JsString.endsWithChar.
    destruct H as [-> | [-> _]].
    - cbn [JsString.strip_prefix]. rewrite Ascii.eqb_refl. cbn [andb].
      change (JsString.last_char (String q (body ++ String q EmptyString)))
        with (match (body ++ String q EmptyString)%string with
              | EmptyString => Some q
              | String _ _ => JsString.last_char (body ++ String q EmptyString)
              end).
      rewrite last_char_app.
      destruct (body ++ String q EmptyString)%string; apply Ascii.eqb_refl.
    - simpl. now rewrite !Ascii.eqb_refl. }
  apply orb_true_iff. destruct Hq as [-> | ->]; [left | right]; exact Q.
Qed.

Lemma quoted_unique (valueStr a b : string) :
  SetCommand.quoted valueStr a -> SetCommand.quoted valueStr b -> a = b.
Proof.
  intros (q & _ & Ha) (q' & _ & Hb).
  destruct Ha as [-> | [-> ->]]; destruct Hb as [E | [E ->]].
  - injection E as <- E. now apply string_app_inv_tail in E.
  - injection E as _ E. destruct a; discriminate.
  - injection E as _ E. destruct b; discriminate.
  - reflexivity.
Qed.

(** A value in quotation marks is neither a boolean word nor the start of
    a number, so the order in which the handler tries the forms does not
    matter. *)
Lemma quoted_is_no_word_nor_number (valueStr body : string) :
  SetCommand.quoted valueStr body ->
  valueStr <> "true"%string /\ valueStr <> "false"%string
  /\ forall n, ~ SetCommand.begins_with_number valueStr n.
Proof.
  intros (q & Hq & H).
  assert (Hv : exists rest, valueStr = String q rest).
  { destruct H as [-> | [-> _]]; eexists; reflexivity. }
  destruct Hv as [rest ->].
  destruct Hq as [-> | ->]; (split; [discriminate|]);
    (split; [discriminate|]);
    intros n [r Hr]; apply scanFloat_reads in Hr; discriminate.
Qed.

(** [parseValue] stores what is specified. *)
Lemma parseValue_parses (valueStr : string) :
  SetCommand.parses_to SetCommand.begins_with_number valueStr
                       (Commands.parseValue valueStr).
Proof.
  unfold Commands.parseValue.
  destruct (Commands.is_quoted_by Commands.double_quote valueStr
            || Commands.is_quoted_by Commands.single_quote valueStr) eqn:Eq.
  - assert (Q : SetCommand.quoted valueStr (JsString.slice_1_m1 valueStr)).
    { apply orb_true_iff in Eq. destruct Eq as [Eq|Eq].
      - apply (is_quoted_by_spec Commands.double_quote); [now left | exact Eq].
      - apply (is_quoted_by_spec Commands.single_quote); [now right | exact Eq]. }
    destruct (quoted_is_no_word_nor_number _ _ Q) as (Ht & Hf & Hn).
    right. right. right. repeat split; auto.
    left. now exists (JsString.slice_1_m1 valueStr).
  - destruct (String.eqb valueStr "true") eqn:Et.
    { apply String.eqb_eq in Et. left. now split. }
    destruct (String.eqb valueStr "false") eqn:Ef.
    { apply String.eqb_eq in Ef. right. left. now split. }
    apply String.eqb_neq in Et. apply String.eqb_neq in Ef.
    unfold JsString.parseFloat.
    destruct (JsString.scanFloat valueStr) as [[n rest]|] eqn:Es.
    + right. right. left. exists n. split; [|reflexivity].
      exists rest. now apply scanFloat_reads.
    + right. right. right. split; [exact Et|]. split; [exact Ef|]. split.
      * intros n [rest Hr]. apply scanFloat_reads in Hr. congruence.
      * right. split; [|reflexivity].
        intros body Q. apply quoted_is_quoted_by in Q. congruence.
Qed.

(** What is specified determines the value that is stored. *)
Lemma parses_to_unique (valueStr : string) (a b : VariableValue) :
  SetCommand.parses_to SetCommand.begins_with_number valueStr a ->
  SetCommand.parses_to SetCommand.begins_with_number valueStr b ->
  a = b.
Proof.
  assert (NoWord : forall n, ~ SetCommand.begins_with_number "true" n
                             /\ ~ SetCommand.begins_with_number "false" n).
  { intros n. split; intros [r Hr]; apply scanFloat_reads in Hr;
      discriminate. }
  assert (Same : forall n m, SetCommand.begins_with_number valueStr n ->
                             SetCommand.begins_with_number valueStr m ->
                             n = m).
  { intros n m [r Hr] [r' Hr']. apply scanFloat_reads in Hr, Hr'.
    congruence. }
  intros [[Ev ->] | [[Ev ->] | [(n & Hn & ->) | (Ht & Hf & Hnn & Hq)]]]
         [[Ev' ->] | [[Ev' ->] | [(m & Hm & ->) | (Ht' & Hf' & Hnn' & Hq')]]];
    try reflexivity; try congruence;
    try (subst valueStr; exfalso;
         match goal with
         | H : SetCommand.begins_with_number _ ?n |- _ =>
             now destruct (NoWord n) as [N1 N2]; first [apply N1 | apply N2]
         end);
    try (exfalso; now eapply Hnn; eauto);
    try (exfalso; now eapply Hnn'; eauto).
  - f_equal. now apply Same.
  - destruct Hq as [(x & Qx & ->) | [Nx ->]];
      destruct Hq' as [(y & Qy & ->) | [Ny ->]].
    + f_equal. now apply (quoted_unique valueStr).
    + now destruct (Ny x).
    + now destruct (Nx y).
    + reflexivity.
Qed.

(** C7, as the claim states it, fails: a value that only begins with a
    number is stored as that number, not as a string. *)
Lemma set_reads_a_leading_number :
  Commands.set_handler ["$width"; "12px"]
  = Commands.CtxSetVariable "width" (VNumber (NumDecimal false "12" "" 0))
      (Commands.CtxContinue Commands.CtxReturn)
  /\ (forall n, ~ SetCommand.is_number "12px" n)
  /\ ~ SetCommand.sets_as_specified SetCommand.is_number ["$width"; "12px"]
         (Commands.set_handler ["$width"; "12px"]).
Proof.
  assert (N : forall n, ~ SetCommand.is_number "12px" n).
  { intros n H. apply scanFloat_reads in H. discriminate. }
  split; [reflexivity|]. split; [exact N|].
  intros (name & word & words & varName & parsed & E & _ & Hp & Hprog).
  injection E as <- <- <-. injection Hprog as _ <-.
  destruct Hp as [[Ev _] | [[Ev _] | [(n & Hn & _) | (_ & _ & _ & Hq)]]];
    try discriminate.
  - now apply (N n).
  - destruct Hq as [(body & _ & C) | [_ C]]; discriminate.
Qed.

(** C7, as the code has it.  Given at least a name and a value argument,
    the [set] handler writes through the context's [setVariable] and then
    calls [continue].  The variable is the name without a leading dollar
    sign.  The value is made of the arguments after the name, joined by
    single spaces: a boolean when that text is [true] or [false]; a number
    when it begins, after white space, with a numeric literal, namely the
    number of the longest literal there, whatever follows it; and otherwise
    a string, which is the text between the two ends when the text begins
    and ends with the same quotation mark, and the text itself when it does
    not.  Nothing else satisfies this description. *)
Theorem set_handler_spec (args : list string) :
  2 <= length args ->
  SetCommand.sets_as_specified SetCommand.begins_with_number args
                               (Commands.set_handler args)
  /\ forall program,
       SetCommand.sets_as_specified SetCommand.begins_with_number args program ->
       program = Commands.set_handler args.
Proof.
  intros H.
  destruct args as [|name [|word words]]; simpl in H; try lia.
  assert (S : SetCommand.sets_as_specified SetCommand.begins_with_number
                (name :: word :: words)
                (Commands.set_handler (name :: word :: words))).
  { exists name, word, words, (Commands.strip_dollar name),
      (Commands.parseValue (String.concat " " (word :: words))).
    split; [reflexivity|]. split; [apply strip_dollar_names|].
    split; [apply parseValue_parses | reflexivity]. }
  split; [exact S|].
  intros program (name' & word' & words' & varName & parsed & E & Hn & Hp & ->).
  injection E as <- <- <-.
  destruct S as (name' & word' & words' & varName' & parsed' & E & Hn' & Hp'
                 & ->).
  injection E as <- <- <-.
  now rewrite (names_unique _ _ _ Hn Hn'), (parses_to_unique _ _ _ Hp Hp').
Qed.

Lemma set_handler_spec_witness :
  2 <= length ["$speed"; "-3.5e2"; "mph"]
  /\ SetCommand.names "$speed" "speed"
  /\ SetCommand.begins_with_number "-3.5e2 mph" (NumDecimal true "3" "5" 2)
  /\ SetCommand.sets_as_specified SetCommand.begins_with_number
       ["$speed"; "-3.5e2"; "mph"]
       (Commands.CtxSetVariable "speed" (VNumber (NumDecimal true "3" "5" 2))
          (Commands.CtxContinue Commands.CtxReturn)).
Proof.
  split; [simpl; lia|]. split; [left; now exists "speed"%string|]. split.
  - exists " mph"%string. apply scanFloat_reads. reflexivity.
  - apply (set_handler_spec ["$speed"; "-3.5e2"; "mph"]). simpl; lia.
Defined.

(** A quoted value: the quotation marks are removed. *)
Example set_handler_quoted_value :
  Commands.set_handler ["$quest_dragon"; "'slain"; "at"; "dawn'"]
  = Commands.CtxSetVariable "quest_dragon" (VString "slain at dawn")
      (Commands.CtxContinue Commands.CtxReturn).
Proof. reflexivity. Qed.

(** With fewer than two arguments nothing is written. *)
Lemma set_handler_without_value (args : list string) :
  length args < 2 ->
  Commands.set_handler args = Commands.CtxContinue Commands.CtxReturn.
Proof.
  intros H. unfold Commands.set_handler.
  destruct (2 <=? length args)%nat eqn:E; [|reflexivity].
  apply Nat.leb_le in E. lia.
Qed.
